(** * The R1CS compiler of gnark (frontend/cs/r1cs) and the GKR gates:
      a shallow embedding and its properties.

    The Go code is embedded as pure functions.  A slice is a [list], a Go
    [map] a [gmap], an [int] used as an identifier, an index or a length a
    [nat], an [int] that may be negative a [Z].  A function that mutates
    the receiver takes the state and returns the new one.  A run-time panic
    (an index out of range, a failed type assertion, an explicit [panic])
    is the outcome [None]; a Go [error] is a value of type [error].

    Lists are values: two Go slices over one array are two lists here, and a
    write through one of them is not seen through the other.  The compiler
    clones the expressions it stores in constraints and in hints; the one
    place where it keeps a slice of the caller is [MarkBoolean], and the
    functions that write in the array of an argument are [reduce] and the
    in-place sort of [MarkBoolean] and [IsBoolean].  The statements on the
    marked expressions are therefore about the terms at the time of the
    call, and say so where it matters. *)

From Stdlib Require Import ZArith Lia.
From stdpp Require Import base option list gmap strings sorting pretty.

Open Scope Z_scope.
Open Scope nat_scope.

(** ** Package schema: the visibility of a wire *)

Module schema.

(** The visibility classes; a term whose visibility was never set is
    [Unset]. *)
Inductive Visibility : Set :=
| Unset
| Internal
| Secret
| Public.

#[global] Instance Visibility_eq_dec : EqDecision Visibility.
Proof. solve_decision. Defined.

End schema.

Import schema.

(** ** Package fr: the scalar field of BLS12-377 *)

Module fr.

(** The order of the scalar field of BLS12-377. *)
Definition Modulus : Z :=
  8444461749428370424248824938781546531375899335154063827935233455917409239041%Z.

(** An element is given by its canonical representative in [0, Modulus). *)
Definition Element : Type := Z.

(** The zero value of the Go type. *)
Definition zero : Element := 0%Z.

Definition SetOne : Element := 1%Z.

Definition Add (a b : Element) : Element := ((a + b) mod Modulus)%Z.

Definition Sub (a b : Element) : Element := ((a - b) mod Modulus)%Z.

Definition Mul (a b : Element) : Element := ((a * b) mod Modulus)%Z.

Definition Neg (a : Element) : Element := ((- a) mod Modulus)%Z.

End fr.

(** ** Package cs (constraint/bls12-377): the gates of the GKR registry *)

Module gkr.

Inductive Gate : Type :=
| mulGate (g : Z)
| addGate
| subGate
| negGate.

(** [for i := 2; i < len(x); i++ { res.op(&res, &x[2]) }]: the body reads
    [x[2]] at every round. *)
Definition loop_from_2 (op : fr.Element → fr.Element → fr.Element)
    (x : list fr.Element) (res : fr.Element) : option fr.Element :=
  foldl (λ acc _, r ← acc; x2 ← x !! 2; Some (op r x2))
        (Some res) (seq 2 (length x - 2)).

Definition mulGate_Evaluate (g : Z) (x : list fr.Element) : option fr.Element :=
  if negb (Z.of_nat (length x) =? g)%Z then None
  else match length x with
       | 0 => Some fr.SetOne
       | 1 => x !! 0
       | _ => x0 ← x !! 0; x1 ← x !! 1; loop_from_2 fr.Mul x (fr.Mul x0 x1)
       end.

(** [switch len(x)] has no default case: with three inputs or more the
    result keeps its zero value. *)
Definition addGate_Evaluate (x : list fr.Element) : option fr.Element :=
  let res := fr.zero in
  match length x with
  | 0 => Some res
  | 1 => x !! 0
  | 2 => x0 ← x !! 0; x1 ← x !! 1; loop_from_2 fr.Add x (fr.Add x0 x1)
  | _ => Some res
  end.

Definition subGate_Evaluate (element : list fr.Element) : option fr.Element :=
  if (2 <? length element) then None
  else e0 ← element !! 0; e1 ← element !! 1; Some (fr.Sub e0 e1).

Definition negGate_Evaluate (element : list fr.Element) : option fr.Element :=
  if negb (length element =? 1) then None
  else e0 ← element !! 0; Some (fr.Neg e0).

Definition Evaluate (g : Gate) (x : list fr.Element) : option fr.Element :=
  match g with
  | mulGate n => mulGate_Evaluate n x
  | addGate => addGate_Evaluate x
  | subGate => subGate_Evaluate x
  | negGate => negGate_Evaluate x
  end.

Definition Degree (g : Gate) : Z :=
  match g with
  | mulGate n => n
  | _ => 1%Z
  end.

Definition GkrGateRegistry : gmap string Gate :=
  <["mul" := mulGate 2]> (<["add" := addGate]> (<["sub" := subGate]>
    (<["neg" := negGate]> ∅))).

End gkr.

(** The sum of a list of field elements, for comparison with the addition
    gate. *)
Definition fr_sum (x : list fr.Element) : fr.Element :=
  foldr fr.Add fr.zero x.

(** ** Package ecc: the supported curves *)

Module ecc.

Inductive ID : Set :=
| UNKNOWN
| BN254
| BLS12_377
| BLS12_381
| BLS24_315
| BW6_761
| BW6_633.

#[global] Instance ID_eq_dec : EqDecision ID.
Proof. solve_decision. Defined.

End ecc.

(** ** Package compiled: terms, linear expressions, constraints, hints *)

Module compiled.

(** Modelled from the spec: [compiled.Term], a packed triple of a
    coefficient identifier, a wire identifier and the visibility of the
    wire.  The packing itself is not part of the embedding; a term is the
    triple. *)
Record Term : Set := mkTerm {
  CoeffID : nat;
  WireID : nat;
  VariableVisibility : Visibility
}.

#[global] Instance Term_eq_dec : EqDecision Term.
Proof. solve_decision. Defined.

(** Modelled from the spec: [compiled.Pack(variableID, coeffID,
    visibility)] builds the term of the triple. *)
Definition Pack (variableID coeffID : nat) (visibility : Visibility) : Term :=
  mkTerm coeffID variableID visibility.

(** Modelled from the spec: [t.Unpack()] returns the coefficient, the wire
    and the visibility; [SetCoeffID] and [SetWireID] replace one
    component. *)
Definition Unpack (t : Term) : nat * nat * Visibility :=
  (CoeffID t, WireID t, VariableVisibility t).

Definition SetCoeffID (t : Term) (cID : nat) : Term :=
  mkTerm cID (WireID t) (VariableVisibility t).

Definition SetWireID (t : Term) (wID : nat) : Term :=
  mkTerm (CoeffID t) wID (VariableVisibility t).

(** Modelled from the spec: the fixed identifiers of the coefficients 0
    and 1. *)
Definition CoeffIdZero : nat := 0.
Definition CoeffIdOne : nat := 1.

(** [compiled.LinearExpression] is a slice of terms. *)
Abbreviation LinearExpression := (list Term).

(** Modelled from the spec: the order of terms, by visibility class first
    (public, then secret, then internal, the unset sentinel last), then
    by wire identifier. *)
Definition visibility_rank (v : Visibility) : nat :=
  match v with
  | Public => 0
  | Secret => 1
  | Internal => 2
  | Unset => 3
  end.

(** [Less] of the [sort.Interface] of linear expressions, on two terms. *)
Definition Term_Less (a b : Term) : bool :=
  if decide (VariableVisibility a = VariableVisibility b)
  then WireID a <? WireID b
  else visibility_rank (VariableVisibility a) <? visibility_rank (VariableVisibility b).

(** [sort.IsSorted]: no element is less than its predecessor. *)
Fixpoint IsSorted (l : LinearExpression) : bool :=
  match l with
  | [] => true
  | a :: l' =>
      match l' with
      | [] => true
      | b :: _ => negb (Term_Less b a) && IsSorted l'
      end
  end.

(** Modelled from the spec: [LinearExpression.Equal], exact structural
    equality of two term lists. *)
Definition Equal (l1 l2 : LinearExpression) : bool := bool_decide (l1 = l2).

(** Modelled from the spec: [LinearExpression.Clone], a copy of the
    terms into a fresh slice. *)
Definition LinearExpression_Clone (l : LinearExpression) : LinearExpression :=
  map (λ t, t) l.

(** [compiled.Variable]; the Go name is a reserved word here. *)
Record CVariable : Set := mkVariable {
  LinExp : LinearExpression
}.

#[global] Instance CVariable_eq_dec : EqDecision CVariable.
Proof. solve_decision. Defined.

(** Modelled from the spec: [Variable.Clone], the variable over a copy of
    its terms. *)
Definition Clone (v : CVariable) : CVariable :=
  mkVariable (LinearExpression_Clone (LinExp v)).

Record R1C : Set := mkR1C {
  R1C_L : CVariable;
  R1C_R : CVariable;
  R1C_O : CVariable
}.

#[global] Instance R1C_eq_dec : EqDecision R1C.
Proof. solve_decision. Defined.

(** A Go value of type [interface{}], as far as this package tells its
    dynamic types apart: a variable, a linear expression, a term, or a
    value that converts to a [big.Int]; [frontend.Variable] is this
    type. *)
Inductive iface : Set :=
| VariableV (v : CVariable)
| LinExpV (l : LinearExpression)
| TermV (t : Term)
| BigV (z : Z).

#[global] Instance iface_eq_dec : EqDecision iface.
Proof. solve_decision. Defined.

(** A hint: the identifier of its function, its inputs, its output wires.
    The Go maps hold pointers to hints; a hint is never changed once
    built, so a map from wires to hints holds the hint itself, and
    two wires share a record when they are bound to the same hint. *)
Record Hint : Set := mkHint {
  ID : N;
  Inputs : list iface;
  Wires : list nat
}.

#[global] Instance Hint_eq_dec : EqDecision Hint.
Proof. solve_decision. Defined.

(** Modelled from the spec: an entry of the log or debug metadata, a
    format and the terms whose wires are to be resolved. *)
Record LogEntry : Set := mkLogEntry {
  Format : string;
  ToResolve : list Term
}.

Record ConstraintSystem : Type := mkConstraintSystem {
  NbInternalVariables : nat;
  NbPublicVariables : nat;
  NbSecretVariables : nat;
  Public : list string;
  Secret : list string;
  Logs : list LogEntry;
  DebugInfo : list LogEntry;
  MDebug : gmap nat nat;
  MHints : gmap nat Hint;
  Levels : list (list nat);
  CurveID : ecc.ID;
  Schema : option unit
}.

Record R1CS : Type := mkR1CS {
  R1CS_ConstraintSystem : ConstraintSystem;
  R1CS_Constraints : list R1C
}.

End compiled.

Import compiled.

(** ** Package cs: the table of coefficients *)

Module cs.

(** Modelled from the spec: [cs.CoeffTable] interns field elements; the
    identifier of a coefficient is its index in [Coeffs]. *)
Record CoeffTable : Set := mkCoeffTable {
  Coeffs : list Z
}.

(** Modelled from the spec: the table starts with 0 and 1 at their
    reserved identifiers. *)
Definition NewCoeffTable : CoeffTable := mkCoeffTable [0%Z; 1%Z].

(** Modelled from the spec: [CoeffTable.CoeffID] returns the identifier of
    [v mod p], the one the table already has for this value or else a new
    one at the end of the table; the table only grows. *)
Definition CoeffID (p : Z) (t : CoeffTable) (v : Z) : CoeffTable * nat :=
  let c := (v mod p)%Z in
  match list_find (λ x, x = c) (Coeffs t) with
  | Some (i, _) => (t, i)
  | None => (mkCoeffTable (Coeffs t ++ [c]), length (Coeffs t))
  end.

End cs.

(** ** What the compiler takes from other packages

    The compiler calls code whose source is not part of this package: Go's
    [sort.Sort] through the [sort.Interface] of linear expressions, the
    hash of a linear expression, the set-ness assertion of a variable, the
    conversion of Go values to [big.Int] and the modulus of a curve's scalar
    field.  The embedding takes them as an interface and relies on nothing
    but what is stated here. *)

Class Env : Type := mkEnv {
  (** [sort.Sort(l)]: some rearrangement of [l] that [sort.IsSorted] accepts;
      Go's sort is not stable and nothing more is assumed. *)
  sort_Sort : LinearExpression → LinearExpression;
  sort_Sort_Permutation : ∀ l, sort_Sort l ≡ₚ l;
  sort_Sort_IsSorted : ∀ l, IsSorted (sort_Sort l) = true;
  (** [l.HashCode()], a [uint64]. *)
  HashCode : LinearExpression → N;
  (** [v.AssertIsSet()] returns ([true]) or panics ([false]); sorting the
      terms of a set variable leaves it set. *)
  IsSet : CVariable → bool;
  IsSet_sort_Sort :
    ∀ v, IsSet v = true → IsSet (mkVariable (sort_Sort (LinExp v))) = true;
  (** [curveID.Info().Fr.Modulus()]. *)
  Fr_Modulus : ecc.ID → Z;
  Fr_Modulus_pos : ∀ c, (0 < Fr_Modulus c)%Z
}.

(** ** Package utils *)

Module utils.

(** Modelled from the spec: [utils.FromInterface] converts a Go value to a
    [big.Int]; a value that is a constant converts, the compiler's own
    types do not (the call panics). *)
Definition FromInterface (v : iface) : option Z :=
  match v with
  | BigV z => Some z
  | _ => None
  end.

End utils.

(** ** Package frontend: the configuration of a compilation *)

Module frontend.

Record CompileConfig : Set := mkCompileConfig {
  Capacity : nat;
  IgnoreUnconstrainedInputs : bool
}.

End frontend.

(** ** Package r1cs: the compiler *)

Record compiler : Type := mkCompiler {
  (** the embedded [compiled.ConstraintSystem] *)
  ConstraintSystem : compiled.ConstraintSystem;
  Constraints : list R1C;
  st : cs.CoeffTable;
  config : frontend.CompileConfig;
  (** the expressions marked boolean, by hash code *)
  mtBooleans : gmap N (list LinearExpression)
}.

(** Field updates of the two records. *)

Definition set_ConstraintSystem (system : compiler)
    (c : compiled.ConstraintSystem) : compiler :=
  mkCompiler c (Constraints system) (st system) (config system)
    (mtBooleans system).

Definition set_Constraints (system : compiler) (l : list R1C) : compiler :=
  mkCompiler (ConstraintSystem system) l (st system) (config system)
    (mtBooleans system).

Definition set_st (system : compiler) (t : cs.CoeffTable) : compiler :=
  mkCompiler (ConstraintSystem system) (Constraints system) t (config system)
    (mtBooleans system).

Definition set_mtBooleans (system : compiler)
    (m : gmap N (list LinearExpression)) : compiler :=
  mkCompiler (ConstraintSystem system) (Constraints system) (st system)
    (config system) m.

Definition set_NbInternalVariables (c : compiled.ConstraintSystem) (n : nat)
    : compiled.ConstraintSystem :=
  mkConstraintSystem n (NbPublicVariables c) (NbSecretVariables c) (Public c)
    (Secret c) (Logs c) (DebugInfo c) (MDebug c) (MHints c) (Levels c)
    (CurveID c) (Schema c).

Definition set_NbPublicVariables (c : compiled.ConstraintSystem) (n : nat)
    : compiled.ConstraintSystem :=
  mkConstraintSystem (NbInternalVariables c) n (NbSecretVariables c) (Public c)
    (Secret c) (Logs c) (DebugInfo c) (MDebug c) (MHints c) (Levels c)
    (CurveID c) (Schema c).

Definition set_NbSecretVariables (c : compiled.ConstraintSystem) (n : nat)
    : compiled.ConstraintSystem :=
  mkConstraintSystem (NbInternalVariables c) (NbPublicVariables c) n (Public c)
    (Secret c) (Logs c) (DebugInfo c) (MDebug c) (MHints c) (Levels c)
    (CurveID c) (Schema c).

Definition set_Public (c : compiled.ConstraintSystem) (l : list string)
    : compiled.ConstraintSystem :=
  mkConstraintSystem (NbInternalVariables c) (NbPublicVariables c)
    (NbSecretVariables c) l (Secret c) (Logs c) (DebugInfo c) (MDebug c)
    (MHints c) (Levels c) (CurveID c) (Schema c).

Definition set_Secret (c : compiled.ConstraintSystem) (l : list string)
    : compiled.ConstraintSystem :=
  mkConstraintSystem (NbInternalVariables c) (NbPublicVariables c)
    (NbSecretVariables c) (Public c) l (Logs c) (DebugInfo c) (MDebug c)
    (MHints c) (Levels c) (CurveID c) (Schema c).

Definition set_Logs (c : compiled.ConstraintSystem) (l : list LogEntry)
    : compiled.ConstraintSystem :=
  mkConstraintSystem (NbInternalVariables c) (NbPublicVariables c)
    (NbSecretVariables c) (Public c) (Secret c) l (DebugInfo c) (MDebug c)
    (MHints c) (Levels c) (CurveID c) (Schema c).

Definition set_DebugInfo (c : compiled.ConstraintSystem) (l : list LogEntry)
    : compiled.ConstraintSystem :=
  mkConstraintSystem (NbInternalVariables c) (NbPublicVariables c)
    (NbSecretVariables c) (Public c) (Secret c) (Logs c) l (MDebug c)
    (MHints c) (Levels c) (CurveID c) (Schema c).

Definition set_MDebug (c : compiled.ConstraintSystem) (m : gmap nat nat)
    : compiled.ConstraintSystem :=
  mkConstraintSystem (NbInternalVariables c) (NbPublicVariables c)
    (NbSecretVariables c) (Public c) (Secret c) (Logs c) (DebugInfo c) m
    (MHints c) (Levels c) (CurveID c) (Schema c).

Definition set_MHints (c : compiled.ConstraintSystem) (m : gmap nat Hint)
    : compiled.ConstraintSystem :=
  mkConstraintSystem (NbInternalVariables c) (NbPublicVariables c)
    (NbSecretVariables c) (Public c) (Secret c) (Logs c) (DebugInfo c)
    (MDebug c) m (Levels c) (CurveID c) (Schema c).

Definition set_Levels (c : compiled.ConstraintSystem) (l : list (list nat))
    : compiled.ConstraintSystem :=
  mkConstraintSystem (NbInternalVariables c) (NbPublicVariables c)
    (NbSecretVariables c) (Public c) (Secret c) (Logs c) (DebugInfo c)
    (MDebug c) (MHints c) l (CurveID c) (Schema c).

Definition set_Schema (c : compiled.ConstraintSystem) (s : option unit)
    : compiled.ConstraintSystem :=
  mkConstraintSystem (NbInternalVariables c) (NbPublicVariables c)
    (NbSecretVariables c) (Public c) (Secret c) (Logs c) (DebugInfo c)
    (MDebug c) (MHints c) (Levels c) (CurveID c) s.

(** [newCompiler]: the only public wire is the constant one. *)
Definition newCompiler (curveID : ecc.ID) (config : frontend.CompileConfig)
    : compiler :=
  mkCompiler
    (mkConstraintSystem 0 0 0 ["one"] [] [] [] ∅ ∅ [] curveID None)
    []
    cs.NewCoeffTable
    config
    ∅.

(** [newInternalVariable] allocates the next internal wire. *)
Definition newInternalVariable (system : compiler) : compiler * CVariable :=
  let idx := NbInternalVariables (ConstraintSystem system) in
  (set_ConstraintSystem system
     (set_NbInternalVariables (ConstraintSystem system) (idx + 1)),
   mkVariable [Pack idx CoeffIdOne Internal]).

(** [AddPublicVariable] panics once the schema is set. *)
Definition AddPublicVariable (system : compiler) (name : string)
    : option (compiler * CVariable) :=
  match Schema (ConstraintSystem system) with
  | Some _ => None
  | None =>
      let idx := length (Public (ConstraintSystem system)) in
      Some (set_ConstraintSystem system
              (set_Public (ConstraintSystem system)
                 (Public (ConstraintSystem system) ++ [name])),
            mkVariable [Pack idx CoeffIdOne schema.Public])
  end.

(** [AddSecretVariable] panics once the schema is set. *)
Definition AddSecretVariable (system : compiler) (name : string)
    : option (compiler * CVariable) :=
  match Schema (ConstraintSystem system) with
  | Some _ => None
  | None =>
      let idx := length (Secret (ConstraintSystem system)) in
      Some (set_ConstraintSystem system
              (set_Secret (ConstraintSystem system)
                 (Secret (ConstraintSystem system) ++ [name])),
            mkVariable [Pack idx CoeffIdOne schema.Secret])
  end.

Definition one : CVariable :=
  mkVariable [Pack 0 CoeffIdOne schema.Public].

(** [SetSchema] panics when called twice. *)
Definition SetSchema (system : compiler) (s : unit) : option compiler :=
  match Schema (ConstraintSystem system) with
  | Some _ => None
  | None =>
      Some (set_ConstraintSystem system
              (set_Schema (ConstraintSystem system) (Some s)))
  end.

(** The type assertion [x.(compiled.Variable)], which panics on another
    dynamic type. *)
Definition assert_Variable (x : iface) : option CVariable :=
  match x with
  | VariableV v => Some v
  | _ => None
  end.

(** [newR1C]: the factor with fewer terms goes left; the three expressions
    are cloned. *)
Definition newR1C (_l _r _o : iface) : option R1C :=
  l ← assert_Variable _l;
  r ← assert_Variable _r;
  o ← assert_Variable _o;
  let '(l, r) :=
    if length (LinExp r) <? length (LinExp l) then (r, l) else (l, r) in
  Some (mkR1C (Clone l) (Clone r) (Clone o)).

(** [addConstraint(r1c, debugID...)]: the constraint is appended; the first
    debug identifier, when there is one, is recorded at its index. *)
Definition addConstraint (system : compiler) (r1c : R1C) (debugID : list nat)
    : compiler :=
  let system := set_Constraints system (Constraints system ++ [r1c]) in
  match debugID with
  | d :: _ =>
      set_ConstraintSystem system
        (set_MDebug (ConstraintSystem system)
           (<[length (Constraints system) - 1 := d]>
              (MDebug (ConstraintSystem system))))
  | [] => system
  end.

Section Builder.

Context `{Env}.

(** [system.CurveID.Info().Fr.Modulus()]. *)
Definition modulus (system : compiler) : Z :=
  Fr_Modulus (CurveID (ConstraintSystem system)).

(** The loop of [reduce].  At index [i], [prev] is [l[i-1]] and [rest] is
    [l[i:]].  When the two terms at [i-1] and [i] are on the same wire,
    [l[i-1]] takes the interned sum of the two coefficients, [l[i]] is cut
    out and [i] stays; otherwise [i] moves on.  Reading a coefficient that
    the table does not have panics. *)
Fixpoint reduce_loop (p : Z) (st : cs.CoeffTable) (prev : Term)
    (rest : list Term) : option (cs.CoeffTable * list Term) :=
  match rest with
  | [] => Some (st, [prev])
  | cur :: rest' =>
      let '(pcID, pvID, pVis) := Unpack prev in
      let '(ccID, cvID, cVis) := Unpack cur in
      if bool_decide (pVis = cVis) && (pvID =? cvID) then
        a ← cs.Coeffs st !! pcID;
        b ← cs.Coeffs st !! ccID;
        let c := ((a + b) mod p)%Z in
        let '(st', id) := cs.CoeffID p st c in
        reduce_loop p st' (SetCoeffID prev id) rest'
      else
        '(st', out) ← reduce_loop p st cur rest';
        Some (st', prev :: out)
  end.

(** [reduce] sorts the expression unless it is sorted, then merges the
    terms on the same wire.  The result is the variable returned and the
    compiler with the table of coefficients after the call.  The Go function
    works in the array of its argument ([sort.Sort], [SetCoeffID],
    [append]); the lists of the embedding are values, so these writes to a
    slice that the caller, or a bucket of [mtBooleans], still holds are not
    part of the result. *)
Definition reduce (system : compiler) (l : CVariable)
    : option (compiler * CVariable) :=
  let le := if IsSorted (LinExp l) then LinExp l else sort_Sort (LinExp l) in
  let mod_ := modulus system in
  match le with
  | [] => Some (system, mkVariable [])
  | t :: rest =>
      '(st', out) ← reduce_loop mod_ (st system) t rest;
      Some (set_st system st', mkVariable out)
  end.

(** [setCoeff] packs the wire of [v] with the interned coefficient. *)
Definition setCoeff (system : compiler) (v : Term) (coeff : Z)
    : compiler * Term :=
  let '(_, vID, vVis) := Unpack v in
  let '(st', id) := cs.CoeffID (modulus system) (st system) coeff in
  (set_st system st', Pack vID id vVis).

End Builder.

(** The wire of a term with its visibility: what [reduce] compares. *)
Definition term_key (t : Term) : Visibility * nat :=
  (VariableVisibility t, WireID t).

(** The value of the coefficient of a term in a table (0 when the table
    does not have it). *)
Definition coeff_value (t : cs.CoeffTable) (x : Term) : Z :=
  default 0%Z (cs.Coeffs t !! CoeffID x).

(** The terms of an expression on the wire [k]. *)
Definition terms_on (k : Visibility * nat) (l : LinearExpression)
    : LinearExpression :=
  filter (λ t, term_key t = k) l.

(** The order of the keys, and its strict part. *)
Definition key_le (a b : Term) : Prop :=
  visibility_rank (VariableVisibility a) < visibility_rank (VariableVisibility b)
  ∨ (VariableVisibility a = VariableVisibility b ∧ WireID a ≤ WireID b).

Definition key_lt (a b : Term) : Prop :=
  visibility_rank (VariableVisibility a) < visibility_rank (VariableVisibility b)
  ∨ (VariableVisibility a = VariableVisibility b ∧ WireID a < WireID b).

(** Every coefficient identifier of the expression is in the table. *)
Definition coeffs_known (t : cs.CoeffTable) (l : LinearExpression) : Prop :=
  Forall (λ x, CoeffID x < length (cs.Coeffs t)) l.

(** A Go [error]: [None] is [nil], [Some msg] an error with that message. *)
Definition error : Set := option string.

(** [b.IsUint64()] and [b.Uint64()] of a [big.Int]. *)
Definition IsUint64 (b : Z) : bool :=
  ((0 <=? b) && (b <? 2 ^ 64))%Z.

Definition Uint64 (b : Z) : Z := (b mod 2 ^ 64)%Z.

Section Booleans.

Context `{Env}.

(** [ConstantValue] returns [(value, true)], here [Some (Some value)], or
    [(nil, false)], here [Some None]; it panics on an unset variable, on a
    coefficient the table does not have and on a value that does not
    convert. *)
Definition ConstantValue (system : compiler) (v : iface) : option (option Z) :=
  match v with
  | VariableV _v =>
      if negb (IsSet _v) then None
      else if negb (length (LinExp _v) =? 1) then Some None
      else
        t ← LinExp _v !! 0;
        let '(cID, vID, visibility) := Unpack t in
        if negb ((vID =? 0) && bool_decide (visibility = schema.Public))
        then Some None
        else c ← cs.Coeffs (st system) !! cID; Some (Some c)
  | _ => r ← utils.FromInterface v; Some (Some r)
  end.

(** [if !sort.IsSorted(l) { sort.Sort(l) }]: the terms of the slice after
    the statement.  The sort is in place, so the variable of the caller
    holds these terms afterwards. *)
Definition sorted_terms (l : LinearExpression) : LinearExpression :=
  if IsSorted l then l else sort_Sort l.

(** [MarkBoolean] records a variable that is not a constant in the bucket of
    its hash code; on a constant it only checks that the value is 0 or 1,
    and panics when it is not.  The Go function appends the slice of the
    caller itself, without a copy; the bucket of the embedding holds the
    terms that this slice has when it is stored, and a later write in its
    array (see [reduce]) is not followed. *)
Definition MarkBoolean (system : compiler) (v : iface) : option compiler :=
  cv ← ConstantValue system v;
  match cv with
  | Some b =>
      if negb (IsUint64 b && (Uint64 b <=? 1)%Z) then None else Some system
  | None =>
      _v ← assert_Variable v;
      let l := sorted_terms (LinExp _v) in
      let key := HashCode l in
      let list := default [] (mtBooleans system !! key) in
      let list := list ++ [l] in
      Some (set_mtBooleans system (<[key := list]> (mtBooleans system)))
  end.

(** [IsBoolean]: a constant is boolean when it is 0 or 1; another variable
    when a marked expression of its bucket equals its sorted terms. *)
Definition IsBoolean (system : compiler) (v : iface) : option bool :=
  cv ← ConstantValue system v;
  match cv with
  | Some b => Some (IsUint64 b && (Uint64 b <=? 1)%Z)
  | None =>
      _v ← assert_Variable v;
      let l := sorted_terms (LinExp _v) in
      let key := HashCode l in
      match mtBooleans system !! key with
      | None => Some false
      | Some list => Some (existsb (λ marked, Equal marked l) list)
      end
  end.

(** [toVariable]: a variable is returned as it is (it must be set), another
    value becomes a constant, a term on the wire one. *)
Definition toVariable (system : compiler) (input : iface)
    : option (compiler * CVariable) :=
  match input with
  | VariableV t => if negb (IsSet t) then None else Some (system, t)
  | t =>
      n ← utils.FromInterface t;
      if IsUint64 n && (Uint64 n =? 1)%Z then Some (system, one)
      else
        r0 ← LinExp one !! 0;
        let '(system, r0) := setCoeff system r0 n in
        Some (system, mkVariable (<[0 := r0]> (LinExp one)))
  end.

(** [toVariables] converts the inputs in turn and adds up the numbers of
    their terms. *)
Fixpoint toVariables (system : compiler) (in_ : list iface)
    : option (compiler * list CVariable * nat) :=
  match in_ with
  | [] => Some (system, [], 0)
  | i :: in' =>
      '(system, v) ← toVariable system i;
      '(system, r, s) ← toVariables system in';
      Some (system, v :: r, length (LinExp v) + s)
  end.

End Booleans.

(** ** Hints *)

(** The conversion of one input of [NewHint]: the terms of a variable or of
    a linear expression are copied, another value is converted to a
    [big.Int]. *)
Definition hint_input (in_ : iface) : option iface :=
  match in_ with
  | VariableV t => Some (LinExpV (LinExp (Clone t)))
  | LinExpV t => Some (LinExpV (LinearExpression_Clone t))
  | t => z ← utils.FromInterface t; Some (BigV z)
  end.

(** The loop of [NewHint] that allocates the output wires: at every round
    [newInternalVariable] gives the next internal wire, whose identifier is
    read back from the first term of the variable. *)
Fixpoint newHint_wires (n : nat) (system : compiler)
    : option (compiler * list nat * list iface) :=
  match n with
  | 0 => Some (system, [], [])
  | S n' =>
      let '(system, r) := newInternalVariable system in
      t ← LinExp r !! 0;
      let '(_, vID, _) := Unpack t in
      '(system, varIDs, res) ← newHint_wires n' system;
      Some (system, vID :: varIDs, VariableV r :: res)
  end.

(** [for _, vID := range varIDs { system.MHints[vID] = ch }]. *)
Definition register_hint (ch : Hint) (varIDs : list nat) (m : gmap nat Hint)
    : gmap nat Hint :=
  foldl (λ m vID, <[vID := ch]> m) m varIDs.

(** [NewHint(f, nbOutputs, inputs...)]; [f] stands for [f.UUID()].  With no
    output asked for the call returns [nil] and an error. *)
Definition NewHint (system : compiler) (f : N) (nbOutputs : Z)
    (inputs : list iface) : option (compiler * list iface * error) :=
  if (nbOutputs <=? 0)%Z
  then Some (system, [], Some "hint function must return at least one output")
  else
    hintInputs ← mapM hint_input inputs;
    '(system, varIDs, res) ← newHint_wires (Z.to_nat nbOutputs) system;
    let ch := mkHint f hintInputs varIDs in
    let system :=
      set_ConstraintSystem system
        (set_MHints (ConstraintSystem system)
           (register_hint ch varIDs (MHints (ConstraintSystem system)))) in
    Some (system, res, None).

(** What [NewHint] stores for an input, as the specification gives it: the
    terms of a variable or of a linear expression, as a linear expression,
    and the [big.Int] of a constant; a bare term converts to nothing. *)
Definition hint_conversion (x y : iface) : Prop :=
  match x with
  | VariableV v => y = LinExpV (LinExp v)
  | LinExpV l => y = LinExpV l
  | BigV z => y = BigV z
  | TermV _ => False
  end.

(** The coefficient that the merge loop gives a run of terms on one wire:
    the values are added one by one, modulo [p] at every addition. *)
Definition sum_mod (p : Z) (t : cs.CoeffTable) (v0 : Z) (ts : list Term) : Z :=
  foldl (λ acc x, ((acc + coeff_value t x) mod p)%Z) v0 ts.

(** ** An environment to run the embedding

    A small instance of the interface, used by the examples: a merge sort
    under the order of the terms, the number of terms as hash code (so that
    collisions are easy to exhibit), a variable is set when it has a term,
    and a scalar field of order 13 for every curve. *)

#[local] Instance Term_le_dec : RelDecision (λ a b : Term, Term_Less b a = false).
Proof. intros a b. apply _. Defined.

Definition example_IsSet (v : CVariable) : bool :=
  match LinExp v with
  | [] => false
  | _ :: _ => true
  end.

#[global] Program Instance example_env : Env := {|
  sort_Sort := merge_sort (λ a b : Term, Term_Less b a = false);
  HashCode := λ l, N.of_nat (length l);
  IsSet := example_IsSet;
  Fr_Modulus := λ _, 13%Z
|}.
Next Obligation. intros l. apply merge_sort_Permutation. Qed.
Next Obligation.
  intros l.
  assert (Total (λ a b : Term, Term_Less b a = false)) as Htot.
  { intros a b. unfold Term_Less.
    destruct (decide (VariableVisibility b = VariableVisibility a)) as [e | n];
      destruct (decide (VariableVisibility a = VariableVisibility b)) as [e' | n'];
      try congruence; rewrite !Nat.ltb_ge; lia. }
  pose proof (Sorted_merge_sort (λ a b : Term, Term_Less b a = false) l) as Hs.
  induction Hs as [| a l' Hs IH Hhd]; [done |].
  destruct Hhd as [| b l'' Hab]; [done |].
  change (negb (Term_Less b a) && IsSorted (b :: l'') = true).
  rewrite Hab. exact IH.
Qed.
Next Obligation.
  intros [l]. unfold example_IsSet. cbn.
  pose proof (merge_sort_Permutation (λ a b : Term, Term_Less b a = false) l) as Hp.
  destruct l as [| a l]; [done |]. intros _.
  destruct (merge_sort _ (a :: l)) eqn:Hm; [| done].
  apply Permutation_length in Hp. done.
Qed.
Next Obligation. intros c. cbn. lia. Qed.

(** An expression with two terms on the internal wire 5, of coefficients 7
    and 6, in the field of order 13. *)
Definition pair_system : compiler :=
  set_st (newCompiler ecc.BN254 (frontend.mkCompileConfig 0 false))
         (cs.mkCoeffTable [0; 1; 7; 6]%Z).

Definition pair_expression : CVariable :=
  mkVariable [Pack 5 2 Internal; Pack 0 1 schema.Secret; Pack 5 3 Internal].

(** A compiler just created, and the same after one variable was marked
    boolean. *)
Definition fresh_system : compiler :=
  newCompiler ecc.BN254 (frontend.mkCompileConfig 0 false).

Definition marked_system : compiler :=
  default fresh_system
    (MarkBoolean fresh_system (VariableV (mkVariable [Pack 5 1 Internal]))).

(** The compiler after [n] internal wires were allocated. *)
Definition allocated (n : nat) (system : compiler) : compiler :=
  set_ConstraintSystem system
    (set_NbInternalVariables (ConstraintSystem system)
       (NbInternalVariables (ConstraintSystem system) + n)).

(** The variable that [newInternalVariable] returns for the wire [w]. *)
Definition internal_variable (w : nat) : iface :=
  VariableV (mkVariable [Pack w CoeffIdOne Internal]).

(** ** Checking that the inputs and the hints are constrained *)

(** The line feed that [sbb.WriteByte('\n')] writes. *)
Definition nl : string :=
  String (Ascii.Ascii false true false true false false false false) EmptyString.

(** [strconv.Itoa]. *)
Definition Itoa (n : Z) : string := pretty n.

(** The local variables of [checkVariables]. *)
Record checkState : Type := mkCheckState {
  cptSecret : Z;
  cptPublic : Z;
  cptHints : Z;
  secretConstrained : list bool;
  publicConstrained : list bool;
  mHintsConstrained : gmap nat bool
}.

(** The body of the loop of [processLinearExpression], on one term.  A term
    with the zero coefficient is skipped.  Reading [publicConstrained] or
    [secretConstrained] out of range panics; a Go map read gives [false] on
    a key that is not there. *)
Definition check_term (hints : gmap nat Hint) (s : checkState) (t : Term)
    : option checkState :=
  if CoeffID t =? CoeffIdZero then Some s
  else
    let visibility := VariableVisibility t in
    let vID := WireID t in
    match visibility with
    | schema.Public =>
        if negb (vID =? 0) then
          seen ← publicConstrained s !! vID;
          if negb seen then
            Some (mkCheckState (cptSecret s) (cptPublic s - 1) (cptHints s)
                    (secretConstrained s) (<[vID := true]> (publicConstrained s))
                    (mHintsConstrained s))
          else Some s
        else Some s
    | schema.Secret =>
        seen ← secretConstrained s !! vID;
        if negb seen then
          Some (mkCheckState (cptSecret s - 1) (cptPublic s) (cptHints s)
                  (<[vID := true]> (secretConstrained s)) (publicConstrained s)
                  (mHintsConstrained s))
        else Some s
    | schema.Internal =>
        let ok := bool_decide (is_Some (hints !! vID)) in
        if negb (default false (mHintsConstrained s !! vID)) && ok then
          Some (mkCheckState (cptSecret s) (cptPublic s) (cptHints s - 1)
                  (secretConstrained s) (publicConstrained s)
                  (<[vID := true]> (mHintsConstrained s)))
        else Some s
    | schema.Unset => Some s
    end.

(** [processLinearExpression(l)]. *)
Fixpoint processLinearExpression (hints : gmap nat Hint) (l : LinearExpression)
    (s : checkState) : option checkState :=
  match l with
  | [] => Some s
  | t :: l' => s ← check_term hints s t; processLinearExpression hints l' s
  end.

(** The loop over the constraints: [inl s] when the loop ran to its end in
    the state [s], [inr tt] when it returned [nil] because the three
    counters were 0 after a constraint. *)
Fixpoint check_constraints (hints : gmap nat Hint) (l : list R1C)
    (s : checkState) : option (checkState + unit) :=
  match l with
  | [] => Some (inl s)
  | r1c :: l' =>
      s ← processLinearExpression hints (LinExp (R1C_L r1c)) s;
      s ← processLinearExpression hints (LinExp (R1C_R r1c)) s;
      s ← processLinearExpression hints (LinExp (R1C_O r1c)) s;
      if (Z.lor (Z.lor (cptHints s) (cptSecret s)) (cptPublic s) =? 0)%Z
      then Some (inr tt)
      else check_constraints hints l' s
  end.

(** [for i := 0; i < len(flags) && cpt != 0; i++]: the names of the inputs
    that are not constrained, each followed by a line feed, until the
    counter is 0.  [i] is the index of the head of [flags]. *)
Fixpoint unconstrained_names (flags : list bool) (names : list string)
    (i : nat) (cpt : Z) : option (list string) :=
  match flags with
  | [] => Some []
  | seen :: flags' =>
      if (cpt =? 0)%Z then Some []
      else if negb seen then
        name ← names !! i;
        rest ← unconstrained_names flags' names (S i) (cpt - 1);
        Some (name :: nl :: rest)
      else unconstrained_names flags' names (S i) cpt
  end.

(** What is written to the string builder once the loop over the
    constraints is over, piece by piece. *)
Definition error_pieces (system : compiler) (s : checkState)
    : option (list string) :=
  secret ←
    (if negb (cptSecret s =? 0)%Z then
       names ← unconstrained_names (secretConstrained s)
                 (Secret (ConstraintSystem system)) 0 (cptSecret s);
       Some ([Itoa (cptSecret s); " unconstrained secret input(s):"; nl]
               ++ names ++ [nl])
     else Some []);
  public ←
    (if negb (cptPublic s =? 0)%Z then
       names ← unconstrained_names (publicConstrained s)
                 (Public (ConstraintSystem system)) 0 (cptPublic s);
       Some ([Itoa (cptPublic s); " unconstrained public input(s):"; nl]
               ++ names ++ [nl])
     else Some []);
  let hints :=
    if negb (cptHints s =? 0)%Z
    then [Itoa (cptHints s); " unconstrained hints"; nl]
    else [] in
  Some (secret ++ public ++ hints).

(** The state before the loop: nothing is constrained but the wire one.
    Writing [publicConstrained[0]] panics when there is no public wire. *)
Definition check_init (system : compiler) : option checkState :=
  let cptSecret := length (Secret (ConstraintSystem system)) in
  let cptPublic := length (Public (ConstraintSystem system)) in
  let cptHints := size (MHints (ConstraintSystem system)) in
  if cptPublic =? 0 then None
  else
    Some (mkCheckState (Z.of_nat cptSecret) (Z.of_nat cptPublic - 1)
            (Z.of_nat cptHints)
            (replicate cptSecret false)
            (<[0 := true]> (replicate cptPublic false))
            ∅).

(** [checkVariables] returns [nil] from inside the loop, or the error built
    after it. *)
Definition checkVariables (system : compiler) : option error :=
  s ← check_init system;
  r ← check_constraints (MHints (ConstraintSystem system)) (Constraints system) s;
  match r with
  | inr _ => Some None
  | inl s =>
      pieces ← error_pieces system s;
      Some (Some (String.concat "" pieces))
  end.

(** ** The levels of the constraints *)

Record levelBuilder : Type := mkLevelBuilder {
  ccs : R1CS;
  nbInputs : nat;
  (** at which node a wire was resolved *)
  mWireToNode : gmap nat nat;
  (** the level of each node *)
  nodeLevels : list nat;
  (** the number of constraints of each level *)
  mLevels : gmap nat nat;
  (** the level of the current node *)
  nodeLevel : nat
}.

Definition set_mWireToNode (b : levelBuilder) (m : gmap nat nat) : levelBuilder :=
  mkLevelBuilder (ccs b) (nbInputs b) m (nodeLevels b) (mLevels b) (nodeLevel b).

Definition set_nodeLevels (b : levelBuilder) (l : list nat) : levelBuilder :=
  mkLevelBuilder (ccs b) (nbInputs b) (mWireToNode b) l (mLevels b) (nodeLevel b).

Definition set_mLevels (b : levelBuilder) (m : gmap nat nat) : levelBuilder :=
  mkLevelBuilder (ccs b) (nbInputs b) (mWireToNode b) (nodeLevels b) m (nodeLevel b).

Definition set_nodeLevel (b : levelBuilder) (n : nat) : levelBuilder :=
  mkLevelBuilder (ccs b) (nbInputs b) (mWireToNode b) (nodeLevels b) (mLevels b) n.

(** [for _, hwid := range h.Wires { b.mWireToNode[hwid] = cID }]. *)
Definition mark_wires (wires : list nat) (cID : nat) (m : gmap nat nat)
    : gmap nat nat :=
  foldl (λ m hwid, <[hwid := cID]> m) m wires.

(** A wire solved by another node is a dependency: the current level is
    raised above the level of that node.  Reading [nodeLevels] out of range
    panics. *)
Definition depend_on (b : levelBuilder) (n cID : nat) : option levelBuilder :=
  if negb (n =? cID) then
    lv ← nodeLevels b !! n;
    if nodeLevel b <=? lv then Some (set_nodeLevel b (lv + 1)) else Some b
  else Some b.

(** The loop of [processLE] over the inputs of a hint: [self] is the method
    itself, called on the terms of an input that has some. *)
Fixpoint process_inputs
    (self : levelBuilder → LinearExpression → option levelBuilder)
    (ins : list iface) (b : levelBuilder) : option levelBuilder :=
  match ins with
  | [] => Some b
  | in_ :: ins =>
      b ← match in_ with
          | VariableV t => self b (LinExp t)
          | LinExpV t => self b t
          | TermV t => self b [t]
          | BigV _ => Some b
          end;
      process_inputs self ins b
  end.

(** The loop of [processLE] over the terms of [l].  An input wire is
    skipped; a wire that a node solved is a dependency; a wire that is the
    output of a hint has the inputs of the hint processed first, then all
    the outputs of the hint are marked as solved by the current node; any
    other wire is marked as solved by the current node. *)
Fixpoint process_terms
    (self : levelBuilder → LinearExpression → option levelBuilder)
    (cID : nat) (l : LinearExpression) (b : levelBuilder)
    : option levelBuilder :=
  match l with
  | [] => Some b
  | t :: l =>
      let wID := WireID t in
      if wID <? nbInputs b then process_terms self cID l b
      else
        match mWireToNode b !! wID with
        | Some n => b ← depend_on b n cID; process_terms self cID l b
        | None =>
            match MHints (R1CS_ConstraintSystem (ccs b)) !! wID with
            | Some h =>
                b ← process_inputs self (Inputs h) b;
                process_terms self cID l
                  (set_mWireToNode b
                     (mark_wires (Wires h) cID (mWireToNode b)))
            | None =>
                process_terms self cID l
                  (set_mWireToNode b (<[wID := cID]> (mWireToNode b)))
            end
        end
  end.

(** [processLE(l, cID)].  The method calls itself on the inputs of a hint;
    [fuel] bounds the depth of these calls, and running out of it is the
    outcome [None], as for a Go stack that overflows. *)
Fixpoint processLE (fuel : nat) (b : levelBuilder) (l : LinearExpression)
    (cID : nat) {struct fuel} : option levelBuilder :=
  match fuel with
  | 0 => None
  | S fuel => process_terms (λ b l, processLE fuel b l cID) cID l b
  end.

(** The body of the loop of [buildLevels] for the constraint [c] of index
    [cID]. *)
Definition level_of_constraint (fuel : nat) (b : levelBuilder) (cID : nat)
    (c : R1C) : option levelBuilder :=
  let b := set_nodeLevel b 0 in
  b ← processLE fuel b (LinExp (R1C_L c)) cID;
  b ← processLE fuel b (LinExp (R1C_R c)) cID;
  b ← processLE fuel b (LinExp (R1C_O c)) cID;
  if cID <? length (nodeLevels b) then
    let b := set_nodeLevels b (<[cID := nodeLevel b]> (nodeLevels b)) in
    Some (set_mLevels b
            (<[nodeLevel b := default 0 (mLevels b !! nodeLevel b) + 1]> (mLevels b)))
  else None.

(** [for cID, c := range ccs.Constraints]; [cID] is the index of the head
    of [l]. *)
Fixpoint level_loop (fuel : nat) (l : list R1C) (cID : nat) (b : levelBuilder)
    : option levelBuilder :=
  match l with
  | [] => Some b
  | c :: l' =>
      b ← level_of_constraint fuel b cID c;
      level_loop fuel l' (S cID) b
  end.

(** [for n, l := range b.nodeLevels { levels[l] = append(levels[l], n) }];
    [n] is the index of the head of [nodeLevels]; a level out of range
    panics. *)
Fixpoint fill_levels (nodeLevels : list nat) (n : nat) (levels : list (list nat))
    : option (list (list nat)) :=
  match nodeLevels with
  | [] => Some levels
  | l :: nodeLevels' =>
      level ← levels !! l;
      fill_levels nodeLevels' (S n) (<[l := level ++ [n]]> levels)
  end.

Definition new_levelBuilder (ccs : R1CS) : levelBuilder :=
  mkLevelBuilder ccs
    (NbPublicVariables (R1CS_ConstraintSystem ccs)
     + NbSecretVariables (R1CS_ConstraintSystem ccs))
    ∅
    (replicate (length (R1CS_Constraints ccs)) 0)
    ∅
    0.

Definition buildLevels (fuel : nat) (ccs : R1CS) : option (list (list nat)) :=
  b ← level_loop fuel (R1CS_Constraints ccs) 0 (new_levelBuilder ccs);
  fill_levels (nodeLevels b) 0 (replicate (size (mLevels b)) []).

(** ** Compile: the final numbering of the wires *)

(** [shiftVID]: the wires are laid out as public, then secret, then
    internal. *)
Definition shiftVID (nbPublic nbSecret : nat) (oldID : nat)
    (visibility : Visibility) : nat :=
  match visibility with
  | Internal => oldID + nbPublic + nbSecret
  | schema.Public => oldID
  | schema.Secret => oldID + nbPublic
  | Unset => oldID
  end.

(** The body of the loop of [offsetIDs], on one term. *)
Definition offset_term (nbPublic nbSecret : nat) (t : Term) : Term :=
  let '(_, vID, visibility) := Unpack t in
  SetWireID t (shiftVID nbPublic nbSecret vID visibility).

(** [offsetIDs(l)]: every term of the slice, in place. *)
Definition offsetIDs (nbPublic nbSecret : nat) (l : LinearExpression)
    : LinearExpression :=
  offset_term nbPublic nbSecret <$> l.

Definition offset_R1C (nbPublic nbSecret : nat) (c : R1C) : R1C :=
  mkR1C (mkVariable (offsetIDs nbPublic nbSecret (LinExp (R1C_L c))))
        (mkVariable (offsetIDs nbPublic nbSecret (LinExp (R1C_R c))))
        (mkVariable (offsetIDs nbPublic nbSecret (LinExp (R1C_O c)))).

(** One input of a hint in the loop over the hints: the terms of a variable
    or of a linear expression are copied and offset, the result being a
    linear expression; another value is kept. *)
Definition offset_input (nbPublic nbSecret : nat) (in_ : iface) : iface :=
  match in_ with
  | VariableV t =>
      LinExpV (offsetIDs nbPublic nbSecret (LinearExpression_Clone (LinExp t)))
  | LinExpV t =>
      LinExpV (offsetIDs nbPublic nbSecret (LinearExpression_Clone t))
  | t => t
  end.

(** The hint that the loop builds from [hint]. *)
Definition offset_hint (nbPublic nbSecret : nat) (hint : Hint) : Hint :=
  mkHint (ID hint)
    (offset_input nbPublic nbSecret <$> Inputs hint)
    ((λ vID, shiftVID nbPublic nbSecret vID Internal) <$> Wires hint).

(** The body of [HINTLOOP] for one value of the map.  When the first
    shifted output wire is already in [shiftedMap] the hint is skipped. *)
Definition hint_step (nbPublic nbSecret : nat) (shiftedMap : gmap nat Hint)
    (hint : Hint) : gmap nat Hint :=
  let ch := offset_hint nbPublic nbSecret hint in
  let ws := Wires ch in
  match ws with
  | w0 :: _ =>
      if bool_decide (is_Some (shiftedMap !! w0)) then shiftedMap
      else foldl (λ m vID, <[vID := ch]> m) shiftedMap ws
  | [] => shiftedMap
  end.

(** [for _, hint := range cs.MHints]: Go visits the entries of a map in an
    order of its own choosing; [order] is the order of one run. *)
Definition hint_loop (nbPublic nbSecret : nat) (order : list (nat * Hint))
    : gmap nat Hint :=
  foldl (λ shiftedMap e, hint_step nbPublic nbSecret shiftedMap e.2) ∅ order.

Definition offset_LogEntry (nbPublic nbSecret : nat) (e : LogEntry) : LogEntry :=
  mkLogEntry (Format e) (offset_term nbPublic nbSecret <$> ToResolve e).

(** The constraint system of a curve, as [NewR1CS(res, cs.st.Coeffs)] of
    that curve's package builds it. *)
Record CompiledConstraintSystem : Type := mkCompiled {
  compiled_curve : ecc.ID;
  compiled_R1CS : R1CS;
  compiled_Coeffs : list Z
}.

(** The result of [Compile] before the levels are built. *)
Definition offset_system (order : list (nat * Hint)) (cs : compiler) : R1CS :=
  let nbPublic := length (Public (ConstraintSystem cs)) in
  let nbSecret := length (Secret (ConstraintSystem cs)) in
  let c := ConstraintSystem cs in
  let c := set_NbPublicVariables c nbPublic in
  let c := set_NbSecretVariables c nbSecret in
  let c := set_MHints c (hint_loop nbPublic nbSecret order) in
  let c := set_Logs c (offset_LogEntry nbPublic nbSecret <$> Logs c) in
  let c := set_DebugInfo c (offset_LogEntry nbPublic nbSecret <$> DebugInfo c) in
  mkR1CS c (offset_R1C nbPublic nbSecret <$> Constraints cs).

(** [Compile] returns a constraint system and [nil], or [nil] and an error;
    it panics on a curve that is not supported.  [order] is the order in
    which this run visits the hint map, [fuel] the depth allowed to
    [processLE]. *)
Definition Compile (fuel : nat) (order : list (nat * Hint)) (cs : compiler)
    : option (option CompiledConstraintSystem * error) :=
  err ← (if negb (frontend.IgnoreUnconstrainedInputs (config cs))
         then checkVariables cs else Some None);
  match err with
  | Some msg => Some (None, Some msg)
  | None =>
      let res := offset_system order cs in
      levels ← buildLevels fuel res;
      let res :=
        mkR1CS (set_Levels (R1CS_ConstraintSystem res) levels)
               (R1CS_Constraints res) in
      match CurveID (ConstraintSystem cs) with
      | ecc.UNKNOWN => None
      | curve => Some (Some (mkCompiled curve res (cs.Coeffs (st cs))), None)
      end
  end.

(** An order in which a run may visit the hint map of the compiler. *)
Definition visit_order (cs : compiler) (order : list (nat * Hint)) : Prop :=
  order ≡ₚ map_to_list (MHints (ConstraintSystem cs)).

(** ** Sequences of calls, and the final numbering as the specification
       gives it *)

(** Every output wire of a hint of the map is bound to that hint, and a
    wire is bound to a hint of which it is an output. *)
Definition hints_wf (m : gmap nat Hint) : Prop :=
  ∀ w h, m !! w = Some h →
    w ∈ Wires h ∧ ∀ w', w' ∈ Wires h → m !! w' = Some h.

(** The hint map that [Compile] returns, by its lookups. *)
Definition shifted_hints (nbPublic nbSecret : nat) (m : gmap nat Hint)
    (k : nat) : option Hint :=
  if decide (nbPublic + nbSecret ≤ k)
  then offset_hint nbPublic nbSecret <$> m !! (k - (nbPublic + nbSecret))
  else None.

(** The lookups of the map once the entries [seen] were visited. *)
Definition partial_hints (p s : nat) (m : gmap nat Hint) (seen : list Hint)
    (k : nat) : option Hint :=
  if decide (p + s ≤ k)
  then h ← m !! (k - (p + s));
       if decide (h ∈ seen) then Some (offset_hint p s h) else None
  else None.

(** A call of the builder, with its arguments; [addConstraint_call l r o d]
    is [addConstraint(newR1C(l, r, o), d...)]. *)
Inductive call : Type :=
| AddPublicVariable_call (name : string)
| AddSecretVariable_call (name : string)
| newInternalVariable_call
| reduce_call (l : CVariable)
| addConstraint_call (l r o : iface) (debugID : list nat)
| MarkBoolean_call (v : iface)
| NewHint_call (f : N) (nbOutputs : Z) (inputs : list iface)
| SetSchema_call.

Section Calls.

Context `{Env}.

(** The compiler after a call; [None] when the call panics. *)
Definition run_call (system : compiler) (c : call) : option compiler :=
  match c with
  | AddPublicVariable_call name => fst <$> AddPublicVariable system name
  | AddSecretVariable_call name => fst <$> AddSecretVariable system name
  | newInternalVariable_call => Some (fst (newInternalVariable system))
  | reduce_call l => fst <$> reduce system l
  | addConstraint_call l r o debugID =>
      r1c ← newR1C l r o; Some (addConstraint system r1c debugID)
  | MarkBoolean_call v => MarkBoolean system v
  | NewHint_call f nbOutputs inputs =>
      (λ r, r.1.1) <$> NewHint system f nbOutputs inputs
  | SetSchema_call => SetSchema system tt
  end.

(** The compiler after a sequence of calls. *)
Fixpoint run_calls (system : compiler) (calls : list call) : option compiler :=
  match calls with
  | [] => Some system
  | c :: calls' => system ← run_call system c; run_calls system calls'
  end.

End Calls.

(** The hint map of a compiler is well formed, and the output wires of its
    hints are allocated. *)
Definition hints_inv (system : compiler) : Prop :=
  hints_wf (MHints (ConstraintSystem system))
  ∧ ∀ w h, MHints (ConstraintSystem system) !! w = Some h →
      ∀ w', w' ∈ Wires h → w' < NbInternalVariables (ConstraintSystem system).

(** The term [t] in the final numbering, as the specification gives it: a
    public wire keeps its identifier, a secret wire is moved by the number
    of public wires, an internal wire by the number of public and secret
    wires. *)
Definition shifted (nbPublic nbSecret : nat) (t : Term) : Term :=
  mkTerm (CoeffID t)
    (match VariableVisibility t with
     | schema.Public => WireID t
     | schema.Secret => WireID t + nbPublic
     | Internal => WireID t + nbPublic + nbSecret
     | Unset => WireID t
     end)
    (VariableVisibility t).

Definition shifted_R1C (nbPublic nbSecret : nat) (c : R1C) : R1C :=
  mkR1C (mkVariable (shifted nbPublic nbSecret <$> LinExp (R1C_L c)))
        (mkVariable (shifted nbPublic nbSecret <$> LinExp (R1C_R c)))
        (mkVariable (shifted nbPublic nbSecret <$> LinExp (R1C_O c))).

Definition shifted_input (nbPublic nbSecret : nat) (in_ : iface) : iface :=
  match in_ with
  | VariableV v => LinExpV (shifted nbPublic nbSecret <$> LinExp v)
  | LinExpV l => LinExpV (shifted nbPublic nbSecret <$> l)
  | TermV t => TermV t
  | BigV z => BigV z
  end.

Definition shifted_hint (nbPublic nbSecret : nat) (h : Hint) : Hint :=
  mkHint (ID h) (shifted_input nbPublic nbSecret <$> Inputs h)
         ((λ w, w + nbPublic + nbSecret) <$> Wires h).

Definition shifted_LogEntry (nbPublic nbSecret : nat) (e : LogEntry) : LogEntry :=
  mkLogEntry (Format e) (shifted nbPublic nbSecret <$> ToResolve e).

(** A circuit with three public wires (the wire one and two inputs), four
    secret inputs, two hints and one constraint over the internal wire 5,
    the secret wire 2 and the public wire 1; the check of the inputs is
    switched off. *)
Definition demo_calls : list call :=
  [ AddPublicVariable_call "a"; AddPublicVariable_call "b";
    AddSecretVariable_call "s0"; AddSecretVariable_call "s1";
    AddSecretVariable_call "s2"; AddSecretVariable_call "s3";
    NewHint_call 7 2 [VariableV (mkVariable [Pack 2 1 schema.Secret]); BigV 5];
    NewHint_call 8 1 [VariableV (mkVariable [Pack 0 1 Internal])];
    newInternalVariable_call; newInternalVariable_call; newInternalVariable_call;
    addConstraint_call (VariableV (mkVariable [Pack 5 1 Internal]))
                       (VariableV (mkVariable [Pack 2 1 schema.Secret]))
                       (VariableV (mkVariable [Pack 1 1 schema.Public])) [] ].

Definition demo_start : compiler :=
  newCompiler ecc.BN254 (frontend.mkCompileConfig 0 true).

Definition demo_system : compiler :=
  default demo_start (run_calls demo_start demo_calls).

Definition demo_order : list (nat * Hint) :=
  map_to_list (MHints (ConstraintSystem demo_system)).

(** A hint map that no sequence of calls builds: two records claim the
    same two wires. *)
Definition crossed_hints : list (nat * Hint) :=
  [(0, mkHint 1 [] [0; 1]); (1, mkHint 2 [] [1; 0])].

(** ** What the levels are checked against *)

(** The wires that the terms of a constraint refer to. *)
Definition wires_of (c : R1C) : list nat :=
  WireID <$> (LinExp (R1C_L c) ++ LinExp (R1C_R c) ++ LinExp (R1C_O c)).

(** What a run of [processLE] for the node [cID] may change: the current
    level only goes up, and when it moved it stands just above the level of
    a node that solved a wire; a wire is bound to the node that it had, or
    to [cID]. *)
Definition extends (cID : nat) (b b' : levelBuilder) : Prop :=
  ccs b' = ccs b ∧ nbInputs b' = nbInputs b
  ∧ nodeLevels b' = nodeLevels b ∧ mLevels b' = mLevels b
  ∧ nodeLevel b ≤ nodeLevel b'
  ∧ (∀ w, mWireToNode b' !! w = mWireToNode b !! w
          ∨ mWireToNode b' !! w = Some cID)
  ∧ (nodeLevel b' = nodeLevel b
     ∨ ∃ w n lv, n ≠ cID ∧ mWireToNode b !! w = Some n
                 ∧ nodeLevels b !! n = Some lv ∧ nodeLevel b' = S lv).

(** The current level stands above the level of every other node that
    solved a wire of [l]. *)
Definition deps_ok (cID : nat) (l : LinearExpression) (b : levelBuilder) : Prop :=
  ∀ t, t ∈ l → nbInputs b ≤ WireID t →
  ∀ n, mWireToNode b !! WireID t = Some n → n ≠ cID →
  ∃ lv, nodeLevels b !! n = Some lv ∧ lv < nodeLevel b.

(** The state of [buildLevels] once the constraints below [k] have their
    level: a wire is bound to a node below [k]; the wires of a constraint
    that earlier nodes solved are solved at lower levels; a level above 0
    comes just above the level of an earlier node; [mLevels] has the levels
    in use as keys. *)
Definition level_inv (cs : list R1C) (k : nat) (b : levelBuilder) : Prop :=
  (∀ w n, mWireToNode b !! w = Some n → n < k)
  ∧ (∀ c r, c < k → cs !! c = Some r →
       ∀ w, w ∈ wires_of r → nbInputs b ≤ w →
       ∀ n, mWireToNode b !! w = Some n → n < c →
       ∃ lv lc, nodeLevels b !! n = Some lv ∧ nodeLevels b !! c = Some lc ∧ lv < lc)
  ∧ (∀ c lv, c < k → nodeLevels b !! c = Some (S lv) →
       ∃ c', c' < c ∧ nodeLevels b !! c' = Some lv)
  ∧ (∀ l, is_Some (mLevels b !! l) ↔ ∃ c, c < k ∧ nodeLevels b !! c = Some l).

(** The nodes that [fill_levels] appends to the level [k], in order. *)
Fixpoint level_members (nodeLevels : list nat) (n k : nat) : list nat :=
  match nodeLevels with
  | [] => []
  | l :: nodeLevels' =>
      (if decide (l = k) then [n] else []) ++ level_members nodeLevels' (S n) k
  end.

(** The terms of an input of a hint that [processLE] goes through. *)
Definition input_terms (in_ : iface) : LinearExpression :=
  match in_ with
  | VariableV t => LinExp t
  | LinExpV t => t
  | TermV t => [t]
  | BigV _ => []
  end.

(** The inputs of a hint refer to input wires or to wires below the wire at
    which the hint is found: the hint map has no cycle. *)
Definition hints_descend (m : gmap nat Hint) (nbIn : nat) : Prop :=
  ∀ w h, m !! w = Some h →
  ∀ in_ t, in_ ∈ Inputs h → t ∈ input_terms in_ →
  WireID t < w ∨ WireID t < nbIn.

(** Every term of every constraint is on a wire below [W]. *)
Definition wires_below (cs : list R1C) (W : nat) : Prop :=
  ∀ r w, r ∈ cs → w ∈ wires_of r → w < W.

(** The nodes that solved wires have a level to read, and so has [cID]. *)
Definition nodes_known (cID : nat) (b : levelBuilder) : Prop :=
  cID < length (nodeLevels b)
  ∧ ∀ w n, mWireToNode b !! w = Some n → n < length (nodeLevels b).

(** A constraint system in its final numbering, with one public and one
    secret wire: the constraint 1 uses the wire 2 that the constraint 0
    solves, the constraint 3 uses the wire 4 that the constraint 2 solves
    and the wire 5 that a hint computes from the wire 3. *)
Definition chain_ccs : R1CS :=
  let w (i : nat) := mkVariable [Pack i 1 (if i <? 2 then schema.Secret else Internal)] in
  mkR1CS
    (mkConstraintSystem 5 1 1 ["one"] ["x"] [] [] ∅
       (<[5 := mkHint 9 [LinExpV [Pack 3 1 Internal]] [5]]> ∅) [] ecc.BN254 None)
    [ mkR1C (w 1) (w 1) (w 2);
      mkR1C (w 2) (w 1) (w 3);
      mkR1C (w 1) (w 1) (w 4);
      mkR1C (w 5) (w 4) (w 6) ].

(** A hint whose input is its own output: [processLE] calls itself without
    end. *)
Definition looping_ccs : R1CS :=
  mkR1CS
    (mkConstraintSystem 1 1 0 ["one"] [] [] [] ∅
       (<[1 := mkHint 9 [LinExpV [Pack 1 1 Internal]] [1]]> ∅) [] ecc.BN254 None)
    [ mkR1C (mkVariable [Pack 1 1 Internal]) one one ].

(** ** What the check of the inputs is compared with *)

(** The terms of a constraint, in the order in which they are checked. *)
Definition terms_of (c : R1C) : LinearExpression :=
  LinExp (R1C_L c) ++ LinExp (R1C_R c) ++ LinExp (R1C_O c).

(** The term [t] constrains the wire [w] of visibility [vis]: it is on that
    wire and its coefficient is not the zero coefficient. *)
Definition constrains (vis : Visibility) (w : nat) (t : Term) : Prop :=
  CoeffID t ≠ CoeffIdZero ∧ VariableVisibility t = vis ∧ WireID t = w.

#[global] Instance constrains_dec vis w t : Decision (constrains vis w t).
Proof. unfold constrains. apply _. Defined.

(** Some term of [seen] constrains the wire. *)
Definition constrained (seen : LinearExpression) (vis : Visibility) (w : nat)
    : Prop :=
  Exists (constrains vis w) seen.

(** The flags of the secret and of the public inputs once the terms [seen]
    were checked; the public wire 0 counts as constrained. *)
Definition secret_flags (nS : nat) (seen : LinearExpression) : list bool :=
  (λ i, bool_decide (constrained seen schema.Secret i)) <$> seq 0 nS.

Definition public_flags (nP : nat) (seen : LinearExpression) : list bool :=
  (λ i, bool_decide (i = 0 ∨ constrained seen schema.Public i)) <$> seq 0 nP.

(** The number of flags that are not set. *)
Definition count_false (flags : list bool) : nat :=
  length (filter (λ f, f = false) flags).

(** Every tracked wire is constrained by a term of [seen]. *)
Definition all_constrained (hints : gmap nat Hint) (nS nP : nat)
    (seen : LinearExpression) : Prop :=
  (∀ i, i < nS → constrained seen schema.Secret i)
  ∧ (∀ i, 0 < i < nP → constrained seen schema.Public i)
  ∧ (∀ w, is_Some (hints !! w) → constrained seen Internal w).

(** The public and secret terms are on wires that exist. *)
Definition term_in_range (nS nP : nat) (t : Term) : Prop :=
  match VariableVisibility t with
  | schema.Public => WireID t < nP
  | schema.Secret => WireID t < nS
  | _ => True
  end.

(** The state of [checkVariables] once the terms [seen] were checked. *)
Definition check_inv (hints : gmap nat Hint) (nS nP : nat)
    (seen : LinearExpression) (s : checkState) : Prop :=
  secretConstrained s = secret_flags nS seen
  ∧ publicConstrained s = public_flags nP seen
  ∧ (∀ w, mHintsConstrained s !! w
          = if bool_decide (is_Some (hints !! w) ∧ constrained seen Internal w)
            then Some true else None)
  ∧ cptSecret s = Z.of_nat (count_false (secretConstrained s))
  ∧ cptPublic s = Z.of_nat (count_false (publicConstrained s))
  ∧ cptHints s = (Z.of_nat (size hints) - Z.of_nat (size (mHintsConstrained s)))%Z.

(** The names that go with the flags that are not set. *)
Fixpoint unmarked_names (flags : list bool) (names : list string) : list string :=
  match flags, names with
  | f :: flags', n :: names' =>
      (if f then [] else [n]) ++ unmarked_names flags' names'
  | _, _ => []
  end.

(** The terms of a list of constraints, in the order of the check. *)
Definition all_terms (l : list R1C) : LinearExpression :=
  concat (terms_of <$> l).

(** The lines of the error message for the inputs whose flag is not set:
    each name is followed by a line feed. *)
Definition name_lines (flags : list bool) (names : list string) : list string :=
  flat_map (λ n, [n; nl]) (unmarked_names flags names).

(** The number of hint wires that no term of [seen] constrains. *)
Definition unconstrained_hints (hints : gmap nat Hint) (seen : LinearExpression)
    : nat :=
  size hints
  - size (filter (λ e : nat * Hint, constrained seen Internal e.1) hints).

(** The error message of [checkVariables] as the specification gives it,
    piece by piece: for the secret inputs, then for the public inputs, the
    number of inputs that are not constrained and their names, one by
    line; then the number of hint wires that are not constrained. *)
Definition error_lines (system : compiler) (seen : LinearExpression)
    : list string :=
  let sf := secret_flags (length (Secret (ConstraintSystem system))) seen in
  let pf := public_flags (length (Public (ConstraintSystem system))) seen in
  let nh := unconstrained_hints (MHints (ConstraintSystem system)) seen in
  (if decide (count_false sf = 0) then []
   else [Itoa (Z.of_nat (count_false sf)); " unconstrained secret input(s):"; nl]
          ++ name_lines sf (Secret (ConstraintSystem system)) ++ [nl])
  ++ (if decide (count_false pf = 0) then []
      else [Itoa (Z.of_nat (count_false pf)); " unconstrained public input(s):"; nl]
             ++ name_lines pf (Public (ConstraintSystem system)) ++ [nl])
  ++ (if decide (nh = 0) then []
      else [Itoa (Z.of_nat nh); " unconstrained hints"; nl]).

(** The terms of the constraints are on inputs that exist. *)
Definition constraints_in_range (system : compiler) : Prop :=
  Forall (λ c, Forall (term_in_range
                         (length (Secret (ConstraintSystem system)))
                         (length (Public (ConstraintSystem system))))
                      (terms_of c))
         (Constraints system).

(** Every secret input, every public input but the wire 0 and every hint
    wire is constrained by a term of a constraint of the compiler. *)
Definition inputs_constrained (system : compiler) : Prop :=
  all_constrained (MHints (ConstraintSystem system))
    (length (Secret (ConstraintSystem system)))
    (length (Public (ConstraintSystem system)))
    (all_terms (Constraints system)).

(** ** Package cs (constraint/bls12-377): assignments and outputs of the
       GKR hints *)

(** The loop [for j := range row { row[j].BigInt(outs[outsI]); outsI++ }]:
    the elements of [row] are written to the integers that [outs] points
    to, from the index [outsI] on; an index out of range panics.  The
    pointers of [outs] are taken to be distinct and not nil. *)
Fixpoint write_outs (row : list fr.Element) (outs : list Z) (outsI : nat)
    : option (list Z * nat) :=
  match row with
  | [] => Some (outs, outsI)
  | e :: row' =>
      if outsI <? length outs
      then write_outs row' (<[outsI := e]> outs) (S outsI)
      else None
  end.

(** [frToBigInts(dst, src)]: [for i := range src { src[i].BigInt(dst[i]) }]. *)
Definition frToBigInts (dst : list Z) (src : list fr.Element) : option (list Z) :=
  fst <$> write_outs src dst 0.

Section SetOuts.

(** A wire of a [constraint.GkrCircuit] and its method [IsOutput], which
    the package constraint defines. *)
Variable GkrWire : Type.
Variable IsOutput : GkrWire → bool.

(** The loop of [setOuts] from the wire of index [i] on. *)
Fixpoint setOuts_from (i : nat) (circuit : list GkrWire)
    (a : list (list fr.Element)) (outs : list Z) (outsI : nat)
    : option (list Z) :=
  match circuit with
  | [] => Some outs
  | w :: circuit' =>
      if IsOutput w then
        row ← a !! i;
        '(outs, outsI) ← write_outs row outs outsI;
        setOuts_from (S i) circuit' a outs outsI
      else setOuts_from (S i) circuit' a outs outsI
  end.

(** [a.setOuts(circuit, outs)]: the assignments of the output wires are
    written to [outs], wire after wire. *)
Definition setOuts (a : list (list fr.Element)) (circuit : list GkrWire)
    (outs : list Z) : option (list Z) :=
  setOuts_from 0 circuit a outs 0.

(** The rows of the output wires of [circuit], the wire at the head having
    the index [i]; [None] when the assignment has no row for one of
    them. *)
Fixpoint output_rows (i : nat) (circuit : list GkrWire)
    (a : list (list fr.Element)) : option (list (list fr.Element)) :=
  match circuit with
  | [] => Some []
  | w :: circuit' =>
      if IsOutput w then
        row ← a !! i; rows ← output_rows (S i) circuit' a; Some (row :: rows)
      else output_rows (S i) circuit' a
  end.

End SetOuts.

(** One entry of a GKR proof as [gkrProveHint] reads it: the partial sum
    polynomials and the final evaluation proof, [nil] or a slice of field
    elements. *)
Record sumcheck_Proof : Type := mkSumcheckProof {
  PartialSumPolys : list (list fr.Element);
  FinalEvalProof : option (list fr.Element)
}.

(** [frToBigInts(outs[offset:], poly); offset += len(poly)]: the slice
    expression panics when [offset] is beyond the length of [outs]. *)
Definition write_at (outs : list Z) (offset : nat) (poly : list fr.Element)
    : option (list Z * nat) :=
  if length outs <? offset then None
  else
    tail ← frToBigInts (drop offset outs) poly;
    Some (take offset outs ++ tail, offset + length poly).

(** [for _, poly := range polys { ... }] over the polynomials of one
    entry. *)
Fixpoint serialize_polys (polys : list (list fr.Element)) (outs : list Z)
    (offset : nat) : option (list Z * nat) :=
  match polys with
  | [] => Some (outs, offset)
  | poly :: polys' =>
      '(outs, offset) ← write_at outs offset poly;
      serialize_polys polys' outs offset
  end.

(** The loop of [gkrProveHint] that serializes the proof into [outs]. *)
Fixpoint serialize_proof (proof : list sumcheck_Proof) (outs : list Z)
    (offset : nat) : option (list Z * nat) :=
  match proof with
  | [] => Some (outs, offset)
  | p :: proof' =>
      '(outs, offset) ← serialize_polys (PartialSumPolys p) outs offset;
      '(outs, offset) ←
        match FinalEvalProof p with
        | Some finalEvalProof => write_at outs offset finalEvalProof
        | None => Some (outs, offset)
        end;
      serialize_proof proof' outs offset
  end.

(** The field elements of a proof, in the order of the serialization. *)
Definition proof_elements (proof : list sumcheck_Proof) : list fr.Element :=
  concat ((λ p, concat (PartialSumPolys p) ++ default [] (FinalEvalProof p))
          <$> proof).

(** The outcome of writing [data] into [outs] from the index [k] on: a
    panic when [outs] is too short, and otherwise [outs] with [data] at
    [k], and the index after it. *)
Definition written (data : list Z) (outs : list Z) (k : nat)
    : option (list Z * nat) :=
  if k + length data <=? length outs
  then Some (take k outs ++ data ++ drop (k + length data) outs,
             k + length data)
  else None.

(** ** What the further properties are stated with *)

(** The wire [w] of visibility [vis] was allocated, in a compiler with
    [nbPublic] public and [nbSecret] secret wires. *)
Definition wire_allocated (nbPublic nbSecret : nat) (w : nat)
    (vis : Visibility) : Prop :=
  match vis with
  | schema.Public => w < nbPublic
  | schema.Secret => w < nbSecret
  | Internal => True
  | Unset => False
  end.

(** The compiler with the constraints [l] after its own. *)
Definition with_more_constraints (system : compiler) (l : list R1C) : compiler :=
  set_Constraints system (Constraints system ++ l).

(** A circuit with two secret inputs [x] and [y] and the constraint
    [x * 1 = 1], which leaves [y] unconstrained; the check of the inputs is
    on. *)
Definition unchecked_calls : list call :=
  [ AddSecretVariable_call "x"; AddSecretVariable_call "y";
    addConstraint_call (VariableV (mkVariable [Pack 0 1 schema.Secret]))
                       (VariableV one) (VariableV one) [] ].

Definition unchecked_system : compiler :=
  default (newCompiler ecc.BN254 (frontend.mkCompileConfig 0 false))
    (run_calls (newCompiler ecc.BN254 (frontend.mkCompileConfig 0 false))
       unchecked_calls).


(** The value of a linear expression for an assignment [val] of the wires,
    with the coefficients of the table [t]. *)
Definition eval_terms (t : cs.CoeffTable) (val : Visibility → nat → Z)
    (l : LinearExpression) : Z :=
  foldr (λ x acc, (coeff_value t x * val (VariableVisibility x) (WireID x)
                   + acc)%Z) 0%Z l.


(** What calls of the builder may do to the compiler: the names of the
    inputs, the constraints and the table of coefficients only get longer,
    at their end; internal wires are only added; a wire bound to a hint
    stays bound to it; the buckets of the boolean facts only get longer;
    the curve and the configuration stay; a schema that is set stays
    set. *)
Definition grows (s s' : compiler) : Prop :=
  Public (ConstraintSystem s) `prefix_of` Public (ConstraintSystem s')
  ∧ Secret (ConstraintSystem s) `prefix_of` Secret (ConstraintSystem s')
  ∧ NbInternalVariables (ConstraintSystem s)
    ≤ NbInternalVariables (ConstraintSystem s')
  ∧ Constraints s `prefix_of` Constraints s'
  ∧ cs.Coeffs (st s) `prefix_of` cs.Coeffs (st s')
  ∧ (∀ w h, MHints (ConstraintSystem s) !! w = Some h →
            MHints (ConstraintSystem s') !! w = Some h)
  ∧ (∀ key list, mtBooleans s !! key = Some list →
       ∃ more, mtBooleans s' !! key = Some (list ++ more))
  ∧ CurveID (ConstraintSystem s') = CurveID (ConstraintSystem s)
  ∧ config s' = config s
  ∧ (is_Some (Schema (ConstraintSystem s)) →
     Schema (ConstraintSystem s') = Schema (ConstraintSystem s)
     ∧ Public (ConstraintSystem s') = Public (ConstraintSystem s)
     ∧ Secret (ConstraintSystem s') = Secret (ConstraintSystem s)).

(** The internal wires that a call allocates when it returns, and the
    constraints that it adds. *)
Definition call_variables (c : call) : nat :=
  match c with
  | newInternalVariable_call => 1
  | NewHint_call _ nbOutputs _ => Z.to_nat nbOutputs
  | _ => 0
  end.

Definition call_constraints (c : call) : nat :=
  match c with
  | addConstraint_call _ _ _ _ => 1
  | _ => 0
  end.

(** A call that writes in the array of a slice it is given: [reduce] sorts
    its argument and merges its terms in place, and [MarkBoolean] sorts in
    place an expression that is not sorted.  The other calls take no slice
    or clone what they store ([newR1C], [NewHint]). *)
Definition writes_argument (c : call) : bool :=
  match c with
  | reduce_call _ => true
  | MarkBoolean_call (VariableV v) => negb (IsSorted (LinExp v))
  | _ => false
  end.

(** A call that declares an input or sets the schema. *)
Definition declares_input (c : call) : bool :=
  match c with
  | AddPublicVariable_call _ | AddSecretVariable_call _ | SetSchema_call => true
  | _ => false
  end.

(** ** Tags and counters *)

(** [backend.ID]. *)
Inductive backend_ID : Set :=
| backend_UNKNOWN
| GROTH16
| PLONK.

(** [compiler.Backend()]. *)
Definition Backend (system : compiler) : backend_ID := GROTH16.

(** [frontend.Tag]. *)
Record frontend_Tag : Set := mkTag {
  Name : string;
  VID : Z;
  CID : Z
}.

(** [compiled.Counter]. *)
Record Counter : Set := mkCounter {
  From : string;
  To : string;
  NbVariables : Z;
  NbConstraints : Z;
  Counter_CurveID : ecc.ID;
  BackendID : backend_ID
}.

(** [Tag(name)]: [file] stands for [filepath.Base] of the file of the
    caller and [line] for its line, which [runtime.Caller(1)] gives. *)
Definition Tag (system : compiler) (name : string) (file : string)
    (line : nat) : frontend_Tag :=
  mkTag (name ++ "[" ++ file ++ ":" ++ Itoa (Z.of_nat line) ++ "]")
        (Z.of_nat (NbInternalVariables (ConstraintSystem system)))
        (Z.of_nat (length (Constraints system))).

(** [AddCounter(from, to)] appends a counter to the field [Counters] of the
    constraint system, which is passed apart here as [counters]; the
    differences are differences of Go [int]s, and may be negative. *)
Definition AddCounter (system : compiler) (counters : list Counter)
    (from to : frontend_Tag) : list Counter :=
  counters ++ [mkCounter (Name from) (Name to)
                 (VID to - VID from)%Z (CID to - CID from)%Z
                 (CurveID (ConstraintSystem system)) GROTH16].


(** What [toVariable] accepts: a variable that is set, or a value that
    converts to a [big.Int]. *)
Definition convertible `{Env} (input : iface) : Prop :=
  match input with
  | VariableV v => IsSet v = true
  | BigV _ => True
  | _ => False
  end.

(** The variable that [toVariable] returns for the input: the variable
    itself, or one term on the wire one for a constant. *)
Definition converted (input : iface) (v : CVariable) : Prop :=
  match input with
  | VariableV x => v = x
  | BigV _ => ∃ t, LinExp v = [t] ∧ term_key t = (schema.Public, 0)
  | _ => False
  end.


(** ** Circuits built on allocated wires *)

(** The term is on a wire that the compiler has allocated. *)
Definition term_wf (s : compiler) (t : Term) : Prop :=
  match VariableVisibility t with
  | schema.Public => WireID t < length (Public (ConstraintSystem s))
  | schema.Secret => WireID t < length (Secret (ConstraintSystem s))
  | Internal => WireID t < NbInternalVariables (ConstraintSystem s)
  | Unset => False
  end.

(** The terms of a value given to the builder are on allocated wires. *)
Definition input_wf (s : compiler) (x : iface) : Prop :=
  Forall (term_wf s) (input_terms x).

(** The operands of a constraint and the inputs of a hint are on wires
    allocated before the call. *)
Definition call_wf (s : compiler) (c : call) : Prop :=
  match c with
  | addConstraint_call l r o _ => input_wf s l ∧ input_wf s r ∧ input_wf s o
  | NewHint_call _ _ inputs => Forall (input_wf s) inputs
  | _ => True
  end.

Section CallsWf.

Context `{Env}.

(** Every call of the sequence is on wires allocated by the calls before
    it. *)
Fixpoint calls_wf (s : compiler) (calls : list call) : Prop :=
  match calls with
  | [] => True
  | c :: calls' =>
      call_wf s c ∧ ∀ s1, run_call s c = Some s1 → calls_wf s1 calls'
  end.

End CallsWf.

(** What holds of a compiler built by such calls: the hints are well
    formed, there is a public wire, the terms of the constraints and of the
    inputs of the hints are on allocated wires, and an internal wire among
    the inputs of a hint is below the wires bound to the hint. *)
Definition built_inv (s : compiler) : Prop :=
  hints_inv s
  ∧ Public (ConstraintSystem s) ≠ []
  ∧ Forall (λ c, Forall (term_wf s) (terms_of c)) (Constraints s)
  ∧ (∀ w h, MHints (ConstraintSystem s) !! w = Some h →
       ∀ in_ t, in_ ∈ Inputs h → t ∈ input_terms in_ →
       term_wf s t ∧ (VariableVisibility t = Internal → WireID t < w)).


(** ** Which constraint solves a wire *)

(** The output wires of a hint are bound together: a wire bound to a hint
    is bound to the node to which the other output wires of the hint are
    bound, or none of them is bound. *)
Definition solved_together (b : levelBuilder) : Prop :=
  ∀ w h, MHints (R1CS_ConstraintSystem (ccs b)) !! w = Some h →
  ∀ w', w' ∈ Wires h → mWireToNode b !! w' = mWireToNode b !! w.

(** A wire bound to a node stays bound to it. *)
Definition binds_kept (b b' : levelBuilder) : Prop :=
  ∀ w n, mWireToNode b !! w = Some n → mWireToNode b' !! w = Some n.

(** The wires of [l] that are not inputs are bound to a node. *)
Definition resolved (l : LinearExpression) (b : levelBuilder) : Prop :=
  ∀ t, t ∈ l → nbInputs b ≤ WireID t → is_Some (mWireToNode b !! WireID t).

(** The state of [buildLevels] before the constraint [k], as to the
    binding of the wires. *)
Definition resolved_inv (cs : list R1C) (k : nat) (b : levelBuilder) : Prop :=
  solved_together b
  ∧ ∀ c r w, c < k → cs !! c = Some r → w ∈ wires_of r → nbInputs b ≤ w →
      ∃ n, mWireToNode b !! w = Some n ∧ n ≤ c.


(** The compiler with the check of the inputs switched off. *)
Definition without_check (system : compiler) : compiler :=
  mkCompiler (ConstraintSystem system) (Constraints system) (st system)
    (frontend.mkCompileConfig (frontend.Capacity (config system)) true)
    (mtBooleans system).

(** The bucket of the boolean facts in which the variable is looked up. *)
Definition bucket `{Env} (system : compiler) (x : CVariable)
    : list LinearExpression :=
  default [] (mtBooleans system !! HashCode (sorted_terms (LinExp x))).


Section DefineGkrHints.

(** The type [hint.Function], and the two hints that [gkrSolveHint] and
    [gkrProveHint] build for the info given. *)
Variable Function : Type.
Variables (solveHint proveHint : Function).

(** [defineGkrHints(info, hintFunctions)]: a copy of the map, to which the
    solving hint and then the proving hint are added under the identifiers
    of [info]. *)
Definition defineGkrHints (SolveHintID ProveHintID : N)
    (hintFunctions : gmap N Function) : gmap N Function :=
  let res := map_fold (λ k v res, <[k := v]> res) ∅ hintFunctions in
  let res := <[SolveHintID := solveHint]> res in
  <[ProveHintID := proveHint]> res.

End DefineGkrHints.

(** * Properties *)

(** ** The GKR addition gate *)

Lemma addGate_registered : gkr.GkrGateRegistry !! "add" = Some gkr.addGate.
Proof. reflexivity. Qed.

(** C10: the addition gate of the GKR registry returns a value on every
    input list; it is zero on the empty list, the input itself on one
    input, the field sum on two, and zero on every list of three inputs or
    more, which differs from the sum of the inputs (at 1, 2, 3 the sum is
    6). *)
Theorem addGate_Evaluate_two_at_most :
  gkr.Evaluate gkr.addGate [] = Some fr.zero
  ∧ (∀ a, gkr.Evaluate gkr.addGate [a] = Some a)
  ∧ (∀ a b, gkr.Evaluate gkr.addGate [a; b] = Some (fr.Add a b))
  ∧ (∀ x, 3 ≤ length x → gkr.Evaluate gkr.addGate x = Some fr.zero)
  ∧ gkr.Evaluate gkr.addGate [1; 2; 3]%Z ≠ Some (fr_sum [1; 2; 3]%Z).
Proof.
  repeat split.
  - intros x Hx. cbn. unfold gkr.addGate_Evaluate.
    destruct x as [|a [|b [|c x]]]; cbn in Hx; try lia. reflexivity.
  - vm_compute. discriminate.
Qed.

Lemma addGate_Evaluate_two_at_most_witness :
  3 ≤ length [1; 2; 3]%Z
  ∧ gkr.Evaluate gkr.addGate [1; 2; 3]%Z = Some fr.zero.
Proof.
  split; [cbn; lia |].
  apply (proj1 (proj2 (proj2 (proj2 addGate_Evaluate_two_at_most)))).
  cbn; lia.
Defined.

(** ** Building a constraint *)

Lemma LinearExpression_Clone_eq (l : LinearExpression) :
  LinearExpression_Clone l = l.
Proof. unfold LinearExpression_Clone. apply map_id. Qed.

Lemma Clone_eq (v : CVariable) : Clone v = v.
Proof. destruct v as [l]. unfold Clone. cbn. now rewrite LinearExpression_Clone_eq. Qed.

Lemma addConstraint_Constraints (system : compiler) (r1c : R1C) (debugID : list nat) :
  Constraints (addConstraint system r1c debugID) = Constraints system ++ [r1c].
Proof. destruct debugID; reflexivity. Qed.

(** C6: [newR1C] on three variables returns a constraint; when the left
    factor has strictly more terms than the right one the two factors are
    stored swapped, otherwise they are stored as given; in both cases the
    stored left factor has at most as many terms as the stored right one,
    the stored expressions are the clones of the inputs (they have the
    inputs' terms), and [addConstraint] appends the constraint to the
    list. *)
Theorem newR1C_orders_factors (l r o : CVariable) :
  ∃ stored,
    newR1C (VariableV l) (VariableV r) (VariableV o) = Some stored
    ∧ (length (LinExp r) < length (LinExp l) →
         stored = mkR1C (Clone r) (Clone l) (Clone o)
         ∧ LinExp (R1C_L stored) = LinExp r
         ∧ LinExp (R1C_R stored) = LinExp l)
    ∧ (length (LinExp l) ≤ length (LinExp r) →
         stored = mkR1C (Clone l) (Clone r) (Clone o)
         ∧ LinExp (R1C_L stored) = LinExp l
         ∧ LinExp (R1C_R stored) = LinExp r)
    ∧ LinExp (R1C_O stored) = LinExp o
    ∧ length (LinExp (R1C_L stored)) ≤ length (LinExp (R1C_R stored))
    ∧ ∀ system debugID,
        Constraints (addConstraint system stored debugID)
        = Constraints system ++ [stored].
Proof.
  unfold newR1C. cbn [assert_Variable mbind option_bind].
  destruct (length (LinExp r) <? length (LinExp l)) eqn:Hcmp.
  - apply Nat.ltb_lt in Hcmp.
    eexists. split; [reflexivity |]. rewrite !Clone_eq. cbn.
    repeat split; intros; try lia; auto using addConstraint_Constraints.
  - apply Nat.ltb_ge in Hcmp.
    eexists. split; [reflexivity |]. rewrite !Clone_eq. cbn.
    repeat split; intros; try lia; auto using addConstraint_Constraints.
Qed.

(** The swap on a concrete pair: two terms on the left, one on the right. *)
Example newR1C_swaps_2_1 :
  newR1C (VariableV (mkVariable [Pack 0 1 Internal; Pack 1 1 Internal]))
         (VariableV (mkVariable [Pack 2 1 Internal]))
         (VariableV one)
  = Some (mkR1C (mkVariable [Pack 2 1 Internal])
                (mkVariable [Pack 0 1 Internal; Pack 1 1 Internal])
                one).
Proof. reflexivity. Qed.

(** A factor that is not a variable makes the type assertion panic. *)
Example newR1C_panics_on_constant :
  newR1C (BigV 3) (VariableV one) (VariableV one) = None.
Proof. reflexivity. Qed.

(** ** The order of terms and the table of coefficients *)

Lemma visibility_rank_inj (a b : Visibility) :
  visibility_rank a = visibility_rank b → a = b.
Proof. destruct a, b; cbn; intros; congruence || lia. Qed.

Lemma Term_Less_key_lt (a b : Term) : Term_Less a b = true ↔ key_lt a b.
Proof.
  unfold Term_Less, key_lt.
  destruct (decide (VariableVisibility a = VariableVisibility b)) as [e | n].
  - rewrite Nat.ltb_lt, e. split; [auto | intros [? | [_ ?]]; lia].
  - rewrite Nat.ltb_lt. split; [auto | intros [? | [? _]]; [lia | contradiction]].
Qed.

Lemma Term_Less_false_key_le (a b : Term) : Term_Less b a = false ↔ key_le a b.
Proof.
  rewrite <- not_true_iff_false, Term_Less_key_lt. unfold key_lt, key_le.
  split.
  - intros Hn.
    destruct (decide (VariableVisibility a = VariableVisibility b)) as [e | n].
    + right. split; [done |]. rewrite e in Hn.
      destruct (le_lt_dec (WireID a) (WireID b)); [done |]. exfalso. apply Hn. right. split; [done | lia].
    + left. pose proof (visibility_rank_inj (VariableVisibility a) (VariableVisibility b)).
      destruct (lt_eq_lt_dec (visibility_rank (VariableVisibility a)) (visibility_rank (VariableVisibility b))) as [[?|?]|?]; [done | tauto |].
      exfalso. apply Hn. by left.
  - intros [Hr | [He Hw]] [Hr' | [He' Hw']]; try lia.
    + rewrite He' in Hr. lia.
    + rewrite He in Hr'. lia.
Qed.

#[local] Instance key_le_trans : Transitive key_le.
Proof.
  intros a b c. unfold key_le. intros [?|[e1 ?]] [?|[e2 ?]].
  - left; lia.
  - left. rewrite <- e2. lia.
  - left. rewrite e1. lia.
  - right. split; [congruence | lia].
Qed.

Lemma key_le_lt_or_eq (a b : Term) : key_le a b → key_lt a b ∨ term_key a = term_key b.
Proof.
  unfold key_le, key_lt, term_key. intros [? | [e Hw]]; [by left; left |].
  destruct (decide (WireID a = WireID b)) as [-> | n].
  - right. by rewrite e.
  - left. right. split; [done | lia].
Qed.

Lemma key_lt_neq (a b : Term) : key_lt a b → term_key a ≠ term_key b.
Proof.
  unfold key_lt, term_key. intros [? | [e Hw]] [= Hv Hi]; [rewrite Hv in *; lia | lia].
Qed.

Lemma key_lt_le_trans (a b c : Term) : key_lt a b → key_le b c → key_lt a c.
Proof.
  unfold key_le, key_lt. intros [?|[e1 ?]] [?|[e2 ?]].
  - left; lia.
  - left. rewrite <- e2. lia.
  - left. rewrite e1. lia.
  - right. split; [congruence | lia].
Qed.

Lemma IsSorted_Sorted (l : LinearExpression) : IsSorted l = true ↔ Sorted key_le l.
Proof.
  induction l as [| a [| b l'] IH].
  - split; [constructor | done].
  - split; [repeat constructor | done].
  - change (IsSorted (a :: b :: l')) with (negb (Term_Less b a) && IsSorted (b :: l')).
    rewrite andb_true_iff, negb_true_iff, Term_Less_false_key_le, IH.
    split.
    + intros [? ?]. constructor; [done | by constructor].
    + intros Hs. inversion Hs as [| ? ? Hs' Hhd]; subst. inversion Hhd; subst. done.
Qed.

Lemma CoeffID_spec (p : Z) (t t' : cs.CoeffTable) (v : Z) (i : nat) :
  cs.CoeffID p t v = (t', i) →
  cs.Coeffs t' !! i = Some (v mod p)%Z ∧ cs.Coeffs t `prefix_of` cs.Coeffs t'.
Proof.
  unfold cs.CoeffID.
  destruct (list_find _ _) as [[j x] |] eqn:Hf; intros [= <- <-].
  - apply list_find_Some in Hf as (Hl & -> & _). split; [done | reflexivity].
  - cbn. split.
    + rewrite lookup_app_r by lia. by rewrite Nat.sub_diag.
    + by apply prefix_app_r.
Qed.

Lemma coeff_value_prefix (t t' : cs.CoeffTable) (x : Term) :
  cs.Coeffs t `prefix_of` cs.Coeffs t' → CoeffID x < length (cs.Coeffs t) →
  coeff_value t' x = coeff_value t x.
Proof.
  intros [ext He] Hlt. unfold coeff_value. by rewrite He, lookup_app_l.
Qed.

Lemma coeffs_known_prefix (t t' : cs.CoeffTable) (l : LinearExpression) :
  cs.Coeffs t `prefix_of` cs.Coeffs t' → coeffs_known t l → coeffs_known t' l.
Proof.
  intros Hp Hk. eapply Forall_impl; [exact Hk |]. cbn. intros x Hx.
  apply prefix_length in Hp. lia.
Qed.

Lemma sum_mod_prefix (p : Z) (t t' : cs.CoeffTable) (v0 : Z) (ts : list Term) :
  cs.Coeffs t `prefix_of` cs.Coeffs t' → coeffs_known t ts →
  sum_mod p t' v0 ts = sum_mod p t v0 ts.
Proof.
  intros Hp Hk. revert v0. induction Hk as [| x ts Hx Hk IH]; intros v0; [done |].
  unfold sum_mod in *. cbn. rewrite IH. by rewrite (coeff_value_prefix t t').
Qed.

Lemma terms_on_cons (k : Visibility * nat) (x : Term) (l : LinearExpression) :
  terms_on k (x :: l) = if decide (term_key x = k) then x :: terms_on k l else terms_on k l.
Proof. unfold terms_on. by rewrite filter_cons. Qed.

Lemma coeffs_known_terms_on (t : cs.CoeffTable) k (l : LinearExpression) :
  coeffs_known t l → coeffs_known t (terms_on k l).
Proof.
  unfold coeffs_known, terms_on. rewrite !Forall_forall. intros Hk x Hx.
  apply list_elem_of_filter in Hx as [_ Hx]. auto.
Qed.

Section ReduceProofs.
Context `{Env}.

Lemma Sorted_key_le_same_head (a a' : Term) (l : LinearExpression) :
  term_key a = term_key a' → Sorted key_le (a :: l) → Sorted key_le (a' :: l).
Proof.
  intros Hk Hs. inversion Hs as [| ? ? Hs' Hhd]; subst. constructor; [done |].
  destruct Hhd as [| b l Hab]; constructor.
  unfold term_key in Hk. injection Hk as Hv Hw.
  unfold key_le in *. rewrite <- Hv, <- Hw. done.
Qed.

Lemma Sorted_key_le_above (a : Term) (l : LinearExpression) :
  Sorted key_le (a :: l) → Forall (key_le a) l.
Proof.
  intros Hs. apply Sorted_StronglySorted in Hs; [| apply _].
  by apply StronglySorted_inv in Hs as [_ ?].
Qed.

Lemma terms_on_above (a b : Term) (l : LinearExpression) :
  key_lt a b → Sorted key_le (b :: l) → terms_on (term_key a) (b :: l) = [].
Proof.
  intros Hab Hs. pose proof (Sorted_key_le_above _ _ Hs) as Hall.
  assert (Forall (λ x, term_key x ≠ term_key a) (b :: l)) as Hne.
  { constructor.
    - intros e. by apply key_lt_neq in Hab.
    - eapply Forall_impl; [exact Hall |]. cbn. intros x Hx e.
      pose proof (key_lt_le_trans _ _ _ Hab Hx) as Hlt. by apply key_lt_neq in Hlt. }
  clear Hs Hall. revert Hne. generalize (b :: l). intros l0 Hne.
  unfold terms_on. induction Hne as [| x l' Hx Hl IH]; [done |].
  rewrite filter_cons. destruct (decide _); [done | auto].
Qed.

Lemma reduce_loop_spec (p : Z) (rest : LinearExpression) :
  ∀ (t : cs.CoeffTable) (prev : Term),
  Sorted key_le (prev :: rest) → coeffs_known t (prev :: rest) →
  ∃ t' first out,
    reduce_loop p t prev rest = Some (t', first :: out)
    ∧ cs.Coeffs t `prefix_of` cs.Coeffs t'
    ∧ coeffs_known t' (first :: out)
    ∧ term_key first = term_key prev
    ∧ Sorted key_lt (first :: out)
    ∧ ∀ k, match terms_on k (prev :: rest) with
           | [] => terms_on k (first :: out) = []
           | x :: xs =>
               ∃ y, terms_on k (first :: out) = [y]
                    ∧ coeff_value t' y = sum_mod p t (coeff_value t x) xs
           end.
Proof.
  induction rest as [| cur rest IH]; intros t prev Hs Hk.
  - exists t, prev, []. cbn [reduce_loop].
    repeat split; [done | done | repeat constructor |].
    intros k. rewrite terms_on_cons. destruct (decide _); [| done].
    exists prev. done.
  - cbn [reduce_loop Unpack].
    pose proof Hk as Hk0.
    apply Forall_cons in Hk as [Hp Hk]. pose proof Hk as Hk1. apply Forall_cons in Hk as [Hc Hk].
    destruct (bool_decide (VariableVisibility prev = VariableVisibility cur)
              && (WireID prev =? WireID cur)) eqn:Hsame.
    + apply andb_prop in Hsame as [Hv Hw].
      apply bool_decide_eq_true in Hv. apply Nat.eqb_eq in Hw.
      assert (term_key prev = term_key cur) as Hkey by (unfold term_key; congruence).
      destruct (lookup_lt_is_Some_2 _ _ Hp) as [a Ha].
      destruct (lookup_lt_is_Some_2 _ _ Hc) as [b Hb].
      rewrite Ha, Hb. cbn [mbind option_bind].
      destruct (cs.CoeffID p t ((a + b) mod p)) as [t1 id] eqn:Hid.
      apply CoeffID_spec in Hid as [Hid Hpre]. rewrite Zmod_mod in Hid.
      set (prev' := SetCoeffID prev id).
      assert (term_key prev' = term_key cur) as Hkey' by (rewrite <- Hkey; done).
      destruct (IH t1 prev') as (t' & first & out & Hrun & Hpre' & Hk' & Hfk & Hso & Hon).
      { apply Sorted_key_le_same_head with cur; [done |]. by inversion Hs. }
      { constructor; [by apply lookup_lt_Some in Hid |]. by apply coeffs_known_prefix with t. }
      exists t', first, out.
      split; [exact Hrun |]. split; [by transitivity (cs.Coeffs t1) |].
      split; [done |]. split; [by rewrite Hfk, Hkey', Hkey |]. split; [done |].
      { intros k. specialize (Hon k). rewrite !terms_on_cons in *.
        assert (coeff_value t1 prev' = ((coeff_value t prev + coeff_value t cur) mod p)%Z) as Hval.
        { unfold coeff_value at 1. cbn. rewrite Hid. cbn. unfold coeff_value. by rewrite Ha, Hb. }
        rewrite Hkey' in Hon. rewrite Hkey.
        destruct (decide (term_key cur = k)) as [e | n].
        -- destruct Hon as (y & Hy & Hyv). exists y. split; [done |].
           rewrite Hyv, Hval.
           rewrite (sum_mod_prefix p t t1) by (try done; by apply coeffs_known_terms_on).
           done.
        -- destruct (terms_on k rest) as [| x xs] eqn:Hx; [done |].
           destruct Hon as (y & Hy & Hyv). exists y. split; [done |].
           rewrite Hyv.
           assert (coeffs_known t (x :: xs)) as Hkx by (rewrite <- Hx; by apply coeffs_known_terms_on).
           apply Forall_cons in Hkx as [Hkx Hkxs].
           rewrite (sum_mod_prefix p t t1) by done.
           by rewrite (coeff_value_prefix t t1). }
    + assert (term_key prev ≠ term_key cur) as Hkey.
      { unfold term_key. intros [= Hv Hw]. rewrite Hv, Hw in Hsame.
        rewrite bool_decide_eq_true_2, Nat.eqb_refl in Hsame by done. done. }
      assert (key_lt prev cur) as Hlt.
      { inversion Hs as [| ? ? _ Hhd]; subst. inversion Hhd; subst.
        by destruct (key_le_lt_or_eq prev cur). }
      assert (Sorted key_le (cur :: rest)) as Hs' by (by inversion Hs).
      destruct (IH t cur Hs' Hk1) as (t' & first & out & Hrun & Hpre' & Hk' & Hfk & Hso & Hon).
      rewrite Hrun. cbn [mbind option_bind].
      exists t', prev, (first :: out).
      split; [done |]. split; [done |].
      split; [constructor; [apply prefix_length in Hpre'; lia | done] |].
      split; [done |].
      split.
      { constructor; [done |]. constructor.
        unfold key_lt in *. unfold term_key in Hfk. injection Hfk as Hv Hw. rewrite Hv, Hw. done. }
      intros k. rewrite (terms_on_cons k prev (first :: out)), (terms_on_cons k prev (cur :: rest)).
      destruct (decide (term_key prev = k)) as [e | n].
      * subst k. rewrite (terms_on_above prev cur rest) by done.
        specialize (Hon (term_key prev)). rewrite (terms_on_above prev cur rest) in Hon by done.
        rewrite Hon. exists prev. split; [done |]. cbn. by apply coeff_value_prefix.
      * apply Hon.
Qed.


Lemma reduce_loop_sorted (p : Z) (rest : LinearExpression) :
  ∀ (t t' : cs.CoeffTable) (prev : Term) (out : LinearExpression),
  Sorted key_le (prev :: rest) →
  reduce_loop p t prev rest = Some (t', out) →
  ∃ first out', out = first :: out' ∧ term_key first = term_key prev
                ∧ Sorted key_lt out.
Proof.
  induction rest as [| cur rest IH]; intros t t' prev out Hs.
  - cbn. intros [= <- <-]. exists prev, []. repeat split; repeat constructor.
  - cbn [reduce_loop Unpack].
    destruct (bool_decide (VariableVisibility prev = VariableVisibility cur)
              && (WireID prev =? WireID cur)) eqn:Hsame.
    + apply andb_prop in Hsame as [Hv Hw].
      apply bool_decide_eq_true in Hv. apply Nat.eqb_eq in Hw.
      assert (term_key prev = term_key cur) as Hkey by (unfold term_key; congruence).
      destruct (cs.Coeffs t !! CoeffID prev) as [a |]; [| done].
      destruct (cs.Coeffs t !! CoeffID cur) as [b |]; [| done].
      cbn [mbind option_bind].
      destruct (cs.CoeffID p t ((a + b) mod p)) as [t1 id].
      intros Hrun. apply IH in Hrun as (first & out' & -> & Hfk & Hso).
      * exists first, out'. repeat split; [| done]. by rewrite Hfk.
      * apply Sorted_key_le_same_head with cur; [by rewrite <- Hkey |]. by inversion Hs.
    + assert (term_key prev ≠ term_key cur) as Hkey.
      { unfold term_key. intros [= Hv Hw]. rewrite Hv, Hw in Hsame.
        rewrite bool_decide_eq_true_2, Nat.eqb_refl in Hsame by done. done. }
      assert (key_lt prev cur) as Hlt.
      { inversion Hs as [| ? ? _ Hhd]; subst. inversion Hhd; subst.
        by destruct (key_le_lt_or_eq prev cur). }
      destruct (reduce_loop p t cur rest) as [[t1 out1] |] eqn:Hrun; [| done].
      cbn [mbind option_bind]. intros [= <- <-].
      apply IH in Hrun as (first & out' & -> & Hfk & Hso); [| by inversion Hs].
      exists prev, (first :: out'). repeat split. constructor; [done |]. constructor.
      unfold key_lt in *. unfold term_key in Hfk. injection Hfk as Hv Hw. rewrite Hv, Hw. done.
Qed.

Lemma key_lt_key_le (a b : Term) : key_lt a b → key_le a b.
Proof. unfold key_lt, key_le. intros [? | [? ?]]; [by left | right; split; [done | lia]]. Qed.

Lemma Sorted_key_lt_le (l : LinearExpression) : Sorted key_lt l → Sorted key_le l.
Proof.
  induction 1 as [| a l Hs IH Hhd]; constructor; [done |].
  destruct Hhd; constructor. by apply key_lt_key_le.
Qed.

#[local] Instance key_lt_trans : Transitive key_lt.
Proof. intros a b c Hab Hbc. apply key_lt_le_trans with b; [done | by apply key_lt_key_le]. Qed.

Lemma Sorted_key_lt_NoDup (l : LinearExpression) :
  Sorted key_lt l → NoDup (term_key <$> l).
Proof.
  intros Hs. apply Sorted_StronglySorted in Hs; [| apply _].
  induction Hs as [| a l Hs IH Hall]; cbn; constructor; [| done].
  rewrite list_elem_of_fmap. intros (b & Hk & Hb).
  rewrite Forall_forall in Hall. apply Hall in Hb. by apply key_lt_neq in Hb.
Qed.

(** On an expression sorted without repetition the loop changes nothing and
    reads no coefficient. *)
Lemma reduce_loop_strict (p : Z) (rest : LinearExpression) :
  ∀ (t : cs.CoeffTable) (prev : Term),
  Sorted key_lt (prev :: rest) →
  reduce_loop p t prev rest = Some (t, prev :: rest).
Proof.
  induction rest as [| cur rest IH]; intros t prev Hs; [done |].
  cbn [reduce_loop Unpack].
  assert (key_lt prev cur) as Hlt.
  { inversion Hs as [| ? ? _ Hhd]; subst. by inversion Hhd. }
  destruct (bool_decide (VariableVisibility prev = VariableVisibility cur)
            && (WireID prev =? WireID cur)) eqn:Hsame.
  - apply andb_prop in Hsame as [Hv Hw].
    apply bool_decide_eq_true in Hv. apply Nat.eqb_eq in Hw.
    apply key_lt_neq in Hlt. exfalso. apply Hlt. unfold term_key. congruence.
  - rewrite IH by (by inversion Hs). done.
Qed.

End ReduceProofs.

(** ** Reducing a linear expression *)

Section ReduceTheorems.
Context `{Env}.

Lemma reduce_input_sorted (l : LinearExpression) :
  Sorted key_le (if IsSorted l then l else sort_Sort l)
  ∧ (if IsSorted l then l else sort_Sort l) ≡ₚ l.
Proof.
  destruct (IsSorted l) eqn:Hs.
  - split; [by apply IsSorted_Sorted | done].
  - split; [apply IsSorted_Sorted, sort_Sort_IsSorted | apply sort_Sort_Permutation].
Qed.

Lemma modulus_set_st (system : compiler) (t : cs.CoeffTable) :
  modulus (set_st system t) = modulus system.
Proof. reflexivity. Qed.

(** C5: [reduce] returns on every expression whose coefficients the table
    has, and reducing its result again returns the same compiler state
    and the same expression, term for term; the result is sorted by
    visibility class then wire, strictly, so no two of its terms share a
    wire and visibility. *)
Theorem reduce_idempotent (system : compiler) (e : CVariable) :
  (coeffs_known (st system) (LinExp e) →
     ∃ system' e', reduce system e = Some (system', e'))
  ∧ ∀ system' e',
      reduce system e = Some (system', e') →
      reduce system' e' = Some (system', e')
      ∧ Sorted key_lt (LinExp e')
      ∧ NoDup (term_key <$> LinExp e').
Proof.
  unfold reduce at 1 2.
  destruct (reduce_input_sorted (LinExp e)) as [Hs Hp].
  destruct (if IsSorted (LinExp e) then LinExp e else sort_Sort (LinExp e))
    as [| t rest] eqn:Hle.
  - split; [eauto |]. intros system' e' [= <- <-].
    split; [reflexivity |]. split; cbn; constructor.
  - split.
    + intros Hk.
      assert (coeffs_known (st system) (t :: rest)) as Hk'.
      { unfold coeffs_known. by rewrite Hp. }
      destruct (reduce_loop_spec (modulus system) rest (st system) t Hs Hk')
        as (t' & first & out & Hrun & _).
      rewrite Hrun. cbn. eauto.
    + intros system' e'.
      destruct (reduce_loop (modulus system) (st system) t rest)
        as [[t' out] |] eqn:Hrun; [| done].
      cbn [mbind option_bind]. intros [= <- <-].
      apply reduce_loop_sorted in Hrun as (first & out' & -> & _ & Hso); [| done].
      split; [| split; [done | by apply Sorted_key_lt_NoDup]].
      unfold reduce. cbn [LinExp].
      rewrite (proj2 (IsSorted_Sorted (first :: out'))) by (by apply Sorted_key_lt_le).
      rewrite reduce_loop_strict by done. cbn. done.
Qed.

Lemma Permutation_pair {A} (l : list A) (x y : A) :
  l ≡ₚ [x; y] → l = [x; y] ∨ l = [y; x].
Proof.
  intros Hp. symmetry in Hp. apply Permutation_length_2_inv in Hp. tauto.
Qed.

(** C4: when exactly two terms of an expression are on the wire [k], with
    coefficients [a] and [b], [reduce] returns an expression with exactly
    one term on [k], whose coefficient in the table is [(a + b) mod p];
    when that sum is 0 the term is still in the expression, with
    coefficient 0. *)
Theorem reduce_merges_two_terms (system : compiler) (e : CVariable)
    (k : Visibility * nat) (x y : Term) :
  coeffs_known (st system) (LinExp e) →
  terms_on k (LinExp e) ≡ₚ [x; y] →
  let sum := ((coeff_value (st system) x + coeff_value (st system) y)
                mod modulus system)%Z in
  ∃ system' e' m,
    reduce system e = Some (system', e')
    ∧ terms_on k (LinExp e') = [m]
    ∧ term_key m = k
    ∧ cs.Coeffs (st system') !! CoeffID m = Some sum
    ∧ (sum = 0%Z → m ∈ LinExp e' ∧ coeff_value (st system') m = 0%Z).
Proof.
  intros Hk Hxy sum. unfold reduce.
  destruct (reduce_input_sorted (LinExp e)) as [Hs Hp].
  assert (terms_on k (if IsSorted (LinExp e) then LinExp e else sort_Sort (LinExp e))
          ≡ₚ [x; y]) as Hxy'.
  { unfold terms_on in *. by rewrite Hp. }
  assert (coeffs_known (st system)
            (if IsSorted (LinExp e) then LinExp e else sort_Sort (LinExp e))) as Hk'.
  { unfold coeffs_known. by rewrite Hp. }
  destruct (if IsSorted (LinExp e) then LinExp e else sort_Sort (LinExp e))
    as [| t rest] eqn:Hle.
  { apply Permutation_length in Hxy'. done. }
  destruct (reduce_loop_spec (modulus system) rest (st system) t Hs Hk')
    as (t' & first & out & Hrun & Hpre & Hko & _ & _ & Hon).
  rewrite Hrun. cbn [mbind option_bind].
  specialize (Hon k).
  assert (∃ m, terms_on k (first :: out) = [m] ∧ coeff_value t' m = sum)
    as (m & Hm & Hv).
  { apply Permutation_pair in Hxy' as [Hxy' | Hxy']; rewrite Hxy' in Hon;
      destruct Hon as (m & Hm & Hv); exists m; (split; [done |]);
      rewrite Hv; unfold sum_mod, sum, modulus; cbn; [done |].
    f_equal. lia. }
  assert (m ∈ first :: out ∧ term_key m = k) as [Hin Hkey].
  { assert (m ∈ terms_on k (first :: out)) as Hin by (rewrite Hm; by left).
    unfold terms_on in Hin. apply list_elem_of_filter in Hin. tauto. }
  exists (set_st system t'), (mkVariable (first :: out)), m.
  cbn [LinExp st set_st].
  assert (cs.Coeffs t' !! CoeffID m = Some sum) as Hlk.
  { unfold coeffs_known in Hko. rewrite Forall_forall in Hko.
    destruct (lookup_lt_is_Some_2 _ _ (Hko m Hin)) as [v Hl].
    unfold coeff_value in Hv. rewrite Hl in Hv. cbn in Hv. by rewrite Hl, Hv. }
  split; [done |]. split; [done |]. split; [done |]. split; [done |].
  intros Hz. split; [done |]. unfold coeff_value. by rewrite Hlk.
Qed.

End ReduceTheorems.

Example reduce_pair_to_zero :
  reduce pair_system pair_expression
  = Some (pair_system,
          mkVariable [Pack 0 1 schema.Secret; Pack 5 0 Internal]).
Proof. vm_compute. reflexivity. Qed.

Lemma reduce_merges_two_terms_witness :
  ∃ system' e' m,
    reduce pair_system pair_expression = Some (system', e')
    ∧ terms_on (Internal, 5) (LinExp e') = [m]
    ∧ term_key m = (Internal, 5)
    ∧ cs.Coeffs (st system') !! CoeffID m = Some 0%Z
    ∧ (0%Z = 0%Z → m ∈ LinExp e' ∧ coeff_value (st system') m = 0%Z).
Proof.
  refine (reduce_merges_two_terms pair_system pair_expression (Internal, 5)
            (Pack 5 2 Internal) (Pack 5 3 Internal) _ _).
  - repeat constructor.
  - vm_compute. reflexivity.
Defined.

Lemma reduce_idempotent_witness :
  ∃ system' e',
    reduce pair_system pair_expression = Some (system', e')
    ∧ reduce system' e' = Some (system', e').
Proof.
  destruct (reduce_idempotent pair_system pair_expression) as [Hret Hid].
  destruct Hret as (system' & e' & Hrun); [repeat constructor |].
  exists system', e'. split; [exact Hrun |]. exact (proj1 (Hid _ _ Hrun)).
Defined.

(** ** Boolean facts *)

Section BooleanProofs.
Context `{Env}.

Lemma sorted_terms_IsSorted (l : LinearExpression) :
  IsSorted (sorted_terms l) = true.
Proof.
  unfold sorted_terms. destruct (IsSorted l) eqn:Hs; [done | apply sort_Sort_IsSorted].
Qed.

Lemma sorted_terms_idem (l : LinearExpression) :
  sorted_terms (sorted_terms l) = sorted_terms l.
Proof. unfold sorted_terms at 1. by rewrite sorted_terms_IsSorted. Qed.

Lemma sorted_terms_Permutation (l : LinearExpression) : sorted_terms l ≡ₚ l.
Proof.
  unfold sorted_terms. destruct (IsSorted l); [done | apply sort_Sort_Permutation].
Qed.

Lemma ConstantValue_set_mtBooleans (system : compiler)
    (m : gmap N (list LinearExpression)) (v : iface) :
  ConstantValue (set_mtBooleans system m) v = ConstantValue system v.
Proof. reflexivity. Qed.

(** Sorting the terms in place does not turn a variable into a constant. *)
Lemma ConstantValue_sorted_terms (system : compiler) (v : CVariable) :
  ConstantValue system (VariableV v) = Some None →
  ConstantValue system (VariableV (mkVariable (sorted_terms (LinExp v)))) = Some None.
Proof.
  destruct v as [l]. cbn [LinExp]. unfold sorted_terms.
  destruct (IsSorted l) eqn:Hs; [done |].
  cbn [ConstantValue LinExp].
  destruct (IsSet (mkVariable l)) eqn:Hset; [| done]. cbn [negb].
  pose proof (IsSet_sort_Sort (mkVariable l) Hset) as Hset'. cbn [LinExp] in Hset'.
  rewrite Hset'.
  rewrite (Permutation_length (sort_Sort_Permutation l)). cbn [negb].
  destruct l as [| a [| b l]]; try done.
Qed.

Lemma existsb_Equal (l : LinearExpression) (list : list LinearExpression) :
  existsb (λ marked, Equal marked l) list = true ↔ l ∈ list.
Proof.
  rewrite existsb_exists. unfold Equal. split.
  - intros (x & Hx & He). apply bool_decide_eq_true in He. subst.
    by apply list_elem_of_In.
  - intros Hin. exists l. split; [by apply list_elem_of_In | by apply bool_decide_eq_true].
Qed.

(** What [IsBoolean] returns on a variable that is not a constant. *)
Lemma IsBoolean_not_constant (system : compiler) (e : CVariable) :
  ConstantValue system (VariableV e) = Some None →
  IsBoolean system (VariableV e)
  = Some (match mtBooleans system !! HashCode (sorted_terms (LinExp e)) with
          | None => false
          | Some list =>
              existsb (λ marked, Equal marked (sorted_terms (LinExp e))) list
          end).
Proof.
  intros Hc. unfold IsBoolean. rewrite Hc. cbn [mbind option_bind assert_Variable].
  by destruct (mtBooleans system !! _).
Qed.

(** C8, as amended: after [MarkBoolean(v)] on a variable that is not a
    constant, [IsBoolean(v)] returns true, whether [v] is read as it was or
    as the in-place sort left it; on an expression that is not a constant,
    [IsBoolean] returns true exactly when an expression of the bucket of its
    hash code equals its sorted terms, and false when the bucket holds only
    other expressions; on a constant, [IsBoolean] returns true exactly when
    the value is 0 or 1, whatever was marked. *)
Theorem boolean_memoization (system : compiler) :
  (∀ v, ConstantValue system (VariableV v) = Some None →
     ∃ system',
       MarkBoolean system (VariableV v) = Some system'
       ∧ IsBoolean system' (VariableV v) = Some true
       ∧ IsBoolean system'
           (VariableV (mkVariable (sorted_terms (LinExp v)))) = Some true)
  ∧ (∀ e, ConstantValue system (VariableV e) = Some None →
       (IsBoolean system (VariableV e) = Some true ↔
          ∃ list,
            mtBooleans system !! HashCode (sorted_terms (LinExp e)) = Some list
            ∧ sorted_terms (LinExp e) ∈ list)
       ∧ (∀ list,
            mtBooleans system !! HashCode (sorted_terms (LinExp e)) = Some list →
            sorted_terms (LinExp e) ∉ list →
            IsBoolean system (VariableV e) = Some false))
  ∧ (∀ e b, ConstantValue system e = Some (Some b) →
       IsBoolean system e = Some (bool_decide (b = 0 ∨ b = 1)%Z)).
Proof.
  split; [| split].
  - intros v Hc. unfold MarkBoolean. rewrite Hc.
    cbn [mbind option_bind assert_Variable].
    eexists. split; [reflexivity |].
    set (l := sorted_terms (LinExp v)).
    set (system' := set_mtBooleans _ _).
    assert (mtBooleans system' !! HashCode l
            = Some (default [] (mtBooleans system !! HashCode l) ++ [l])) as Hb.
    { subst system'. cbn. by rewrite lookup_insert_eq. }
    split.
    + rewrite IsBoolean_not_constant by done. fold l. rewrite Hb. f_equal.
      apply existsb_Equal. apply elem_of_app. right. by left.
    + rewrite IsBoolean_not_constant by (by apply ConstantValue_sorted_terms).
      cbn [LinExp]. fold l. subst l. rewrite sorted_terms_idem. rewrite Hb. f_equal.
      apply existsb_Equal. apply elem_of_app. right. by left.
  - intros e Hc. rewrite IsBoolean_not_constant by done. split.
    + destruct (mtBooleans system !! _) as [list |].
      * split.
        -- intros [= He]. exists list. split; [done | by apply existsb_Equal].
        -- intros (list' & [= <-] & Hin). f_equal. by apply existsb_Equal.
      * split; [done | by intros (? & ? & _)].
    + intros list -> Hnin. f_equal. apply not_true_iff_false.
      by rewrite existsb_Equal.
  - intros e b Hc. unfold IsBoolean. rewrite Hc. cbn [mbind option_bind].
    f_equal. unfold IsUint64, Uint64.
    destruct (bool_decide (b = 0 ∨ b = 1)%Z) eqn:Hd.
    + apply bool_decide_eq_true in Hd. destruct Hd as [-> | ->]; reflexivity.
    + apply bool_decide_eq_false in Hd.
      destruct (0 <=? b)%Z eqn:H0; [| done].
      destruct (b <? 2 ^ 64)%Z eqn:H1; [| done]. cbn.
      apply Z.leb_le in H0. apply Z.ltb_lt in H1.
      rewrite Z.mod_small by lia. apply Z.leb_gt. lia.
Qed.

End BooleanProofs.

Example IsBoolean_after_mark :
  IsBoolean marked_system (VariableV (mkVariable [Pack 5 1 Internal])) = Some true.
Proof. vm_compute. reflexivity. Qed.

Example IsBoolean_same_bucket_other_terms :
  HashCode [Pack 6 1 Internal] = HashCode [Pack 5 1 Internal]
  ∧ IsBoolean marked_system (VariableV (mkVariable [Pack 6 1 Internal])) = Some false.
Proof. vm_compute. split; reflexivity. Qed.

(** C8 as stated fails on constants: in a compiler where nothing was marked,
    [IsBoolean] returns true on the constant one. *)
Lemma IsBoolean_constant_unmarked :
  ¬ (∀ (system : compiler) (e : CVariable),
       IsBoolean system (VariableV e) = Some true →
       ∃ list,
         mtBooleans system !! HashCode (sorted_terms (LinExp e)) = Some list
         ∧ sorted_terms (LinExp e) ∈ list).
Proof.
  intros Hclaim.
  destruct (Hclaim fresh_system one) as (list & Hb & _).
  - vm_compute. reflexivity.
  - vm_compute in Hb. discriminate.
Qed.

Lemma boolean_memoization_witness :
  ∃ system',
    MarkBoolean fresh_system (VariableV (mkVariable [Pack 5 1 Internal]))
    = Some system'
    ∧ IsBoolean system' (VariableV (mkVariable [Pack 5 1 Internal])) = Some true.
Proof.
  destruct (proj1 (boolean_memoization fresh_system)
              (mkVariable [Pack 5 1 Internal])) as (system' & Hm & Hb & _).
  - vm_compute. reflexivity.
  - exists system'. split; [exact Hm | exact Hb].
Defined.

(** ** Hints *)

Lemma allocated_S (n : nat) (system : compiler) :
  allocated n (fst (newInternalVariable system)) = allocated (S n) system.
Proof.
  destruct system as [c ? ? ? ?]. destruct c. unfold allocated. cbn.
  do 2 f_equal. lia.
Qed.

Lemma allocated_0 (system : compiler) : allocated 0 system = system.
Proof.
  destruct system as [c ? ? ? ?]. destruct c. unfold allocated. cbn.
  by rewrite Nat.add_0_r.
Qed.

Lemma newHint_wires_spec (n : nat) :
  ∀ system,
  newHint_wires n system
  = Some (allocated n system,
          seq (NbInternalVariables (ConstraintSystem system)) n,
          internal_variable <$> seq (NbInternalVariables (ConstraintSystem system)) n).
Proof.
  induction n as [| n IH]; intros system.
  - cbn. by rewrite allocated_0.
  - cbn [newHint_wires newInternalVariable LinExp]. cbn [lookup list_lookup mbind option_bind Unpack Pack WireID].
    rewrite IH. cbn [mbind option_bind].
    rewrite <- allocated_S. cbn [newInternalVariable fst].
    cbn. by rewrite Nat.add_1_r.
Qed.

Lemma register_hint_lookup (ch : Hint) (varIDs : list nat) :
  ∀ (m : gmap nat Hint) (w : nat),
  register_hint ch varIDs m !! w
  = if decide (w ∈ varIDs) then Some ch else m !! w.
Proof.
  unfold register_hint.
  induction varIDs as [| v varIDs IH]; intros m w; cbn.
  - destruct (decide _) as [Hin | _]; [by apply elem_of_nil in Hin | done].
  - rewrite IH.
    destruct (decide (w ∈ varIDs)) as [Hin | Hnin].
    + rewrite decide_True by (by right). done.
    + destruct (decide (w = v)) as [-> | Hne].
      * rewrite decide_True by (by left). by rewrite lookup_insert_eq.
      * rewrite decide_False by (rewrite elem_of_cons; tauto).
        by rewrite lookup_insert_ne.
Qed.

Lemma hint_input_cases (in_ out : iface) :
  hint_input in_ = Some out →
  (∃ v, in_ = VariableV v ∧ out = LinExpV (LinExp v))
  ∨ (∃ l, in_ = LinExpV l ∧ out = LinExpV l)
  ∨ (∃ z, in_ = BigV z ∧ out = BigV z).
Proof.
  destruct in_ as [v | l | t | z]; cbn; intros [= <-].
  - left. exists v. by rewrite LinearExpression_Clone_eq.
  - right. left. exists l. by rewrite LinearExpression_Clone_eq.
  - right. right. by exists z.
Qed.

Lemma hint_input_conversion (x y : iface) :
  hint_input x = Some y → hint_conversion x y.
Proof.
  intros Hc. destruct (hint_input_cases x y Hc)
    as [(v & -> & ->) | [(l & -> & ->) | (z & -> & ->)]]; done.
Qed.

Lemma hint_input_panics (inputs : list iface) :
  mapM hint_input inputs = None ↔ ∃ t, TermV t ∈ inputs.
Proof.
  induction inputs as [| x inputs IH]; cbn [mapM].
  - split; [done |]. intros [t Ht]. by apply elem_of_nil in Ht.
  - destruct x as [v | l | t | z]; cbn [hint_input utils.FromInterface mbind option_bind].
    + destruct (mapM hint_input inputs) as [ys |]; cbn.
      * split; [done |]. intros [t Ht]. apply elem_of_cons in Ht as [? | Ht]; [done |].
        by pose proof (proj2 IH (ex_intro _ t Ht)).
      * split; [| done]. intros _. destruct (proj1 IH eq_refl) as [t Ht].
        exists t. by right.
    + destruct (mapM hint_input inputs) as [ys |]; cbn.
      * split; [done |]. intros [t Ht]. apply elem_of_cons in Ht as [? | Ht]; [done |].
        by pose proof (proj2 IH (ex_intro _ t Ht)).
      * split; [| done]. intros _. destruct (proj1 IH eq_refl) as [t Ht].
        exists t. by right.
    + split; [| done]. intros _. exists t. by left.
    + destruct (mapM hint_input inputs) as [ys |]; cbn.
      * split; [done |]. intros [t Ht]. apply elem_of_cons in Ht as [? | Ht]; [done |].
        by pose proof (proj2 IH (ex_intro _ t Ht)).
      * split; [| done]. intros _. destruct (proj1 IH eq_refl) as [t Ht].
        exists t. by right.
Qed.

(** C7: [NewHint] returns an error, and no variable, exactly when the
    number of outputs asked for is zero or negative.  Otherwise, when no
    input is a bare term, it returns as many variables as asked for, one
    term each, on the internal wires that follow the last one allocated, in
    order and without repetition; every input is converted: a variable and a
    linear expression to a linear expression with the same terms, a
    constant to its [big.Int]; and one hint record, with the function, these
    converted inputs and these wires, is bound in the hint map to each of the
    output wires, the rest of the map and the constraints being unchanged.
    With an output count above 0 and a bare term among the inputs the call
    panics. *)
Theorem NewHint_outputs (system : compiler) (f : N) (nbOutputs : Z)
    (inputs : list iface) :
  let base := NbInternalVariables (ConstraintSystem system) in
  let n := Z.to_nat nbOutputs in
  ((nbOutputs ≤ 0)%Z →
     ∃ msg, NewHint system f nbOutputs inputs = Some (system, [], Some msg))
  ∧ (∀ system' res msg,
       NewHint system f nbOutputs inputs = Some (system', res, Some msg) →
       (nbOutputs ≤ 0)%Z)
  ∧ ((0 < nbOutputs)%Z → (∀ t, TermV t ∉ inputs) →
     ∃ system' res hintInputs,
       NewHint system f nbOutputs inputs = Some (system', res, None)
       ∧ res = internal_variable <$> seq base n
       ∧ Z.of_nat (length res) = nbOutputs
       ∧ NoDup (seq base n)
       ∧ NbInternalVariables (ConstraintSystem system') = base + n
       ∧ Forall2 hint_conversion inputs hintInputs
       ∧ (∀ w, base ≤ w < base + n →
            MHints (ConstraintSystem system') !! w
            = Some (mkHint f hintInputs (seq base n)))
       ∧ (∀ w, ¬ (base ≤ w < base + n) →
            MHints (ConstraintSystem system') !! w
            = MHints (ConstraintSystem system) !! w)
       ∧ Constraints system' = Constraints system)
  ∧ ((0 < nbOutputs)%Z → (∃ t, TermV t ∈ inputs) →
     NewHint system f nbOutputs inputs = None).
Proof.
  intros base n. unfold NewHint. split; [| split; [| split]].
  - intros Hle. apply Z.leb_le in Hle. rewrite Hle. eauto.
  - intros system' res msg.
    destruct (nbOutputs <=? 0)%Z eqn:Hle; [intros _; by apply Z.leb_le |].
    destruct (mapM hint_input inputs) as [hintInputs |]; [| done].
    cbn [mbind option_bind]. rewrite newHint_wires_spec. cbn [mbind option_bind].
    done.
  - intros Hpos Hok.
    destruct (nbOutputs <=? 0)%Z eqn:Hle; [apply Z.leb_le in Hle; lia |].
    destruct (mapM hint_input inputs) as [hintInputs |] eqn:Hin.
    2: { apply hint_input_panics in Hin as [t Ht]. by destruct (Hok t). }
    cbn [mbind option_bind]. rewrite newHint_wires_spec. cbn [mbind option_bind].
    fold base. fold n.
    eexists _, _, hintInputs. split; [reflexivity |].
    split; [done |].
    split; [rewrite length_fmap, length_seq; subst n; lia |].
    split; [apply NoDup_seq |].
    split; [done |].
    split.
    { apply mapM_Some in Hin. eapply Forall2_impl; [exact Hin |].
      apply hint_input_conversion. }
    split; [| split; [| done]].
    + intros w Hw. cbn. rewrite register_hint_lookup.
      rewrite decide_True; [done |]. apply elem_of_seq. lia.
    + intros w Hw. cbn. rewrite register_hint_lookup.
      rewrite decide_False; [done |]. rewrite elem_of_seq. lia.
  - intros Hpos Hterm.
    destruct (nbOutputs <=? 0)%Z eqn:Hle; [apply Z.leb_le in Hle; lia |].
    by rewrite (proj2 (hint_input_panics inputs) Hterm).
Qed.

Example NewHint_three_outputs :
  NewHint fresh_system 7 3 [VariableV one; BigV 5]
  = Some (set_ConstraintSystem (allocated 3 fresh_system)
            (set_MHints (ConstraintSystem (allocated 3 fresh_system))
               (let ch := mkHint 7 [LinExpV (LinExp one); BigV 5] [0; 1; 2] in
                <[2 := ch]> (<[1 := ch]> (<[0 := ch]> ∅)))),
          [internal_variable 0; internal_variable 1; internal_variable 2],
          None).
Proof. vm_compute. reflexivity. Qed.

Lemma NewHint_outputs_witness :
  ∃ system' res,
    NewHint fresh_system 7 3 [VariableV one; BigV 5] = Some (system', res, None)
    ∧ res = internal_variable <$> seq 0 3
    ∧ MHints (ConstraintSystem system') !! 2
      = Some (mkHint 7 [LinExpV (LinExp one); BigV 5] (seq 0 3)).
Proof.
  destruct (proj1 (proj2 (proj2
              (NewHint_outputs fresh_system 7 3 [VariableV one; BigV 5]))))
    as (system' & res & hintInputs & Hrun & Hres & _ & _ & _ & Hconv & Hm & _).
  - lia.
  - intros t Ht. repeat (apply elem_of_cons in Ht as [? | Ht]; [done |]).
    by apply elem_of_nil in Ht.
  - exists system', res. split; [exact Hrun |]. split; [exact Hres |].
    apply Forall2_cons_inv_l in Hconv as (y1 & k1 & H1 & Hconv & ->).
    apply Forall2_cons_inv_l in Hconv as (y2 & k2 & H2 & Hconv & ->).
    apply Forall2_nil_inv_l in Hconv as ->.
    cbn in H1, H2. subst y1 y2. apply Hm. cbn. lia.
Defined.

(** ** The check of the inputs *)

Example checkVariables_fresh : checkVariables fresh_system = Some (Some "").
Proof. vm_compute. reflexivity. Qed.

(** C2, at the input where the code departs from it: a compiler just
    created has no secret input, no public input but the wire one, no hint
    and no constraint, so nothing is unconstrained; the check of the inputs is on;
    yet [checkVariables] returns an error, with an empty message, and
    [Compile] returns it with no constraint system.  The test that the
    counters are 0 stands inside the loop over the constraints, which does
    not run. *)
Theorem Compile_fails_on_empty_circuit (fuel : nat) :
  Secret (ConstraintSystem fresh_system) = []
  ∧ Public (ConstraintSystem fresh_system) = ["one"]
  ∧ MHints (ConstraintSystem fresh_system) = ∅
  ∧ Constraints fresh_system = []
  ∧ inputs_constrained fresh_system
  ∧ frontend.IgnoreUnconstrainedInputs (config fresh_system) = false
  ∧ visit_order fresh_system []
  ∧ checkVariables fresh_system = Some (Some "")
  ∧ Compile fuel [] fresh_system = Some (None, Some "").
Proof.
  split; [reflexivity |]. split; [reflexivity |]. split; [reflexivity |].
  split; [reflexivity |]. split.
  { unfold inputs_constrained, all_constrained. cbn.
    split; [intros i Hi; lia |]. split; [intros i Hi; lia |].
    intros w [h Hh]. by rewrite lookup_empty in Hh. }
  split; [reflexivity |]. split; [| split; reflexivity].
  unfold visit_order. cbn. by rewrite map_to_list_empty.
Qed.

(** ** Compile *)

Section HintLoop.

Variables (p s : nat) (m : gmap nat Hint).
Hypothesis Hwf : hints_wf m.

Lemma insert_wires_lookup (ch : Hint) (ws : list nat) :
  ∀ (acc : gmap nat Hint) (k : nat),
  foldl (λ m vID, <[vID := ch]> m) acc ws !! k
  = if decide (k ∈ ws) then Some ch else acc !! k.
Proof. apply register_hint_lookup. Qed.

Lemma shifted_wire_elem (h : Hint) (k : nat) :
  k ∈ Wires (offset_hint p s h) ↔ p + s ≤ k ∧ (k - (p + s)) ∈ Wires h.
Proof.
  cbn. rewrite list_elem_of_fmap. split.
  - intros (w & -> & Hw). cbn. split; [lia |].
    replace (w + p + s - (p + s)) with w by lia. done.
  - intros [Hle Hw]. exists (k - (p + s)). split; [cbn; lia | done].
Qed.

Lemma hint_step_partial (acc : gmap nat Hint) (seen : list Hint) (w : nat) (h : Hint) :
  m !! w = Some h →
  (∀ k, acc !! k = partial_hints p s m seen k) →
  ∀ k, hint_step p s acc h !! k = partial_hints p s m (seen ++ [h]) k.
Proof.
  intros Hm Hacc k. destruct (Hwf w h Hm) as [Hw Hall].
  unfold hint_step.
  destruct (Wires (offset_hint p s h)) as [| w0 ws] eqn:Hws.
  { cbn in Hws. apply fmap_nil_inv in Hws. rewrite Hws in Hw. by apply elem_of_nil in Hw. }
  assert (w0 ∈ Wires (offset_hint p s h)) as Hw0 by (rewrite Hws; by left).
  apply shifted_wire_elem in Hw0 as [Hle0 Hw0].
  assert (acc !! w0 = if decide (h ∈ seen) then Some (offset_hint p s h) else None) as Hacc0.
  { rewrite Hacc. unfold partial_hints. rewrite decide_True by done.
    rewrite (Hall _ Hw0). done. }
  destruct (decide (h ∈ seen)) as [Hseen | Hnew].
  - rewrite bool_decide_eq_true_2 by (rewrite Hacc0; eauto).
    rewrite Hacc. unfold partial_hints.
    destruct (decide (p + s ≤ k)); [| done].
    destruct (m !! (k - (p + s))) as [h' |]; [| done]. cbn.
    destruct (decide (h' ∈ seen)) as [Hin | Hnin].
    + rewrite decide_True by (apply elem_of_app; by left). done.
    + rewrite decide_False; [done |]. rewrite elem_of_app, list_elem_of_singleton.
      intros [? | ->]; done.
  - rewrite bool_decide_eq_false_2 by (rewrite Hacc0; by intros [? ?]).
    rewrite <- Hws. rewrite insert_wires_lookup.
    unfold partial_hints.
    destruct (decide (k ∈ Wires (offset_hint p s h))) as [Hk | Hk].
    + apply shifted_wire_elem in Hk as [Hle Hk].
      rewrite decide_True by done. rewrite (Hall _ Hk). cbn.
      rewrite decide_True by (apply elem_of_app; right; by left). done.
    + rewrite Hacc. unfold partial_hints.
      destruct (decide (p + s ≤ k)) as [Hle |]; [| done].
      destruct (m !! (k - (p + s))) as [h' |] eqn:Hh'; [| done]. cbn.
      assert (h' ≠ h) as Hne.
      { intros ->. apply Hk. apply shifted_wire_elem. split; [done |].
        by destruct (Hwf _ _ Hh'). }
      destruct (decide (h' ∈ seen)) as [Hin | Hnin].
      * rewrite decide_True by (apply elem_of_app; by left). done.
      * rewrite decide_False; [done |]. rewrite elem_of_app, list_elem_of_singleton.
        intros [? | ?]; done.
Qed.

Lemma hint_fold_partial (es : list (nat * Hint)) :
  ∀ (acc : gmap nat Hint) (seen : list Hint),
  (∀ e, e ∈ es → m !! e.1 = Some e.2) →
  (∀ k, acc !! k = partial_hints p s m seen k) →
  ∀ k, foldl (λ shiftedMap e, hint_step p s shiftedMap e.2) acc es !! k
       = partial_hints p s m (seen ++ es.*2) k.
Proof.
  induction es as [| [w h] es IH]; intros acc seen Hes Hacc k; cbn.
  - by rewrite app_nil_r.
  - rewrite (IH (hint_step p s acc h) (seen ++ [h])).
    + by rewrite <- app_assoc.
    + intros e He. apply Hes. by right.
    + apply hint_step_partial with w; [| done]. apply (Hes (w, h)). by left.
Qed.

Lemma hint_loop_lookup (order : list (nat * Hint)) :
  order ≡ₚ map_to_list m →
  ∀ k, hint_loop p s order !! k = shifted_hints p s m k.
Proof.
  intros Hperm k. unfold hint_loop.
  rewrite (hint_fold_partial order ∅ []).
  - cbn. unfold partial_hints, shifted_hints.
    destruct (decide (p + s ≤ k)); [| done].
    destruct (m !! (k - (p + s))) as [h |] eqn:Hh; [| done]. cbn.
    rewrite decide_True; [done |].
    apply list_elem_of_fmap. exists (k - (p + s), h). split; [done |].
    rewrite Hperm. by apply elem_of_map_to_list.
  - intros [w h] He. rewrite Hperm in He. by apply elem_of_map_to_list in He.
  - intros k'. rewrite lookup_empty. unfold partial_hints.
    destruct (decide _); [| done]. by destruct (m !! _).
Qed.

(** The order of the visit does not show in the map. *)
Lemma hint_loop_order (order1 order2 : list (nat * Hint)) :
  order1 ≡ₚ map_to_list m → order2 ≡ₚ map_to_list m →
  hint_loop p s order1 = hint_loop p s order2.
Proof.
  intros H1 H2. apply map_eq. intros k. by rewrite !hint_loop_lookup.
Qed.

End HintLoop.

Lemma NewHint_MHints (system system' : compiler) (f : N) (nbOutputs : Z)
    (inputs : list iface) (res : list iface) (err : error) :
  NewHint system f nbOutputs inputs = Some (system', res, err) →
  system' = system
  ∨ ∃ hintInputs n,
      0 < n
      ∧ NbInternalVariables (ConstraintSystem system')
        = NbInternalVariables (ConstraintSystem system) + n
      ∧ MHints (ConstraintSystem system')
        = register_hint
            (mkHint f hintInputs (seq (NbInternalVariables (ConstraintSystem system)) n))
            (seq (NbInternalVariables (ConstraintSystem system)) n)
            (MHints (ConstraintSystem system)).
Proof.
  unfold NewHint. destruct (nbOutputs <=? 0)%Z eqn:Hle.
  - intros [= <- _ _]. by left.
  - destruct (mapM hint_input inputs) as [hintInputs |]; [| done].
    cbn [mbind option_bind]. rewrite newHint_wires_spec. cbn [mbind option_bind].
    intros [= <- _ _]. right. exists hintInputs, (Z.to_nat nbOutputs).
    apply Z.leb_gt in Hle. split; [lia |]. split; reflexivity.
Qed.

Lemma hints_inv_NewHint (system system' : compiler) (f : N) (nbOutputs : Z)
    (inputs : list iface) (res : list iface) (err : error) :
  hints_inv system →
  NewHint system f nbOutputs inputs = Some (system', res, err) →
  hints_inv system'.
Proof.
  intros [Hwf Hlt] Hrun.
  apply NewHint_MHints in Hrun as [-> | (hi & n & Hn & Hnb & Hm)]; [done |].
  set (base := NbInternalVariables (ConstraintSystem system)) in *.
  set (ch := mkHint f hi (seq base n)) in *.
  assert (∀ w, MHints (ConstraintSystem system') !! w
               = if decide (w ∈ seq base n) then Some ch
                 else MHints (ConstraintSystem system) !! w) as Hlook.
  { intros w. rewrite Hm. apply register_hint_lookup. }
  assert (∀ w h, MHints (ConstraintSystem system) !! w = Some h →
                 ∀ w', w' ∈ Wires h → w' ∉ seq base n) as Hold.
  { intros w h Hw w' Hw'. rewrite elem_of_seq. specialize (Hlt w h Hw w' Hw'). lia. }
  split.
  - intros w h. rewrite Hlook. destruct (decide (w ∈ seq base n)) as [Hin | Hnin].
    + intros [= <-]. split; [done |]. intros w' Hw'. rewrite Hlook.
      by rewrite decide_True.
    + intros Hw. destruct (Hwf w h Hw) as [Hwh Hall]. split; [done |].
      intros w' Hw'. rewrite Hlook. rewrite decide_False by eauto. by apply Hall.
  - intros w h. rewrite Hlook, Hnb. destruct (decide (w ∈ seq base n)) as [Hin | Hnin].
    + intros [= <-] w' Hw'. cbn in Hw'. apply elem_of_seq in Hw'. lia.
    + intros Hw w' Hw'. specialize (Hlt w h Hw w' Hw'). lia.
Qed.

Section CallsProofs.

Context `{Env}.

Lemma hints_inv_run_call (system system' : compiler) (c : call) :
  hints_inv system → run_call system c = Some system' → hints_inv system'.
Proof.
  intros Hinv. destruct c; cbn [run_call].
  - unfold AddPublicVariable. destruct (Schema _); [done |]. by intros [= <-].
  - unfold AddSecretVariable. destruct (Schema _); [done |]. by intros [= <-].
  - intros [= <-]. destruct Hinv as [Hwf Hlt]. split; [done |].
    intros w h Hw w' Hw'. cbn. specialize (Hlt w h Hw w' Hw'). lia.
  - destruct (reduce system l) as [[s v] |] eqn:Hr; [| done]. intros [= <-].
    unfold reduce in Hr.
    destruct (if IsSorted (LinExp l) then LinExp l else sort_Sort (LinExp l)).
    + by injection Hr as <- _.
    + destruct (reduce_loop _ _ _ _) as [[t' out] |]; [| done].
      by injection Hr as <- _.
  - destruct (newR1C l r o) as [r1c |]; [| done]. intros [= <-].
    by destruct debugID.
  - unfold MarkBoolean. destruct (ConstantValue system v) as [[b |] |]; [| | done].
    + cbn. destruct (negb _); [done |]. by intros [= <-].
    + cbn. destruct (assert_Variable v); [| done]. by intros [= <-].
  - destruct (NewHint system f nbOutputs inputs) as [[[s res] err] |] eqn:Hr; [| done].
    intros [= <-]. by apply hints_inv_NewHint in Hr.
  - unfold SetSchema. destruct (Schema _); [done |]. by intros [= <-].
Qed.

Lemma hints_inv_run_calls (calls : list call) :
  ∀ system system',
  hints_inv system → run_calls system calls = Some system' → hints_inv system'.
Proof.
  induction calls as [| c calls IH]; intros system system' Hinv; cbn.
  - by intros [= <-].
  - destruct (run_call system c) as [s |] eqn:Hc; [| done]. cbn.
    apply IH. by apply hints_inv_run_call in Hc.
Qed.

Lemma hints_inv_newCompiler (curveID : ecc.ID) (config : frontend.CompileConfig) :
  hints_inv (newCompiler curveID config).
Proof. split; intros w h Hw; cbn in Hw; by rewrite lookup_empty in Hw. Qed.

Lemma offset_system_order (cs : compiler) (order1 order2 : list (nat * Hint)) :
  hints_wf (MHints (ConstraintSystem cs)) →
  visit_order cs order1 → visit_order cs order2 →
  offset_system order1 cs = offset_system order2 cs.
Proof.
  intros Hwf H1 H2. unfold offset_system.
  by rewrite (hint_loop_order _ _ _ Hwf order1 order2).
Qed.

(** C9: for the compiler reached by a sequence of calls of the builder,
    two runs of [Compile] that visit the hint map in two orders return the
    same result: the same error, or the same constraint system, with the
    same constraints, the same hint map (the same record at every key) and
    the same levels. *)
Theorem Compile_deterministic (curveID : ecc.ID) (config : frontend.CompileConfig)
    (calls : list call) (cs : compiler) (fuel : nat)
    (order1 order2 : list (nat * Hint)) :
  run_calls (newCompiler curveID config) calls = Some cs →
  visit_order cs order1 → visit_order cs order2 →
  Compile fuel order1 cs = Compile fuel order2 cs
  ∧ R1CS_Constraints (offset_system order1 cs)
    = R1CS_Constraints (offset_system order2 cs)
  ∧ MHints (R1CS_ConstraintSystem (offset_system order1 cs))
    = MHints (R1CS_ConstraintSystem (offset_system order2 cs))
  ∧ buildLevels fuel (offset_system order1 cs)
    = buildLevels fuel (offset_system order2 cs).
Proof.
  intros Hrun H1 H2.
  assert (hints_inv cs) as [Hwf _].
  { eapply hints_inv_run_calls; [apply hints_inv_newCompiler | exact Hrun]. }
  unfold Compile. by rewrite (offset_system_order cs order1 order2).
Qed.

End CallsProofs.

Lemma offset_term_shifted (p s : nat) (t : Term) :
  offset_term p s t = shifted p s t.
Proof. destruct t as [c w []]; reflexivity. Qed.

Lemma offsetIDs_shifted (p s : nat) (l : LinearExpression) :
  offsetIDs p s l = shifted p s <$> l.
Proof. unfold offsetIDs. apply list_fmap_ext. intros _ t _. apply offset_term_shifted. Qed.

Lemma offset_R1C_shifted (p s : nat) (c : R1C) :
  offset_R1C p s c = shifted_R1C p s c.
Proof. unfold offset_R1C, shifted_R1C. by rewrite !offsetIDs_shifted. Qed.

Lemma offset_input_shifted (p s : nat) (i : iface) :
  offset_input p s i = shifted_input p s i.
Proof.
  destruct i; cbn; try done; by rewrite LinearExpression_Clone_eq, offsetIDs_shifted.
Qed.

Lemma offset_hint_shifted (p s : nat) (h : Hint) :
  offset_hint p s h = shifted_hint p s h.
Proof.
  unfold offset_hint, shifted_hint. f_equal.
  all: apply list_fmap_ext; intros _ i _; apply offset_input_shifted.
Qed.

Lemma offset_LogEntry_shifted (p s : nat) (e : LogEntry) :
  offset_LogEntry p s e = shifted_LogEntry p s e.
Proof.
  unfold offset_LogEntry, shifted_LogEntry. f_equal.
  all: apply list_fmap_ext; intros _ t _; apply offset_term_shifted.
Qed.

Lemma Compile_success (fuel : nat) (order : list (nat * Hint)) (cs : compiler)
    (ccs : CompiledConstraintSystem) :
  Compile fuel order cs = Some (Some ccs, None) →
  ∃ levels,
    buildLevels fuel (offset_system order cs) = Some levels
    ∧ compiled_R1CS ccs
      = mkR1CS (set_Levels (R1CS_ConstraintSystem (offset_system order cs)) levels)
               (R1CS_Constraints (offset_system order cs)).
Proof.
  unfold Compile.
  destruct (if negb _ then _ else _) as [[msg |] |]; [done | | done].
  cbn [mbind option_bind].
  destruct (buildLevels fuel (offset_system order cs)) as [levels |]; [| done].
  cbn [mbind option_bind]. intros Hc. exists levels. split; [done |].
  destruct (CurveID (ConstraintSystem cs)); [done | ..]; by injection Hc as <-.
Qed.

(** Without a condition on the hint map: what the loop over the hints
    stores is a hint of the visit, offset, at one of its output wires. *)
Lemma hint_step_values (P : nat → Hint → Prop) (p s : nat)
    (acc : gmap nat Hint) (h : Hint) :
  (∀ k h', acc !! k = Some h' → P k h') →
  (∀ k, k ∈ Wires (offset_hint p s h) → P k (offset_hint p s h)) →
  ∀ k h', hint_step p s acc h !! k = Some h' → P k h'.
Proof.
  intros Hacc Hh k h'. unfold hint_step.
  destruct (Wires (offset_hint p s h)) as [| w0 ws] eqn:Hws; [apply Hacc |].
  destruct (bool_decide (is_Some (acc !! w0))); [apply Hacc |].
  change (foldl (λ m vID, <[vID := offset_hint p s h]> m) acc (w0 :: ws))
    with (register_hint (offset_hint p s h) (w0 :: ws) acc).
  rewrite register_hint_lookup.
  destruct (decide (k ∈ w0 :: ws)) as [Hk | Hk]; [| apply Hacc].
  intros [= <-]. by apply Hh.
Qed.

Lemma hint_loop_values (p s : nat) (order : list (nat * Hint)) (k : nat)
    (h' : Hint) :
  hint_loop p s order !! k = Some h' →
  ∃ e, e ∈ order ∧ h' = offset_hint p s e.2 ∧ k ∈ Wires h'.
Proof.
  unfold hint_loop.
  assert (∀ es acc,
    (∀ e, e ∈ es → e ∈ order) →
    (∀ k h', acc !! k = Some h' →
       ∃ e, e ∈ order ∧ h' = offset_hint p s e.2 ∧ k ∈ Wires h') →
    ∀ k h', foldl (λ shiftedMap e, hint_step p s shiftedMap e.2) acc es !! k
            = Some h' →
            ∃ e, e ∈ order ∧ h' = offset_hint p s e.2 ∧ k ∈ Wires h') as Hgen.
  { intros es. induction es as [| e es IH]; intros acc Hes Hacc; cbn; [done |].
    apply IH; [intros e' He'; apply Hes; by right |].
    apply hint_step_values; [done |].
    intros k0 Hk0. exists e. split; [apply Hes; by left | done]. }
  apply Hgen; [done |]. intros k0 h0. by rewrite lookup_empty.
Qed.

(** C3: in the constraint system that [Compile] returns, the number of
    public wires counts the wire one, and every term of every constraint,
    of every hint input that is an expression and of every log and debug
    entry is the term of the compiler with its wire shifted by its
    visibility alone: a public wire keeps its identifier, a secret wire is
    moved by the number of public wires, an internal wire by the number of
    public and secret wires; every hint of the map returned is a hint of
    the compiler so shifted, bound to one of its own shifted output wires;
    and when the hint map of the compiler binds every output wire of a hint
    to that hint, as [NewHint] leaves it, the hint of a wire is found at the
    shifted wire and the map has no other entry.  With 3 public and 4
    secret wires the internal wire 5 becomes 12, the secret wire 2 becomes 5
    and the public wire 1 stays 1. *)
Theorem Compile_shifts_wires (fuel : nat) (order : list (nat * Hint))
    (cs : compiler) (ccs : CompiledConstraintSystem) :
  visit_order cs order →
  Compile fuel order cs = Some (Some ccs, None) →
  let nbPublic := length (Public (ConstraintSystem cs)) in
  let nbSecret := length (Secret (ConstraintSystem cs)) in
  let res := compiled_R1CS ccs in
  NbPublicVariables (R1CS_ConstraintSystem res) = nbPublic
  ∧ NbSecretVariables (R1CS_ConstraintSystem res) = nbSecret
  ∧ R1CS_Constraints res = shifted_R1C nbPublic nbSecret <$> Constraints cs
  ∧ (∀ k h', MHints (R1CS_ConstraintSystem res) !! k = Some h' →
       ∃ w h, MHints (ConstraintSystem cs) !! w = Some h
              ∧ h' = shifted_hint nbPublic nbSecret h
              ∧ k ∈ Wires h')
  ∧ (hints_wf (MHints (ConstraintSystem cs)) →
     ∀ w h, MHints (ConstraintSystem cs) !! w = Some h →
       MHints (R1CS_ConstraintSystem res) !! (w + nbPublic + nbSecret)
       = Some (shifted_hint nbPublic nbSecret h))
  ∧ (hints_wf (MHints (ConstraintSystem cs)) →
     ∀ k h', MHints (R1CS_ConstraintSystem res) !! k = Some h' →
       ∃ w h, k = w + nbPublic + nbSecret
              ∧ MHints (ConstraintSystem cs) !! w = Some h
              ∧ h' = shifted_hint nbPublic nbSecret h)
  ∧ Logs (R1CS_ConstraintSystem res)
    = shifted_LogEntry nbPublic nbSecret <$> Logs (ConstraintSystem cs)
  ∧ DebugInfo (R1CS_ConstraintSystem res)
    = shifted_LogEntry nbPublic nbSecret <$> DebugInfo (ConstraintSystem cs)
  ∧ (∀ c, shifted 3 4 (Pack 5 c Internal) = Pack 12 c Internal
          ∧ shifted 3 4 (Pack 2 c schema.Secret) = Pack 5 c schema.Secret
          ∧ shifted 3 4 (Pack 1 c schema.Public) = Pack 1 c schema.Public).
Proof.
  intros Hord Hc nbPublic nbSecret res.
  apply Compile_success in Hc as (levels & _ & Hres).
  subst res. rewrite Hres. cbn.
  fold nbPublic nbSecret.
  split; [done |]. split; [done |].
  split; [apply list_fmap_ext; intros _ c _; apply offset_R1C_shifted |].
  split.
  { intros k h' Hk. apply hint_loop_values in Hk as ([w h] & He & -> & Hk).
    exists w, h. rewrite Hord in He. apply elem_of_map_to_list in He.
    split; [done |]. split; [apply offset_hint_shifted | done]. }
  split.
  { intros Hwf w h Hw. rewrite (hint_loop_lookup _ _ _ Hwf order Hord).
    unfold shifted_hints. rewrite decide_True by lia.
    replace (w + nbPublic + nbSecret - (nbPublic + nbSecret)) with w by lia.
    rewrite Hw. cbn. by rewrite offset_hint_shifted. }
  split.
  { intros Hwf k h'. rewrite (hint_loop_lookup _ _ _ Hwf order Hord).
    unfold shifted_hints. destruct (decide _) as [Hle |]; [| done].
    destruct (MHints (ConstraintSystem cs) !! (k - (nbPublic + nbSecret)))
      as [h |] eqn:Hh; [| done].
    cbn. intros [= <-]. exists (k - (nbPublic + nbSecret)), h.
    split; [lia |]. split; [done |]. apply offset_hint_shifted. }
  split; [apply list_fmap_ext; intros _ e _; apply offset_LogEntry_shifted |].
  split; [apply list_fmap_ext; intros _ e _; apply offset_LogEntry_shifted |].
  intros c. repeat split.
Qed.

Example demo_system_run : run_calls demo_start demo_calls = Some demo_system.
Proof. vm_compute. reflexivity. Qed.

Example demo_system_sizes :
  length (Public (ConstraintSystem demo_system)) = 3
  ∧ length (Secret (ConstraintSystem demo_system)) = 4
  ∧ NbInternalVariables (ConstraintSystem demo_system) = 6.
Proof. vm_compute. done. Qed.

Example demo_system_compiled :
  (λ r, (R1CS_Constraints (compiled_R1CS r),
         MHints (R1CS_ConstraintSystem (compiled_R1CS r)) !! 9,
         Levels (R1CS_ConstraintSystem (compiled_R1CS r))))
  <$> (Compile 3 demo_order demo_system ≫= fst)
  = Some ([mkR1C (mkVariable [Pack 12 1 Internal])
                 (mkVariable [Pack 5 1 schema.Secret])
                 (mkVariable [Pack 1 1 schema.Public])],
          Some (mkHint 8 [LinExpV [Pack 7 1 Internal]] [9]),
          [[0]]).
Proof. vm_compute. reflexivity. Qed.

(** On a hint map that is not well formed the order of the visit shows. *)
Example hint_loop_order_matters :
  hint_loop 0 0 crossed_hints ≠ hint_loop 0 0 (reverse crossed_hints).
Proof.
  intros Heq.
  assert (hint_loop 0 0 crossed_hints !! 0
          = hint_loop 0 0 (reverse crossed_hints) !! 0) as H0 by (by rewrite Heq).
  vm_compute in H0. discriminate.
Qed.

Lemma demo_system_hints_wf : hints_wf (MHints (ConstraintSystem demo_system)).
Proof.
  eapply hints_inv_run_calls; [apply hints_inv_newCompiler | apply demo_system_run].
Qed.

Lemma Compile_shifts_wires_witness :
  ∃ ccs,
    Compile 3 demo_order demo_system = Some (Some ccs, None)
    ∧ R1CS_Constraints (compiled_R1CS ccs)
      = shifted_R1C 3 4 <$> Constraints demo_system
    ∧ ∀ w h, MHints (ConstraintSystem demo_system) !! w = Some h →
        MHints (R1CS_ConstraintSystem (compiled_R1CS ccs)) !! (w + 3 + 4)
        = Some (shifted_hint 3 4 h).
Proof.
  assert (∃ ccs, Compile 3 demo_order demo_system = Some (Some ccs, None))
    as [ccs Hc] by (vm_compute; eexists; reflexivity).
  exists ccs. split; [exact Hc |].
  destruct (Compile_shifts_wires 3 demo_order demo_system ccs
              (reflexivity _) Hc) as (_ & _ & Hcs & _ & Hhints & _).
  split; [exact Hcs |]. exact (Hhints demo_system_hints_wf).
Defined.

Lemma Compile_deterministic_witness :
  Compile 3 demo_order demo_system = Compile 3 (reverse demo_order) demo_system.
Proof.
  refine (proj1 (Compile_deterministic ecc.BN254 (frontend.mkCompileConfig 0 true)
                   demo_calls demo_system 3 demo_order (reverse demo_order) _ _ _)).
  - apply demo_system_run.
  - unfold visit_order, demo_order. reflexivity.
  - unfold visit_order, demo_order. apply reverse_Permutation.
Defined.

(** ** The levels of the constraints *)

Lemma extends_refl (cID : nat) (b : levelBuilder) : extends cID b b.
Proof. unfold extends. repeat split; auto. Qed.

Lemma extends_trans (cID : nat) (b1 b2 b3 : levelBuilder) :
  extends cID b1 b2 → extends cID b2 b3 → extends cID b1 b3.
Proof.
  intros (Hc & Hi & Hn & Hm & Hl & Hw & Hs) (Hc' & Hi' & Hn' & Hm' & Hl' & Hw' & Hs').
  unfold extends. repeat split; try congruence; try lia.
  - intros w. destruct (Hw' w) as [-> | ->]; [apply Hw | by right].
  - destruct Hs' as [He | (w & n & lv & Hne & Hwn & Hlv & He)].
    + rewrite He. exact Hs.
    + right. exists w, n, lv. split; [done |].
      split; [| split; [congruence | done]].
      destruct (Hw w) as [<- | Hcid]; [done | congruence].
Qed.

Lemma deps_ok_extends (cID : nat) (l : LinearExpression) (b b' : levelBuilder) :
  extends cID b b' → deps_ok cID l b → deps_ok cID l b'.
Proof.
  intros (Hc & Hi & Hn & Hm & Hl & Hw & Hs) Hd t Ht Hin n Hmap Hne.
  rewrite Hi in Hin.
  destruct (Hw (WireID t)) as [Heq | Hcid]; [| congruence].
  rewrite Heq in Hmap. destruct (Hd t Ht Hin n Hmap Hne) as (lv & Hlv & Hlt).
  exists lv. split; [congruence | lia].
Qed.

Lemma deps_ok_nil (cID : nat) (b : levelBuilder) : deps_ok cID [] b.
Proof. intros t Ht. by apply elem_of_nil in Ht. Qed.

Lemma deps_ok_app (cID : nat) (l1 l2 : LinearExpression) (b : levelBuilder) :
  deps_ok cID l1 b → deps_ok cID l2 b → deps_ok cID (l1 ++ l2) b.
Proof.
  intros H1 H2 t Ht. apply elem_of_app in Ht as [Ht | Ht]; [by apply H1 | by apply H2].
Qed.

Lemma mark_wires_lookup (wires : list nat) (cID : nat) :
  ∀ (m : gmap nat nat) (w : nat),
  mark_wires wires cID m !! w = if decide (w ∈ wires) then Some cID else m !! w.
Proof.
  unfold mark_wires.
  induction wires as [| v wires IH]; intros m w; cbn.
  - destruct (decide _) as [Hin | _]; [by apply elem_of_nil in Hin | done].
  - rewrite IH.
    destruct (decide (w ∈ wires)) as [Hin | Hnin].
    + rewrite decide_True by (by right). done.
    + destruct (decide (w = v)) as [-> | Hne].
      * rewrite decide_True by (by left). by rewrite lookup_insert_eq.
      * rewrite decide_False by (rewrite elem_of_cons; tauto).
        by rewrite lookup_insert_ne.
Qed.

Lemma depend_on_ok (b b' : levelBuilder) (w n cID : nat) :
  mWireToNode b !! w = Some n →
  depend_on b n cID = Some b' →
  extends cID b b'
  ∧ (n ≠ cID → ∃ lv, nodeLevels b' !! n = Some lv ∧ lv < nodeLevel b').
Proof.
  intros Hw. unfold depend_on.
  destruct (n =? cID) eqn:Hn; cbn [negb].
  - intros [= <-]. apply Nat.eqb_eq in Hn. split; [apply extends_refl | done].
  - apply Nat.eqb_neq in Hn.
    destruct (nodeLevels b !! n) as [lv |] eqn:Hlv; [| done]. cbn [mbind option_bind].
    destruct (nodeLevel b <=? lv) eqn:Hle; intros [= <-].
    + apply Nat.leb_le in Hle. split.
      * unfold extends. cbn. repeat split; auto; try lia.
        right. exists w, n, lv. repeat split; auto. lia.
      * intros _. exists lv. cbn. split; [done | lia].
    + apply Nat.leb_gt in Hle. split; [apply extends_refl |].
      intros _. exists lv. split; [done | lia].
Qed.

Section ProcessLE.

Variables (self : levelBuilder → LinearExpression → option levelBuilder)
          (cID : nat).
Hypothesis self_extends : ∀ b l b', self b l = Some b' → extends cID b b'.

Lemma process_inputs_extends (ins : list iface) :
  ∀ b b', process_inputs self ins b = Some b' → extends cID b b'.
Proof.
  induction ins as [| in_ ins IH]; intros b b'; cbn.
  - intros [= <-]. apply extends_refl.
  - destruct (match in_ with
              | VariableV t => self b (LinExp t)
              | LinExpV t => self b t
              | TermV t => self b [t]
              | BigV _ => Some b
              end) as [b1 |] eqn:H1; [| done].
    cbn. intros H2. apply extends_trans with b1; [| by apply IH].
    destruct in_; try (by eapply self_extends). injection H1 as <-. apply extends_refl.
Qed.

Lemma process_terms_ok (l : LinearExpression) :
  ∀ b b', process_terms self cID l b = Some b' →
          extends cID b b' ∧ deps_ok cID l b'.
Proof.
  induction l as [| t l IH]; intros b b'; cbn [process_terms].
  - intros [= <-]. split; [apply extends_refl | apply deps_ok_nil].
  - destruct (WireID t <? nbInputs b) eqn:Hin.
    { intros Hrun. apply IH in Hrun as [Hext Hd]. split; [done |].
      intros t' Ht'. apply elem_of_cons in Ht' as [-> | Ht']; [| by apply Hd].
      apply Nat.ltb_lt in Hin. destruct Hext as (_ & Hi & _). rewrite Hi. lia. }
    destruct (mWireToNode b !! WireID t) as [n |] eqn:Hmap.
    { destruct (depend_on b n cID) as [b1 |] eqn:Hdep; [| done]. cbn [mbind option_bind].
      intros Hrun. apply IH in Hrun as [Hext Hd].
      apply (depend_on_ok b b1 (WireID t)) in Hdep as [Hext1 Hlv]; [| done].
      split; [by apply extends_trans with b1 |].
      intros t' Ht'. apply elem_of_cons in Ht' as [-> | Ht']; [| by apply Hd].
      intros _ n' Hn' Hne.
      destruct Hext as (_ & _ & Hnl & _ & Hl & Hw & _).
      destruct (Hw (WireID t)) as [Heq | Hcid]; [| congruence].
      destruct Hext1 as (_ & _ & _ & _ & _ & Hw1 & _).
      destruct (Hw1 (WireID t)) as [Heq1 | Hcid1]; [| congruence].
      assert (n' = n) as -> by congruence.
      destruct (Hlv Hne) as (lv & Hlv1 & Hlt). exists lv. split; [congruence | lia]. }
    destruct (MHints (R1CS_ConstraintSystem (ccs b)) !! WireID t) as [h |] eqn:Hh.
    + destruct (process_inputs self (Inputs h) b) as [b1 |] eqn:Hins; [| done].
      cbn [mbind option_bind]. intros Hrun. apply IH in Hrun as [Hext Hd].
      apply process_inputs_extends in Hins.
      set (b2 := set_mWireToNode b1 _) in *.
      assert (extends cID b1 b2) as Hext2.
      { unfold extends. subst b2. cbn. repeat split; auto.
        intros w. rewrite mark_wires_lookup. destruct (decide _); auto. }
      split; [apply extends_trans with b1; [done |]; by apply extends_trans with b2 |].
      intros t' Ht'. apply elem_of_cons in Ht' as [-> | Ht']; [| by apply Hd].
      intros _ n' Hn' Hne. exfalso.
      destruct Hext as (_ & _ & _ & _ & _ & Hw & _).
      destruct (Hw (WireID t)) as [Heq | Hcid]; [| congruence].
      destruct Hext2 as (_ & _ & _ & _ & _ & Hw2 & _).
      destruct (Hw2 (WireID t)) as [Heq2 | Hcid2]; [| congruence].
      destruct Hins as (_ & _ & _ & _ & _ & Hw1 & _).
      destruct (Hw1 (WireID t)) as [Heq1 | Hcid1]; congruence.
    + intros Hrun. apply IH in Hrun as [Hext Hd].
      set (b2 := set_mWireToNode b _) in *.
      assert (extends cID b b2) as Hext2.
      { unfold extends. subst b2. cbn. repeat split; auto.
        intros w. destruct (decide (w = WireID t)) as [-> | Hne].
        - right. by rewrite lookup_insert_eq.
        - left. by rewrite lookup_insert_ne. }
      split; [by apply extends_trans with b2 |].
      intros t' Ht'. apply elem_of_cons in Ht' as [-> | Ht']; [| by apply Hd].
      intros _ n' Hn' Hne. exfalso.
      destruct Hext as (_ & _ & _ & _ & _ & Hw & _).
      destruct (Hw (WireID t)) as [Heq | Hcid]; [| congruence].
      subst b2. cbn in Heq. rewrite lookup_insert_eq in Heq. congruence.
Qed.

End ProcessLE.

Lemma processLE_ok (fuel : nat) :
  ∀ b l cID b', processLE fuel b l cID = Some b' →
                extends cID b b' ∧ deps_ok cID l b'.
Proof.
  induction fuel as [| fuel IH]; intros b l cID b'; cbn [processLE]; [done |].
  apply process_terms_ok. intros b0 l0 b0' H0. by apply IH in H0 as [? _].
Qed.

Lemma level_of_constraint_inv (cs : list R1C) (fuel k : nat) (c : R1C)
    (b b' : levelBuilder) :
  level_inv cs k b → cs !! k = Some c →
  level_of_constraint fuel b k c = Some b' →
  level_inv cs (S k) b'
  ∧ ccs b' = ccs b ∧ nbInputs b' = nbInputs b
  ∧ length (nodeLevels b') = length (nodeLevels b)
  ∧ k < length (nodeLevels b).
Proof.
  intros (G1 & G3 & G5 & G4) Hc. unfold level_of_constraint.
  set (b0 := set_nodeLevel b 0).
  destruct (processLE fuel b0 (LinExp (R1C_L c)) k) as [b1 |] eqn:H1; [| done].
  cbn [mbind option_bind].
  destruct (processLE fuel b1 (LinExp (R1C_R c)) k) as [b2 |] eqn:H2; [| done].
  cbn [mbind option_bind].
  destruct (processLE fuel b2 (LinExp (R1C_O c)) k) as [b3 |] eqn:H3; [| done].
  cbn [mbind option_bind].
  destruct (k <? length (nodeLevels b3)) eqn:Hk; [| done]. apply Nat.ltb_lt in Hk.
  intros [= <-].
  apply processLE_ok in H1 as [E1 D1]. apply processLE_ok in H2 as [E2 D2].
  apply processLE_ok in H3 as [E3 D3].
  assert (extends k b0 b3) as E by (eauto using extends_trans).
  assert (deps_ok k (LinExp (R1C_L c) ++ LinExp (R1C_R c) ++ LinExp (R1C_O c)) b3) as D.
  { apply deps_ok_app; [| apply deps_ok_app; [| done]].
    - apply deps_ok_extends with b1; [eauto using extends_trans | done].
    - by apply deps_ok_extends with b2. }
  clear E1 E2 E3 D1 D2 D3.
  destruct E as (Ec & Ei & En & Em & El & Ew & Es).
  subst b0. cbn in Ec, Ei, En, Em, El, Ew, Es.
  assert (∀ i, i ≠ k → <[k := nodeLevel b3]> (nodeLevels b3) !! i = nodeLevels b !! i)
    as Hother.
  { intros i Hi. rewrite list_lookup_insert_ne by done. by rewrite En. }
  assert (<[k := nodeLevel b3]> (nodeLevels b3) !! k = Some (nodeLevel b3)) as Hself.
  { by apply list_lookup_insert_eq. }
  cbn. rewrite length_insert.
  split; [| split; [exact Ec | split; [exact Ei | split; [by rewrite En | by rewrite <- En]]]].
  unfold level_inv. cbn. split; [| split; [| split]].
  - intros w n Hw. destruct (Ew w) as [Heq | Hcid].
    + rewrite Heq in Hw. apply G1 in Hw. lia.
    + assert (n = k) by congruence. lia.
  - intros c0 r Hc0 Hr w Hw Hin n Hn Hlt.
    destruct (decide (c0 = k)) as [-> | Hne].
    + assert (r = c) as -> by congruence.
      unfold wires_of in Hw. apply list_elem_of_fmap in Hw as (t & -> & Ht).
      destruct (D t Ht Hin n Hn) as (lv & Hlv & Hlvlt); [lia |].
      exists lv, (nodeLevel b3). rewrite Hother by lia. rewrite Hself.
      rewrite <- En. done.
    + assert (c0 < k) as Hc0' by lia.
      destruct (Ew w) as [Heq | Hcid]; [| assert (n = k) by congruence; lia].
      rewrite Heq in Hn. rewrite Ei in Hin.
      destruct (G3 c0 r Hc0' Hr w Hw Hin n Hn Hlt) as (lv & lc & ? & ? & ?).
      exists lv, lc. rewrite !Hother by lia. done.
  - intros c0 lv Hc0. destruct (decide (c0 = k)) as [-> | Hne].
    + rewrite Hself. intros [= Hl].
      destruct Es as [Hz | (w & n & lv' & Hnk & Hw & Hlv & Hs)]; [lia |].
      exists n. pose proof (G1 w n Hw). split; [lia |].
      rewrite Hother by lia. rewrite Hlv. f_equal. lia.
    + rewrite Hother by done. intros Hl.
      destruct (G5 c0 lv) as (c' & Hc' & Hl'); [lia | done |].
      exists c'. split; [done |]. rewrite Hother by lia. done.
  - intros l. rewrite Em.
    destruct (decide (l = nodeLevel b3)) as [-> | Hne].
    + rewrite lookup_insert_eq. split; [| eauto]. intros _. exists k. split; [lia | done].
    + rewrite lookup_insert_ne by done. rewrite G4. split.
      * intros (c0 & Hc0 & Hl). exists c0. split; [lia |]. rewrite Hother by lia. done.
      * intros (c0 & Hc0 & Hl). destruct (decide (c0 = k)) as [-> | Hne'].
        -- rewrite Hself in Hl. congruence.
        -- exists c0. split; [lia |]. rewrite Hother in Hl by done. done.
Qed.

Lemma level_loop_inv (cs : list R1C) (fuel : nat) (l : list R1C) :
  ∀ (k : nat) (b b' : levelBuilder),
  level_inv cs k b →
  (∀ i r, l !! i = Some r → cs !! (k + i) = Some r) →
  level_loop fuel l k b = Some b' →
  level_inv cs (k + length l) b'
  ∧ ccs b' = ccs b ∧ nbInputs b' = nbInputs b
  ∧ length (nodeLevels b') = length (nodeLevels b)
  ∧ k + length l ≤ max k (length (nodeLevels b)).
Proof.
  induction l as [| c l IH]; intros k b b' Hinv Hl; cbn [level_loop].
  - intros [= <-]. cbn. rewrite Nat.add_0_r. split; [done |]. repeat split. lia.
  - destruct (level_of_constraint fuel b k c) as [b1 |] eqn:H1; [| done].
    cbn [mbind option_bind]. intros Hrun.
    apply (level_of_constraint_inv cs) in H1 as (Hinv1 & Hc1 & Hi1 & Hn1 & Hk); try done.
    2: { specialize (Hl 0 c). rewrite Nat.add_0_r in Hl. by apply Hl. }
    apply IH in Hrun as (Hinv' & Hc' & Hi' & Hn' & Hle); [| done |].
    2: { intros i r Hi. specialize (Hl (S i) r Hi). by replace (S k + i) with (k + S i) by lia. }
    cbn [length]. replace (k + S (length l)) with (S k + length l) by lia.
    split; [done |]. repeat split; try congruence. lia.
Qed.

Lemma level_inv_new (ccs0 : R1CS) :
  level_inv (R1CS_Constraints ccs0) 0 (new_levelBuilder ccs0).
Proof.
  unfold level_inv. cbn. repeat split; try (intros; lia).
  - intros w n Hw. by rewrite lookup_empty in Hw.
  - rewrite lookup_empty. by intros [? ?].
  - intros (c & ? & _). lia.
Qed.

Lemma elem_of_level_members (nl : list nat) :
  ∀ n k c, c ∈ level_members nl n k ↔ ∃ i, c = n + i ∧ nl !! i = Some k.
Proof.
  induction nl as [| l nl IH]; intros n k c; cbn.
  - split; [by intros ?%elem_of_nil | by intros (i & _ & ?)].
  - rewrite elem_of_app, IH. split.
    + intros [Hc | (i & -> & Hi)].
      * destruct (decide (l = k)) as [-> |]; [| by apply elem_of_nil in Hc].
        apply list_elem_of_singleton in Hc as ->. exists 0. split; [lia | done].
      * exists (S i). split; [lia | done].
    + intros ([| i] & -> & Hi).
      * left. cbn in Hi. injection Hi as ->. rewrite decide_True by done.
        rewrite Nat.add_0_r. by left.
      * right. exists i. split; [lia | done].
Qed.

Lemma fill_levels_spec (nl : list nat) :
  ∀ n levels levels',
  fill_levels nl n levels = Some levels' →
  (∀ k, levels' !! k = (λ lk, lk ++ level_members nl n k) <$> levels !! k)
  ∧ Forall (λ l, l < length levels) nl.
Proof.
  induction nl as [| l nl IH]; intros n levels levels'; cbn [fill_levels].
  - intros [= <-]. split; [| done]. intros k. cbn.
    destruct (levels !! k); cbn; [by rewrite app_nil_r | done].
  - destruct (levels !! l) as [level |] eqn:Hl; [| done]. cbn [mbind option_bind].
    intros Hrun. apply IH in Hrun as [Hlook Hall].
    pose proof (lookup_lt_Some _ _ _ Hl) as Hlt.
    rewrite length_insert in Hall. split; [| by constructor].
    intros k. rewrite Hlook. cbn [level_members].
    destruct (decide (l = k)) as [-> | Hne].
    + rewrite list_lookup_insert_eq by done. rewrite Hl. cbn. by rewrite <- app_assoc.
    + rewrite list_lookup_insert_ne by done. done.
Qed.

(** What [buildLevels] returns, from the levels of the nodes. *)
Lemma buildLevels_levels (fuel : nat) (ccs0 : R1CS) (levels : list (list nat)) :
  buildLevels fuel ccs0 = Some levels →
  ∃ b,
    level_loop fuel (R1CS_Constraints ccs0) 0 (new_levelBuilder ccs0) = Some b
    ∧ level_inv (R1CS_Constraints ccs0) (length (R1CS_Constraints ccs0)) b
    ∧ nbInputs b = nbInputs (new_levelBuilder ccs0)
    ∧ length (nodeLevels b) = length (R1CS_Constraints ccs0)
    ∧ length levels = size (mLevels b)
    ∧ ∀ k lk c, levels !! k = Some lk → (c ∈ lk ↔ nodeLevels b !! c = Some k).
Proof.
  unfold buildLevels.
  destruct (level_loop _ _ _ _) as [b |] eqn:Hloop; [| done]. cbn [mbind option_bind].
  intros Hfill. exists b. split; [done |].
  pose proof (level_loop_inv (R1CS_Constraints ccs0) fuel (R1CS_Constraints ccs0)
                0 (new_levelBuilder ccs0) b (level_inv_new ccs0)
                (λ i r Hr, Hr) Hloop) as (Hinv & _ & Hi & Hn & _).
  cbn in Hn. rewrite length_replicate in Hn.
  split; [done |]. split; [done |]. split; [done |].
  apply fill_levels_spec in Hfill as [Hlook Hall].
  split.
  { assert (length levels = length (replicate (size (mLevels b)) ([] : list nat))) as ->.
    { apply Nat.le_antisymm.
      - destruct (le_lt_dec (length levels) (length (replicate (size (mLevels b)) ([] : list nat)))) as [? | Hgt]; [done |].
        destruct (lookup_lt_is_Some_2 levels _ Hgt) as [x Hx].
        rewrite Hlook in Hx. rewrite lookup_ge_None_2 in Hx by lia. done.
      - destruct (le_lt_dec (length (replicate (size (mLevels b)) ([] : list nat))) (length levels)) as [? | Hgt]; [done |].
        destruct (lookup_lt_is_Some_2 (replicate (size (mLevels b)) ([] : list nat)) _ Hgt) as [x Hx].
        specialize (Hlook (length levels)). rewrite Hx in Hlook. cbn in Hlook.
        rewrite lookup_ge_None_2 in Hlook by lia. done. }
    by rewrite length_replicate. }
  intros k lk c Hk. rewrite Hlook in Hk.
  destruct (replicate _ _ !! k) as [x |] eqn:Hx; [| done].
  apply lookup_replicate in Hx as [-> _]. cbn in Hk. injection Hk as <-.
  rewrite elem_of_level_members. split.
  - intros (i & -> & Hnl). done.
  - intros Hc. by exists c.
Qed.

Lemma buildLevels_safe (fuel : nat) (ccs0 : R1CS)
    (levels : list (list nat)) :
  buildLevels fuel ccs0 = Some levels →
  let nbInputs := NbPublicVariables (R1CS_ConstraintSystem ccs0)
                  + NbSecretVariables (R1CS_ConstraintSystem ccs0) in
  ∃ b,
    level_loop fuel (R1CS_Constraints ccs0) 0 (new_levelBuilder ccs0) = Some b
    ∧ (∀ c, c < length (R1CS_Constraints ccs0) →
         ∃ k lk, levels !! k = Some lk ∧ c ∈ lk)
    ∧ (∀ c k k' lk lk',
         levels !! k = Some lk → c ∈ lk → levels !! k' = Some lk' → c ∈ lk' →
         k = k' ∧ c < length (R1CS_Constraints ccs0))
    ∧ (∀ c k lk r w c' k' lk',
         levels !! k = Some lk → c ∈ lk →
         R1CS_Constraints ccs0 !! c = Some r →
         w ∈ wires_of r → nbInputs ≤ w →
         mWireToNode b !! w = Some c' → c' < c →
         levels !! k' = Some lk' → c' ∈ lk' →
         k' < k).
Proof.
  intros Hrun nbInputs0.
  pose proof Hrun as Hfill. unfold buildLevels in Hfill.
  apply buildLevels_levels in Hrun as (b & Hloop & Hinv & Hi & Hn & Hlen & Hmem).
  rewrite Hloop in Hfill. cbn [mbind option_bind] in Hfill.
  apply fill_levels_spec in Hfill as [_ Hall].
  rewrite length_replicate in Hall.
  exists b. split; [done |]. split; [| split].
  - intros c Hc. rewrite <- Hn in Hc.
    destruct (lookup_lt_is_Some_2 _ _ Hc) as [k Hk].
    rewrite Forall_forall in Hall.
    assert (k < length levels) as Hlt.
    { rewrite Hlen. apply Hall. by apply list_elem_of_lookup_2 in Hk. }
    destruct (lookup_lt_is_Some_2 _ _ Hlt) as [lk Hlk].
    exists k, lk. split; [done |]. by apply (Hmem k lk c).
  - intros c k k' lk lk' Hk Hc Hk' Hc'.
    apply (Hmem k lk c Hk) in Hc. apply (Hmem k' lk' c Hk') in Hc'.
    split; [congruence |]. rewrite <- Hn. by apply lookup_lt_Some in Hc.
  - intros c k lk r w c' k' lk' Hk Hc Hr Hw Hin Hres Hlt Hk' Hc'.
    apply (Hmem k lk c Hk) in Hc. apply (Hmem k' lk' c' Hk') in Hc'.
    destruct Hinv as (_ & G3 & _).
    destruct (G3 c r) with (w := w) (n := c') as (lv & lc & Hlv & Hlc & Hlvlc); try done.
    + by apply lookup_lt_Some in Hr.
    + by rewrite Hi.
    + congruence.
Qed.

Lemma nodes_known_extends (cID : nat) (b b' : levelBuilder) :
  extends cID b b' → nodes_known cID b → nodes_known cID b'.
Proof.
  intros (_ & _ & Hn & _ & _ & Hw & _) [Hc Hm]. unfold nodes_known. rewrite Hn.
  split; [done |]. intros w n Hwn. destruct (Hw w) as [Heq | Hcid].
  - rewrite Heq in Hwn. eauto.
  - assert (n = cID) by congruence. lia.
Qed.

Section ProcessLEReturns.

Variables (self : levelBuilder → LinearExpression → option levelBuilder)
          (cID : nat) (m : gmap nat Hint) (nbIn bound : nat).
Hypothesis self_extends : ∀ b l b', self b l = Some b' → extends cID b b'.
Hypothesis self_returns :
  ∀ b l, nodes_known cID b → nbInputs b = nbIn →
         MHints (R1CS_ConstraintSystem (ccs b)) = m →
         (∀ t, t ∈ l → WireID t < bound ∨ WireID t < nbIn) →
         is_Some (self b l).
Hypothesis Hdescend : hints_descend m nbIn.

Lemma process_inputs_returns (ins : list iface) :
  ∀ b, nodes_known cID b → nbInputs b = nbIn →
       MHints (R1CS_ConstraintSystem (ccs b)) = m →
       (∀ in_ t, in_ ∈ ins → t ∈ input_terms in_ →
                 WireID t < bound ∨ WireID t < nbIn) →
       is_Some (process_inputs self ins b).
Proof.
  induction ins as [| in_ ins IH]; intros b Hk Hi Hm Hb; cbn; [eauto |].
  assert (∃ b1, match in_ with
                | VariableV t => self b (LinExp t)
                | LinExpV t => self b t
                | TermV t => self b [t]
                | BigV _ => Some b
                end = Some b1 ∧ extends cID b b1) as (b1 & H1 & E1).
  { destruct in_ as [v | l | t | z].
    - destruct (self_returns b (LinExp v)) as [b1 H1]; try done.
      { intros t Ht. apply (Hb (VariableV v)); [by left | done]. }
      exists b1. split; [done | by eapply self_extends].
    - destruct (self_returns b l) as [b1 H1]; try done.
      { intros t Ht. apply (Hb (LinExpV l)); [by left | done]. }
      exists b1. split; [done | by eapply self_extends].
    - destruct (self_returns b [t]) as [b1 H1]; try done.
      { intros t' Ht'. apply (Hb (TermV t)); [by left | done]. }
      exists b1. split; [done | by eapply self_extends].
    - exists b. split; [done | apply extends_refl]. }
  rewrite H1. cbn. apply IH.
  - by apply nodes_known_extends with b.
  - destruct E1 as (_ & -> & _). done.
  - destruct E1 as (-> & _). done.
  - intros i t Hin. apply Hb. by right.
Qed.

Lemma process_terms_returns (l : LinearExpression) :
  ∀ b, nodes_known cID b → nbInputs b = nbIn →
       MHints (R1CS_ConstraintSystem (ccs b)) = m →
       (∀ t, t ∈ l → WireID t < S bound ∨ WireID t < nbIn) →
       is_Some (process_terms self cID l b).
Proof.
  induction l as [| t l IH]; intros b Hk Hi Hm Hb; cbn [process_terms]; [eauto |].
  assert (∀ t', t' ∈ l → WireID t' < S bound ∨ WireID t' < nbIn) as Hb'.
  { intros t' Ht'. apply Hb. by right. }
  destruct (WireID t <? nbInputs b) eqn:Hin; [by apply IH |].
  apply Nat.ltb_ge in Hin.
  destruct (mWireToNode b !! WireID t) as [n |] eqn:Hmap.
  { assert (∃ b1, depend_on b n cID = Some b1) as [b1 H1].
    { unfold depend_on. destruct (negb (n =? cID)); [| eauto].
      destruct Hk as [_ Hk]. apply Hk in Hmap.
      destruct (lookup_lt_is_Some_2 _ _ Hmap) as [lv ->]. cbn.
      destruct (nodeLevel b <=? lv); eauto. }
    rewrite H1. cbn [mbind option_bind].
    apply (depend_on_ok b b1 (WireID t)) in H1 as [E1 _]; [| done].
    apply IH; try done.
    - by apply nodes_known_extends with b.
    - destruct E1 as (_ & -> & _). done.
    - destruct E1 as (-> & _). done. }
  rewrite Hm.
  destruct (m !! WireID t) as [h |] eqn:Hh.
  - destruct (process_inputs_returns (Inputs h) b) as [b1 H1]; try done.
    { intros in_ t' Hin' Ht'.
      destruct (Hdescend _ _ Hh in_ t' Hin' Ht') as [Hlt | Hlt]; [| by right].
      left. destruct (Hb t) as [? | ?]; [by left | lia | lia]. }
    rewrite H1. cbn [mbind option_bind].
    apply process_inputs_extends with (cID := cID) in H1; [| done].
    apply IH; try done.
    + destruct (nodes_known_extends _ _ _ H1 Hk) as [Hc Hv]. split; [done |].
      cbn. intros w n. rewrite mark_wires_lookup. destruct (decide _).
      * intros [= <-]. done.
      * apply Hv.
    + cbn. destruct H1 as (_ & Hi1 & _). congruence.
    + cbn. destruct H1 as (Hc1 & _). congruence.
  - apply IH; try done.
    destruct Hk as [Hc Hv]. split; [done |]. cbn. intros w n.
    destruct (decide (w = WireID t)) as [-> | Hne].
    + rewrite lookup_insert_eq. by intros [= <-].
    + rewrite lookup_insert_ne by done. apply Hv.
Qed.

End ProcessLEReturns.

Lemma process_terms_inputs
    (self : levelBuilder → LinearExpression → option levelBuilder)
    (cID : nat) (l : LinearExpression) (b : levelBuilder) :
  (∀ t, t ∈ l → WireID t < nbInputs b) →
  process_terms self cID l b = Some b.
Proof.
  induction l as [| t l IH]; intros Hb; cbn [process_terms]; [done |].
  rewrite (proj2 (Nat.ltb_lt _ _)) by (apply Hb; by left).
  apply IH. intros t' Ht'. apply Hb. by right.
Qed.

Lemma processLE_returns (m : gmap nat Hint) (nbIn : nat) (cID : nat) :
  hints_descend m nbIn →
  ∀ bound b l,
    nodes_known cID b → nbInputs b = nbIn →
    MHints (R1CS_ConstraintSystem (ccs b)) = m →
    (∀ t, t ∈ l → WireID t < bound ∨ WireID t < nbIn) →
    is_Some (processLE (S bound) b l cID).
Proof.
  intros Hd bound. induction bound as [| bound IH]; intros b l Hk Hi Hm Hb.
  - cbn [processLE]. rewrite process_terms_inputs; [eauto |].
    intros t Ht. destruct (Hb t Ht); lia.
  - change (processLE (S (S bound)) b l cID)
      with (process_terms (λ b l, processLE (S bound) b l cID) cID l b).
    apply (process_terms_returns _ cID m nbIn bound); try done.
    intros b0 l0 b0' H0. by apply processLE_ok in H0 as [? _].
Qed.

Lemma process_inputs_mono
    (self self' : levelBuilder → LinearExpression → option levelBuilder)
    (ins : list iface) :
  (∀ b l b', self b l = Some b' → self' b l = Some b') →
  ∀ b b', process_inputs self ins b = Some b' →
          process_inputs self' ins b = Some b'.
Proof.
  intros Hs. induction ins as [| in_ ins IH]; intros b b'; cbn; [done |].
  destruct in_ as [v | l | t | z]; cbn.
  - destruct (self b (LinExp v)) as [b1 |] eqn:H1; [| done].
    rewrite (Hs _ _ _ H1). cbn. apply IH.
  - destruct (self b l) as [b1 |] eqn:H1; [| done].
    rewrite (Hs _ _ _ H1). cbn. apply IH.
  - destruct (self b [t]) as [b1 |] eqn:H1; [| done].
    rewrite (Hs _ _ _ H1). cbn. apply IH.
  - apply IH.
Qed.

Lemma process_terms_mono
    (self self' : levelBuilder → LinearExpression → option levelBuilder)
    (cID : nat) (l : LinearExpression) :
  (∀ b l b', self b l = Some b' → self' b l = Some b') →
  ∀ b b', process_terms self cID l b = Some b' →
          process_terms self' cID l b = Some b'.
Proof.
  intros Hs. induction l as [| t l IH]; intros b b'; cbn [process_terms]; [done |].
  destruct (WireID t <? nbInputs b); [apply IH |].
  destruct (mWireToNode b !! WireID t) as [n |].
  { destruct (depend_on b n cID) as [b1 |]; [| done]. cbn. apply IH. }
  destruct (MHints (R1CS_ConstraintSystem (ccs b)) !! WireID t) as [h |]; [| apply IH].
  destruct (process_inputs self (Inputs h) b) as [b1 |] eqn:H1; [| done].
  rewrite (process_inputs_mono self self' _ Hs _ _ H1). cbn. apply IH.
Qed.

(** More fuel does not change what [processLE] returns. *)
Lemma processLE_fuel_S (fuel : nat) :
  ∀ b l cID b', processLE fuel b l cID = Some b' →
                processLE (S fuel) b l cID = Some b'.
Proof.
  induction fuel as [| fuel IH]; intros b l cID b'; [done |].
  change (processLE (S fuel) b l cID)
    with (process_terms (λ b l, processLE fuel b l cID) cID l b).
  change (processLE (S (S fuel)) b l cID)
    with (process_terms (λ b l, processLE (S fuel) b l cID) cID l b).
  apply process_terms_mono. intros b0 l0 b0'. apply IH.
Qed.

Lemma processLE_fuel_le (fuel fuel' : nat) (b b' : levelBuilder)
    (l : LinearExpression) (cID : nat) :
  fuel ≤ fuel' → processLE fuel b l cID = Some b' →
  processLE fuel' b l cID = Some b'.
Proof. induction 1; [done |]. intros ?. apply processLE_fuel_S. auto. Qed.

Lemma level_loop_fuel_le (fuel fuel' : nat) (l : list R1C) :
  fuel ≤ fuel' →
  ∀ k b b', level_loop fuel l k b = Some b' → level_loop fuel' l k b = Some b'.
Proof.
  intros Hle. induction l as [| c l IH]; intros k b b'; cbn [level_loop]; [done |].
  destruct (level_of_constraint fuel b k c) as [b1 |] eqn:H1; [| done].
  cbn [mbind option_bind]. intros Hrun.
  assert (level_of_constraint fuel' b k c = Some b1) as ->.
  { unfold level_of_constraint in *.
    destruct (processLE fuel _ (LinExp (R1C_L c)) k) as [x1 |] eqn:E1; [| done].
    rewrite (processLE_fuel_le _ _ _ _ _ _ Hle E1). cbn [mbind option_bind] in *.
    destruct (processLE fuel _ (LinExp (R1C_R c)) k) as [x2 |] eqn:E2; [| done].
    rewrite (processLE_fuel_le _ _ _ _ _ _ Hle E2). cbn [mbind option_bind] in *.
    destruct (processLE fuel _ (LinExp (R1C_O c)) k) as [x3 |] eqn:E3; [| done].
    rewrite (processLE_fuel_le _ _ _ _ _ _ Hle E3). cbn [mbind option_bind] in *.
    done. }
  cbn [mbind option_bind]. by apply IH.
Qed.

Lemma buildLevels_fuel_le (fuel fuel' : nat) (ccs0 : R1CS) (levels : list (list nat)) :
  fuel ≤ fuel' → buildLevels fuel ccs0 = Some levels →
  buildLevels fuel' ccs0 = Some levels.
Proof.
  intros Hle. unfold buildLevels.
  destruct (level_loop fuel _ _ _) as [b |] eqn:Hl; [| done].
  by rewrite (level_loop_fuel_le _ _ _ Hle _ _ _ Hl).
Qed.

Section Returns.

Variables (cs : list R1C) (m : gmap nat Hint) (nbIn bound : nat).
Hypothesis Hdescend : hints_descend m nbIn.

Lemma level_of_constraint_returns (k : nat) (c : R1C) (b : levelBuilder) :
  level_inv cs k b → k < length (nodeLevels b) →
  nbInputs b = nbIn → MHints (R1CS_ConstraintSystem (ccs b)) = m →
  (∀ w, w ∈ wires_of c → w < bound) →
  is_Some (level_of_constraint (S bound) b k c).
Proof.
  intros (G1 & _) Hk Hi Hm Hb. unfold level_of_constraint.
  set (b0 := set_nodeLevel b 0).
  assert (nodes_known k b0) as K0.
  { split; [done |]. intros w n Hw. apply G1 in Hw. cbn. lia. }
  assert (∀ l, l ⊆ LinExp (R1C_L c) ++ LinExp (R1C_R c) ++ LinExp (R1C_O c) →
               ∀ t, t ∈ l → WireID t < bound ∨ WireID t < nbIn) as Hl.
  { intros l Hsub t Ht. left. apply Hb. unfold wires_of.
    apply list_elem_of_fmap. exists t. split; [done | by apply Hsub]. }
  destruct (processLE_returns m nbIn k Hdescend bound b0 (LinExp (R1C_L c)))
    as [b1 H1]; try done.
  { apply Hl. intros t Ht. apply elem_of_app. by left. }
  rewrite H1. cbn [mbind option_bind]. apply processLE_ok in H1 as [E1 _].
  pose proof (nodes_known_extends _ _ _ E1 K0) as K1.
  destruct (processLE_returns m nbIn k Hdescend bound b1 (LinExp (R1C_R c)))
    as [b2 H2]; try done.
  { destruct E1 as (_ & -> & _). done. }
  { destruct E1 as (-> & _). done. }
  { apply Hl. intros t Ht. apply elem_of_app. right. apply elem_of_app. by left. }
  rewrite H2. cbn [mbind option_bind]. apply processLE_ok in H2 as [E2 _].
  pose proof (nodes_known_extends _ _ _ E2 K1) as K2.
  pose proof (extends_trans _ _ _ _ E1 E2) as E12.
  destruct (processLE_returns m nbIn k Hdescend bound b2 (LinExp (R1C_O c)))
    as [b3 H3]; try done.
  { destruct E12 as (_ & -> & _). done. }
  { destruct E12 as (-> & _). done. }
  { apply Hl. intros t Ht. apply elem_of_app. right. apply elem_of_app. by right. }
  rewrite H3. cbn [mbind option_bind]. apply processLE_ok in H3 as [E3 _].
  destruct (nodes_known_extends _ _ _ E3 K2) as [K3 _].
  rewrite (proj2 (Nat.ltb_lt _ _) K3). eauto.
Qed.

Lemma level_loop_returns (l : list R1C) :
  ∀ k b,
  level_inv cs k b → k + length l ≤ length (nodeLevels b) →
  nbInputs b = nbIn → MHints (R1CS_ConstraintSystem (ccs b)) = m →
  (∀ i r, l !! i = Some r → cs !! (k + i) = Some r) →
  (∀ r w, r ∈ l → w ∈ wires_of r → w < bound) →
  is_Some (level_loop (S bound) l k b).
Proof.
  induction l as [| c l IH]; intros k b Hinv Hk Hi Hm Hl Hb; cbn [level_loop]; [eauto |].
  cbn [length] in Hk.
  destruct (level_of_constraint_returns k c b) as [b1 H1]; try done; [lia | |].
  { intros w Hw. apply (Hb c); [by left | done]. }
  rewrite H1. cbn [mbind option_bind].
  apply (level_of_constraint_inv cs) in H1 as (Hinv1 & Hc1 & Hi1 & Hn1 & _); try done.
  2: { specialize (Hl 0 c). rewrite Nat.add_0_r in Hl. by apply Hl. }
  apply IH; try done.
  - lia.
  - congruence.
  - congruence.
  - intros i r Hr. specialize (Hl (S i) r Hr). by replace (S k + i) with (k + S i) by lia.
  - intros r w Hr. apply Hb. by right.
Qed.

End Returns.

(** A set of levels that holds, with every level above 0, the level just
    below has all its members below its size. *)
Lemma downward_closed_below_size (X : gset nat) :
  (∀ l, S l ∈ X → l ∈ X) → ∀ l, l ∈ X → l < size X.
Proof.
  intros Hdown l Hl.
  assert (∀ j, j ≤ l → j ∈ X) as Hall.
  { intros j Hj. induction Hj as [| l' Hj IH]; [done |]. apply IH; auto. }
  assert ((set_seq 0 (S l) : gset nat) ⊆ X) as Hsub.
  { intros j Hj. apply elem_of_set_seq in Hj. apply Hall. lia. }
  apply subseteq_size in Hsub. rewrite size_set_seq in Hsub. lia.
Qed.

Lemma fill_levels_returns (nl : list nat) :
  ∀ n levels, Forall (λ l, l < length levels) nl →
              is_Some (fill_levels nl n levels).
Proof.
  induction nl as [| l nl IH]; intros n levels Hall; cbn [fill_levels]; [eauto |].
  apply Forall_cons in Hall as [Hl Hall].
  destruct (lookup_lt_is_Some_2 _ _ Hl) as [level ->]. cbn [mbind option_bind].
  apply IH. by rewrite length_insert.
Qed.

Lemma buildLevels_returns (ccs0 : R1CS) (bound : nat) :
  hints_descend (MHints (R1CS_ConstraintSystem ccs0))
    (NbPublicVariables (R1CS_ConstraintSystem ccs0)
     + NbSecretVariables (R1CS_ConstraintSystem ccs0)) →
  wires_below (R1CS_Constraints ccs0) bound →
  ∀ fuel, bound < fuel → is_Some (buildLevels fuel ccs0).
Proof.
  intros Hd Hb fuel Hf. destruct fuel as [| fuel]; [lia |].
  unfold buildLevels.
  destruct (level_loop_returns (R1CS_Constraints ccs0) _ _ fuel Hd
              (R1CS_Constraints ccs0) 0 (new_levelBuilder ccs0)) as [b Hloop];
    try done.
  - apply level_inv_new.
  - cbn. by rewrite length_replicate.
  - intros r w Hr Hw. specialize (Hb r w Hr Hw). lia.
  - rewrite Hloop. cbn [mbind option_bind].
    pose proof (level_loop_inv (R1CS_Constraints ccs0) (S fuel) (R1CS_Constraints ccs0)
                  0 (new_levelBuilder ccs0) b (level_inv_new ccs0)
                  (λ i r Hr, Hr) Hloop) as (Hinv & _ & _ & Hn & _).
    cbn in Hn. rewrite length_replicate in Hn. cbn in Hinv.
    destruct Hinv as (_ & _ & G5 & G4).
    apply fill_levels_returns. rewrite length_replicate.
    apply Forall_forall. intros l Hl.
    apply list_elem_of_lookup in Hl as [c Hc].
    assert (c < length (R1CS_Constraints ccs0)) as Hlt.
    { rewrite <- Hn. by apply lookup_lt_Some in Hc. }
    rewrite <- size_dom.
    apply downward_closed_below_size.
    + intros l'. rewrite !elem_of_dom, !G4. intros (c0 & Hc0 & Hl0).
      destruct (G5 c0 l' Hc0 Hl0) as (c' & Hc' & Hl'). exists c'. split; [lia | done].
    + apply elem_of_dom. apply G4. eauto.
Qed.

(** Wires below the number of inputs take no part in [processLE]: the
    terms on them can be dropped from the expression. *)
Lemma depend_on_nbInputs (b b' : levelBuilder) (n cID : nat) :
  depend_on b n cID = Some b' → nbInputs b' = nbInputs b.
Proof.
  unfold depend_on. destruct (negb (n =? cID)); [| by intros [= <-]].
  destruct (nodeLevels b !! n) as [lv |]; [| done]. cbn.
  destruct (nodeLevel b <=? lv); by intros [= <-].
Qed.

Lemma process_inputs_nbInputs
    (self : levelBuilder → LinearExpression → option levelBuilder) :
  (∀ b l b', self b l = Some b' → nbInputs b' = nbInputs b) →
  ∀ ins b b', process_inputs self ins b = Some b' → nbInputs b' = nbInputs b.
Proof.
  intros Hself ins. induction ins as [| i ins IH]; intros b b'; cbn [process_inputs].
  - by intros [= <-].
  - destruct i as [v | l | t | z]; cbn [mbind option_bind].
    + destruct (self b (LinExp v)) as [b1 |] eqn:H1; [| done]. cbn.
      intros H. apply IH in H. apply Hself in H1. congruence.
    + destruct (self b l) as [b1 |] eqn:H1; [| done]. cbn.
      intros H. apply IH in H. apply Hself in H1. congruence.
    + destruct (self b [t]) as [b1 |] eqn:H1; [| done]. cbn.
      intros H. apply IH in H. apply Hself in H1. congruence.
    + apply IH.
Qed.

Lemma process_terms_filter
    (self : levelBuilder → LinearExpression → option levelBuilder)
    (cID n : nat) :
  (∀ b l b', self b l = Some b' → nbInputs b' = nbInputs b) →
  ∀ l b, nbInputs b = n →
    process_terms self cID l b
    = process_terms self cID (filter (λ t, n ≤ WireID t) l) b.
Proof.
  intros Hself l. induction l as [| t l IH]; intros b Hb; [done |].
  rewrite filter_cons. cbn [process_terms].
  destruct (WireID t <? nbInputs b) eqn:Hlt.
  - apply Nat.ltb_lt in Hlt. rewrite decide_False by lia. by apply IH.
  - apply Nat.ltb_ge in Hlt. rewrite decide_True by lia.
    cbn [process_terms]. rewrite (proj2 (Nat.ltb_ge _ _)) by lia.
    destruct (mWireToNode b !! WireID t) as [k |].
    + destruct (depend_on b k cID) as [b1 |] eqn:H1; [| done].
      cbn. apply IH. apply depend_on_nbInputs in H1. congruence.
    + destruct (MHints (R1CS_ConstraintSystem (ccs b)) !! WireID t) as [h |].
      * destruct (process_inputs self (Inputs h) b) as [b1 |] eqn:H1; [| done].
        cbn. apply IH. cbn.
        apply (process_inputs_nbInputs _ Hself) in H1. congruence.
      * apply IH. done.
Qed.

Lemma processLE_nbInputs (fuel : nat) (b : levelBuilder) (l : LinearExpression)
    (cID : nat) (b' : levelBuilder) :
  processLE fuel b l cID = Some b' → nbInputs b' = nbInputs b.
Proof.
  intros H. apply processLE_ok in H as [Hext _].
  unfold extends in Hext. tauto.
Qed.

Lemma processLE_filter (fuel : nat) (b : levelBuilder) (l : LinearExpression)
    (cID : nat) :
  processLE fuel b l cID
  = processLE fuel b (filter (λ t, nbInputs b ≤ WireID t) l) cID.
Proof.
  destruct fuel as [| fuel]; [done |]. cbn [processLE].
  apply process_terms_filter; [| done].
  intros b0 l0 b0'. apply processLE_nbInputs.
Qed.

Example chain_levels : buildLevels 2 chain_ccs = Some [[0; 2]; [1]; [3]].
Proof. vm_compute. reflexivity. Qed.

Example chain_resolved :
  (λ b, (λ w, mWireToNode b !! w) <$> [2; 3; 4; 5; 6])
  <$> level_loop 2 (R1CS_Constraints chain_ccs) 0 (new_levelBuilder chain_ccs)
  = Some [Some 0; Some 1; Some 2; Some 3; Some 3].
Proof. vm_compute. reflexivity. Qed.

Example looping_out_of_fuel : buildLevels 50 looping_ccs = None.
Proof. vm_compute. reflexivity. Qed.

(** ** The check of the inputs, constraint by constraint *)

Lemma constrained_snoc (seen : LinearExpression) (t : Term) vis w :
  constrained (seen ++ [t]) vis w ↔ constrained seen vis w ∨ constrains vis w t.
Proof.
  unfold constrained. rewrite Exists_app, Exists_cons, Exists_nil. tauto.
Qed.

Lemma constrained_app (l1 l2 : LinearExpression) vis w :
  constrained (l1 ++ l2) vis w ↔ constrained l1 vis w ∨ constrained l2 vis w.
Proof. unfold constrained. by rewrite Exists_app. Qed.

Lemma count_false_cons (f : bool) (flags : list bool) :
  count_false (f :: flags) = (if f then 0 else 1) + count_false flags.
Proof. unfold count_false. rewrite filter_cons. by destruct f. Qed.

Lemma count_false_insert (flags : list bool) (i : nat) :
  flags !! i = Some false →
  S (count_false (<[i := true]> flags)) = count_false flags.
Proof.
  revert i. induction flags as [| f flags IH]; intros [| i] Hi; try done.
  - cbn in Hi. injection Hi as ->.
    change (<[0 := true]> (false :: flags)) with (true :: flags).
    by rewrite !count_false_cons.
  - cbn in Hi. change (<[S i := true]> (f :: flags)) with (f :: <[i := true]> flags).
    rewrite !count_false_cons. rewrite <- (IH i Hi). lia.
Qed.

Lemma count_false_0 (flags : list bool) :
  count_false flags = 0 ↔ ∀ i f, flags !! i = Some f → f = true.
Proof.
  induction flags as [| f flags IH].
  - split; [by intros _ i f ? | done].
  - rewrite count_false_cons. split.
    + intros H0 [| i] f'; cbn.
      * intros [= <-]. destruct f; [done | lia].
      * apply IH. destruct f; lia.
    + intros Hall. rewrite (Hall 0 f eq_refl). cbn. apply IH.
      intros i f' Hi. by apply (Hall (S i)).
Qed.

Lemma secret_flags_lookup nS seen i :
  i < nS →
  secret_flags nS seen !! i = Some (bool_decide (constrained seen schema.Secret i)).
Proof.
  intros Hi. unfold secret_flags. rewrite list_lookup_fmap, lookup_seq_lt by done. done.
Qed.

Lemma public_flags_lookup nP seen i :
  i < nP →
  public_flags nP seen !! i
  = Some (bool_decide (i = 0 ∨ constrained seen schema.Public i)).
Proof.
  intros Hi. unfold public_flags. rewrite list_lookup_fmap, lookup_seq_lt by done. done.
Qed.

Lemma flags_ext (P Q : nat → Prop) `{∀ i, Decision (P i)} `{∀ i, Decision (Q i)}
    (n : nat) :
  (∀ i, i < n → (Q i ↔ P i)) →
  (λ i, bool_decide (Q i)) <$> seq 0 n = (λ i, bool_decide (P i)) <$> seq 0 n.
Proof.
  intros Hext. apply list_eq. intros i. rewrite !list_lookup_fmap.
  destruct (decide (i < n)) as [Hi | Hi].
  - rewrite lookup_seq_lt by done. cbn. f_equal. apply bool_decide_ext. by apply Hext.
  - rewrite lookup_seq_ge by lia. done.
Qed.

Lemma flags_insert (P Q : nat → Prop) `{∀ i, Decision (P i)} `{∀ i, Decision (Q i)}
    (n w : nat) :
  w < n → (∀ i, i < n → (Q i ↔ P i ∨ i = w)) →
  (λ i, bool_decide (Q i)) <$> seq 0 n
  = <[w := true]> ((λ i, bool_decide (P i)) <$> seq 0 n).
Proof.
  intros Hw Hext. apply list_eq. intros i.
  destruct (decide (i = w)) as [-> | Hne].
  - rewrite list_lookup_insert_eq by (by rewrite length_fmap, length_seq).
    rewrite list_lookup_fmap, lookup_seq_lt by done. cbn. f_equal.
    apply bool_decide_eq_true. apply Hext; auto.
  - rewrite list_lookup_insert_ne by done. rewrite !list_lookup_fmap.
    destruct (decide (i < n)) as [Hi | Hi].
    + rewrite lookup_seq_lt by done. cbn. f_equal. apply bool_decide_ext.
      rewrite (Hext i Hi). tauto.
    + rewrite lookup_seq_ge by lia. done.
Qed.

Lemma check_term_inv (hints : gmap nat Hint) (nS nP : nat)
    (seen : LinearExpression) (s : checkState) (t : Term) :
  check_inv hints nS nP seen s → term_in_range nS nP t →
  ∃ s', check_term hints s t = Some s'
        ∧ check_inv hints nS nP (seen ++ [t]) s'.
Proof.
  intros (HS & HP & HH & HcS & HcP & HcH) Hr.
  destruct t as [c w vis]. unfold check_term, term_in_range in *. cbn in *.
  (* a term that constrains nothing that is tracked changes no flag *)
  assert (∀ vis' w', ¬ constrains vis' w' (mkTerm c w vis) →
                     (constrained (seen ++ [mkTerm c w vis]) vis' w'
                      ↔ constrained seen vis' w')) as Hsame.
  { intros vis' w' Hn. rewrite constrained_snoc. tauto. }
  assert (∀ s0, s0 = s →
            (∀ i, i < nS → ¬ constrains schema.Secret i (mkTerm c w vis)) →
            (∀ i, 0 < i < nP → ¬ constrains schema.Public i (mkTerm c w vis)) →
            (∀ w', is_Some (hints !! w') → ¬ constrains Internal w' (mkTerm c w vis)) →
            check_inv hints nS nP (seen ++ [mkTerm c w vis]) s0) as Hkeep.
  { intros s0 -> HnS HnP HnH. unfold check_inv.
    split; [| split; [| split]].
    - rewrite HS. unfold secret_flags. symmetry. apply flags_ext.
      intros i Hi. apply Hsame. by apply HnS.
    - rewrite HP. unfold public_flags. symmetry. apply flags_ext.
      intros i Hi. destruct (decide (i = 0)) as [-> | Hne]; [tauto |].
      rewrite Hsame; [done |]. apply HnP. lia.
    - intros w'. rewrite HH. destruct (decide (is_Some (hints !! w'))) as [Hh | Hh].
      + erewrite bool_decide_ext; [done |]. rewrite Hsame; [done | by apply HnH].
      + rewrite !bool_decide_eq_false_2; tauto.
    - done. }
  destruct (c =? CoeffIdZero) eqn:Hc.
  { apply Nat.eqb_eq in Hc. exists s. split; [done |].
    apply Hkeep; [done | ..]; intros ? ? (Hne & _); done. }
  apply Nat.eqb_neq in Hc.
  destruct vis.
  - (* Unset *)
    exists s. split; [done |]. apply Hkeep; [done | ..]; intros ? ? (_ & ? & _); done.
  - (* Internal *)
    rewrite HH.
    destruct (decide (is_Some (hints !! w))) as [Hh | Hh].
    2: { rewrite (bool_decide_eq_false_2 (is_Some (hints !! w))) by done.
         rewrite bool_decide_eq_false_2 by tauto. cbn.
         exists s. split; [done |]. apply Hkeep; [done | ..].
         - intros ? ? (_ & ? & _); done.
         - intros ? ? (_ & ? & _); done.
         - intros w' Hw' (_ & _ & Hw). cbn in Hw. congruence. }
    rewrite (bool_decide_eq_true_2 (is_Some (hints !! w))) by done.
    destruct (decide (constrained seen Internal w)) as [Hseen | Hnew].
    + rewrite bool_decide_eq_true_2 by done. cbn.
      exists s. split; [done |]. unfold check_inv.
      split; [| split; [| split]]; [| | | done].
      * rewrite HS. unfold secret_flags. symmetry. apply flags_ext.
        intros i Hi. apply Hsame. intros (_ & ? & _); done.
      * rewrite HP. unfold public_flags. symmetry. apply flags_ext.
        intros i Hi. rewrite Hsame; [done |]. intros (_ & ? & _); done.
      * intros w'. rewrite HH. apply f_equal with (f := λ b : bool, if b then Some true else None).
        apply bool_decide_ext. rewrite constrained_snoc.
        split; [tauto |]. intros [Hh' [? | (_ & _ & Hw)]]; [done |].
        cbn in Hw. subst w'. done.
    + rewrite bool_decide_eq_false_2 by tauto. cbn.
      eexists. split; [reflexivity |]. unfold check_inv. cbn.
      assert (mHintsConstrained s !! w = None) as Hnone.
      { rewrite HH. by rewrite bool_decide_eq_false_2 by tauto. }
      split; [| split; [| split; [| split; [| split]]]]; try done.
      * rewrite HS. unfold secret_flags. symmetry. apply flags_ext.
        intros i Hi. apply Hsame. intros (_ & ? & _); done.
      * rewrite HP. unfold public_flags. symmetry. apply flags_ext.
        intros i Hi. rewrite Hsame; [done |]. intros (_ & ? & _); done.
      * intros w'. destruct (decide (w' = w)) as [-> | Hne].
        -- rewrite lookup_insert_eq. rewrite bool_decide_eq_true_2; [done |].
           split; [done |]. apply constrained_snoc. right. done.
        -- rewrite lookup_insert_ne by done. rewrite HH.
           apply f_equal with (f := λ b : bool, if b then Some true else None).
           apply bool_decide_ext. rewrite constrained_snoc.
           split; [tauto |]. intros [Hh' [? | (_ & _ & Hw)]]; [done |].
           cbn in Hw. congruence.
      * rewrite map_size_insert_None by done. lia.
  - (* Secret *)
    rewrite HS, secret_flags_lookup by done. cbn.
    destruct (decide (constrained seen schema.Secret w)) as [Hseen | Hnew].
    + rewrite bool_decide_eq_true_2 by done. cbn.
      exists s. split; [done |]. unfold check_inv.
      split; [| split; [| split]]; [| | | done].
      * rewrite HS. unfold secret_flags. symmetry. apply flags_ext.
        intros i Hi. rewrite constrained_snoc. split; [| tauto].
        intros [? | (_ & _ & Hw)]; [done |]. cbn in Hw. by subst i.
      * rewrite HP. unfold public_flags. symmetry. apply flags_ext.
        intros i Hi. rewrite Hsame; [done |]. intros (_ & ? & _); done.
      * intros w'. rewrite HH.
        apply f_equal with (f := λ b : bool, if b then Some true else None).
        apply bool_decide_ext. rewrite Hsame; [done |]. intros (_ & ? & _); done.
    + rewrite bool_decide_eq_false_2 by done. cbn.
      eexists. split; [reflexivity |]. unfold check_inv. cbn.
      split; [| split; [| split; [| split; [| split]]]]; try done.
      * symmetry. unfold secret_flags. apply flags_insert; [done |].
        intros i Hi. rewrite constrained_snoc. unfold constrains. cbn.
        split; [intros [? | (_ & _ & ?)]; auto | intros [? | ->]; auto].
      * rewrite HP. unfold public_flags. symmetry. apply flags_ext.
        intros i Hi. rewrite Hsame; [done |]. intros (_ & ? & _); done.
      * intros w'. rewrite HH.
        apply f_equal with (f := λ b : bool, if b then Some true else None).
        apply bool_decide_ext. rewrite Hsame; [done |]. intros (_ & ? & _); done.
      * assert (secret_flags nS seen !! w = Some false) as Hf.
        { rewrite secret_flags_lookup by done. by rewrite bool_decide_eq_false_2. }
        pose proof (count_false_insert _ _ Hf). rewrite HS in HcS. unfold count_false in *. lia.
  - (* Public *)
    destruct (w =? 0) eqn:Hw0; cbn.
    { apply Nat.eqb_eq in Hw0. subst w. exists s. split; [done |]. unfold check_inv.
      split; [| split; [| split]]; [| | | done].
      * rewrite HS. unfold secret_flags. symmetry. apply flags_ext.
        intros i Hi. apply Hsame. intros (_ & ? & _); done.
      * rewrite HP. unfold public_flags. symmetry. apply flags_ext.
        intros i Hi. rewrite constrained_snoc. unfold constrains. cbn.
        split; [| tauto]. intros [? | [? | (_ & _ & ?)]]; auto.
      * intros w'. rewrite HH.
        apply f_equal with (f := λ b : bool, if b then Some true else None).
        apply bool_decide_ext. rewrite Hsame; [done |]. intros (_ & ? & _); done. }
    apply Nat.eqb_neq in Hw0.
    rewrite HP, public_flags_lookup by done. cbn.
    destruct (decide (w = 0 ∨ constrained seen schema.Public w)) as [Hseen | Hnew].
    + rewrite bool_decide_eq_true_2 by done. cbn.
      exists s. split; [done |]. unfold check_inv.
      split; [| split; [| split]]; [| | | done].
      * rewrite HS. unfold secret_flags. symmetry. apply flags_ext.
        intros i Hi. apply Hsame. intros (_ & ? & _); done.
      * rewrite HP. unfold public_flags. symmetry. apply flags_ext.
        intros i Hi. rewrite constrained_snoc. split; [| tauto].
        intros [? | [? | (_ & _ & Hw)]]; auto. cbn in Hw. subst i. tauto.
      * intros w'. rewrite HH.
        apply f_equal with (f := λ b : bool, if b then Some true else None).
        apply bool_decide_ext. rewrite Hsame; [done |]. intros (_ & ? & _); done.
    + rewrite bool_decide_eq_false_2 by done. cbn.
      eexists. split; [reflexivity |]. unfold check_inv. cbn.
      split; [| split; [| split; [| split; [| split]]]]; try done.
      * rewrite HS. unfold secret_flags. symmetry. apply flags_ext.
        intros i Hi. apply Hsame. intros (_ & ? & _); done.
      * symmetry. unfold public_flags. apply flags_insert; [done |].
        intros i Hi. rewrite constrained_snoc. unfold constrains. cbn.
        split; [intros [? | [? | (_ & _ & ?)]]; auto | intros [[? | ?] | ->]; auto].
      * intros w'. rewrite HH.
        apply f_equal with (f := λ b : bool, if b then Some true else None).
        apply bool_decide_ext. rewrite Hsame; [done |]. intros (_ & ? & _); done.
      * assert (public_flags nP seen !! w = Some false) as Hf.
        { rewrite public_flags_lookup by done. by rewrite bool_decide_eq_false_2. }
        pose proof (count_false_insert _ _ Hf). rewrite HP in HcP. unfold count_false in *. lia.
Qed.

Lemma processLinearExpression_inv (hints : gmap nat Hint) (nS nP : nat)
    (l : LinearExpression) :
  ∀ seen s,
  check_inv hints nS nP seen s → Forall (term_in_range nS nP) l →
  ∃ s', processLinearExpression hints l s = Some s'
        ∧ check_inv hints nS nP (seen ++ l) s'.
Proof.
  induction l as [| t l IH]; intros seen s Hinv Hr; cbn.
  - exists s. by rewrite app_nil_r.
  - apply Forall_cons in Hr as [Ht Hr].
    destruct (check_term_inv _ _ _ _ _ t Hinv Ht) as (s1 & -> & Hinv1). cbn.
    destruct (IH _ _ Hinv1 Hr) as (s' & Hrun & Hinv').
    exists s'. split; [done |]. by rewrite <- app_assoc in Hinv'.
Qed.

Lemma all_constrained_app (hints : gmap nat Hint) (nS nP : nat)
    (l1 l2 : LinearExpression) :
  all_constrained hints nS nP l1 → all_constrained hints nS nP (l1 ++ l2).
Proof.
  intros (HS & HP & HH). unfold all_constrained.
  repeat split; intros; apply constrained_app; left; auto.
Qed.

Lemma counters_zero_iff (hints : gmap nat Hint) (nS nP : nat)
    (seen : LinearExpression) (s : checkState) :
  check_inv hints nS nP seen s →
  (Z.lor (Z.lor (cptHints s) (cptSecret s)) (cptPublic s) =? 0)%Z = true
  ↔ all_constrained hints nS nP seen.
Proof.
  intros (HS & HP & HH & HcS & HcP & HcH).
  rewrite Z.eqb_eq, !Z.lor_eq_0_iff.
  assert (dom (mHintsConstrained s) ⊆ dom hints) as Hsub.
  { intros w Hw. apply elem_of_dom in Hw as [v Hv]. rewrite HH in Hv.
    destruct (bool_decide _) eqn:Hb; [| done].
    apply bool_decide_eq_true in Hb as [Hh _]. by apply elem_of_dom. }
  assert (size (mHintsConstrained s) ≤ size hints) as Hle.
  { rewrite <- !size_dom. by apply subseteq_size. }
  assert (cptHints s = 0%Z ↔ ∀ w, is_Some (hints !! w) → constrained seen Internal w)
    as ->.
  { split.
    - intros Hz w Hw.
      assert (dom (mHintsConstrained s) = dom hints) as Heq.
      { apply set_subseteq_size_eq; [done |]. rewrite !size_dom. lia. }
      assert (w ∈ dom (mHintsConstrained s)) as Hin by (rewrite Heq; by apply elem_of_dom).
      apply elem_of_dom in Hin as [v Hv]. rewrite HH in Hv.
      destruct (bool_decide _) eqn:Hb; [| done].
      by apply bool_decide_eq_true in Hb as [_ ?].
    - intros Hall.
      assert (dom hints ⊆ dom (mHintsConstrained s)) as Hsup.
      { intros w Hw. apply elem_of_dom in Hw. apply elem_of_dom. rewrite HH.
        rewrite bool_decide_eq_true_2 by auto. eauto. }
      apply subseteq_size in Hsup. rewrite !size_dom in Hsup. lia. }
  assert (cptSecret s = 0%Z ↔ ∀ i, i < nS → constrained seen schema.Secret i) as ->.
  { rewrite HcS, HS. split.
    - intros Hz i Hi. assert (count_false (secret_flags nS seen) = 0) as H0 by lia.
      pose proof (proj1 (count_false_0 _) H0 i _ (secret_flags_lookup nS seen i Hi)) as Hb.
      by apply bool_decide_eq_true in Hb.
    - intros Hall. apply (f_equal Z.of_nat (y := 0)). apply count_false_0.
      intros i f Hf. pose proof (lookup_lt_Some _ _ _ Hf) as Hlt.
      unfold secret_flags in Hlt. rewrite length_fmap, length_seq in Hlt.
      rewrite secret_flags_lookup in Hf by done. injection Hf as <-.
      apply bool_decide_eq_true. auto. }
  assert (cptPublic s = 0%Z ↔ ∀ i, 0 < i < nP → constrained seen schema.Public i) as ->.
  { rewrite HcP, HP. split.
    - intros Hz i Hi. assert (count_false (public_flags nP seen) = 0) as H0 by lia.
      assert (i < nP) as Hi' by lia.
      pose proof (proj1 (count_false_0 _) H0 i _ (public_flags_lookup nP seen i Hi')) as Hb.
      apply bool_decide_eq_true in Hb as [? | ?]; [lia | done].
    - intros Hall. apply (f_equal Z.of_nat (y := 0)). apply count_false_0.
      intros i f Hf. pose proof (lookup_lt_Some _ _ _ Hf) as Hlt.
      unfold public_flags in Hlt. rewrite length_fmap, length_seq in Hlt.
      rewrite public_flags_lookup in Hf by done. injection Hf as <-.
      apply bool_decide_eq_true. destruct (decide (i = 0)); [by left |].
      right. apply Hall. lia. }
  unfold all_constrained. tauto.
Qed.

Lemma check_constraints_inv (hints : gmap nat Hint) (nS nP : nat) (l : list R1C) :
  ∀ seen s,
  check_inv hints nS nP seen s →
  Forall (λ c, Forall (term_in_range nS nP) (terms_of c)) l →
  ∃ r, check_constraints hints l s = Some r
       ∧ match r with
         | inr _ => l ≠ [] ∧ all_constrained hints nS nP (seen ++ all_terms l)
         | inl s' =>
             check_inv hints nS nP (seen ++ all_terms l) s'
             ∧ (l ≠ [] → ¬ all_constrained hints nS nP (seen ++ all_terms l))
         end.
Proof.
  induction l as [| c l IH]; intros seen s Hinv Hr; cbn [check_constraints].
  - exists (inl s). split; [done |]. unfold all_terms. cbn. rewrite app_nil_r. done.
  - apply Forall_cons in Hr as [Hc Hr]. unfold terms_of in Hc.
    apply Forall_app in Hc as [HL Hc]. apply Forall_app in Hc as [HR HO].
    destruct (processLinearExpression_inv _ _ _ _ _ _ Hinv HL) as (s1 & -> & I1).
    cbn [mbind option_bind].
    destruct (processLinearExpression_inv _ _ _ _ _ _ I1 HR) as (s2 & -> & I2).
    cbn [mbind option_bind].
    destruct (processLinearExpression_inv _ _ _ _ _ _ I2 HO) as (s3 & -> & I3).
    cbn [mbind option_bind].
    assert (seen ++ all_terms (c :: l) = (seen ++ terms_of c) ++ all_terms l) as Hterms.
    { unfold all_terms. cbn. by rewrite app_assoc. }
    assert (((seen ++ LinExp (R1C_L c)) ++ LinExp (R1C_R c)) ++ LinExp (R1C_O c)
            = seen ++ terms_of c) as Hc3.
    { unfold terms_of. by rewrite <- !app_assoc. }
    rewrite Hc3 in I3.
    destruct (Z.lor _ _ =? 0)%Z eqn:Hz.
    + exists (inr tt). split; [done |]. split; [done |].
      rewrite Hterms. apply all_constrained_app.
      by apply (counters_zero_iff _ _ _ _ _ I3).
    + destruct (IH _ _ I3 Hr) as (r & -> & Hres). exists r. split; [done |].
      rewrite Hterms. destruct r as [s' | []].
      * destruct Hres as [I' Hne]. split; [done |]. intros _.
        destruct l as [| c' l']; [| by apply Hne].
        unfold all_terms. cbn. rewrite app_nil_r.
        rewrite <- (counters_zero_iff _ _ _ _ _ I3). by rewrite Hz.
      * by destruct Hres as [_ ?].
Qed.

Lemma unmarked_names_none (flags : list bool) :
  ∀ names, count_false flags = 0 → unmarked_names flags names = [].
Proof.
  induction flags as [| f flags IH]; intros names; [done |].
  rewrite count_false_cons. destruct f; [| cbn; lia].
  cbn. intros H0. destruct names; [done |]. by apply IH.
Qed.

Lemma unconstrained_names_spec (names : list string) (flags : list bool) :
  ∀ i, i + length flags ≤ length names →
  unconstrained_names flags names i (Z.of_nat (count_false flags))
  = Some (name_lines flags (drop i names)).
Proof.
  unfold name_lines.
  induction flags as [| f flags IH]; intros i Hlen; [done |].
  cbn [unconstrained_names]. cbn [length] in Hlen.
  destruct (Z.of_nat (count_false (f :: flags)) =? 0)%Z eqn:Hz.
  { apply Z.eqb_eq in Hz. rewrite unmarked_names_none by lia. done. }
  assert (i < length names) as Hi by lia.
  destruct (lookup_lt_is_Some_2 _ _ Hi) as [n Hn].
  rewrite (drop_S _ _ _ Hn). rewrite count_false_cons in *.
  destruct f; cbn [negb unmarked_names].
  - replace (Z.of_nat (0 + count_false flags)) with (Z.of_nat (count_false flags)) by lia.
    rewrite IH by lia. done.
  - rewrite Hn. cbn [mbind option_bind].
    replace (Z.of_nat (1 + count_false flags) - 1)%Z
      with (Z.of_nat (count_false flags)) by lia.
    rewrite IH by lia. done.
Qed.

Lemma count_false_replicate (n : nat) : count_false (replicate n false) = n.
Proof.
  induction n as [| n IH]; [done |]. cbn [replicate]. rewrite count_false_cons. lia.
Qed.

Lemma constrained_nil vis w : ¬ constrained [] vis w.
Proof. unfold constrained. intros He. by apply Exists_nil in He. Qed.

Lemma check_init_inv (system : compiler) :
  Public (ConstraintSystem system) ≠ [] →
  ∃ s, check_init system = Some s
       ∧ check_inv (MHints (ConstraintSystem system))
           (length (Secret (ConstraintSystem system)))
           (length (Public (ConstraintSystem system))) [] s.
Proof.
  intros Hp. unfold check_init.
  destruct (Public (ConstraintSystem system)) as [| p0 ps] eqn:HP; [done |].
  cbn [length Nat.eqb]. eexists. split; [reflexivity |].
  unfold check_inv.
  cbn [secretConstrained publicConstrained mHintsConstrained cptSecret cptPublic cptHints].
  change (<[0 := true]> (replicate (S (length ps)) false))
    with (true :: replicate (length ps) false).
  split; [| split; [| split; [| split; [| split]]]].
  - unfold secret_flags. apply list_eq. intros i. rewrite list_lookup_fmap.
    destruct (decide (i < length (Secret (ConstraintSystem system)))) as [Hi | Hi].
    + rewrite lookup_seq_lt by done. rewrite lookup_replicate_2 by done.
      reflexivity.
    + rewrite lookup_seq_ge by lia. apply lookup_replicate_None. lia.
  - unfold public_flags. cbn. f_equal.
    apply list_eq. intros i. rewrite list_lookup_fmap.
    destruct (decide (i < length ps)) as [Hi | Hi].
    + rewrite lookup_seq_lt by done. rewrite lookup_replicate_2 by done.
      reflexivity.
    + rewrite lookup_seq_ge by lia. apply lookup_replicate_None. lia.
  - intros w. rewrite lookup_empty. rewrite bool_decide_eq_false_2; [done |].
    intros [_ ?]. by eapply constrained_nil.
  - by rewrite count_false_replicate.
  - rewrite count_false_cons, count_false_replicate. lia.
  - rewrite map_size_empty. lia.
Qed.

Lemma marked_hints_size (hints : gmap nat Hint) (nS nP : nat)
    (seen : LinearExpression) (s : checkState) :
  check_inv hints nS nP seen s →
  size (mHintsConstrained s)
  = size (filter (λ e : nat * Hint, constrained seen Internal e.1) hints).
Proof.
  intros (_ & _ & HH & _). rewrite <- !size_dom. f_equal.
  apply set_eq. intros w. rewrite !elem_of_dom. rewrite HH.
  split.
  - destruct (bool_decide _) eqn:Hb; [| by intros [? ?]].
    apply bool_decide_eq_true in Hb as [[h Hh] Hc]. intros _. exists h.
    by apply map_lookup_filter_Some.
  - intros [h Hh]. apply map_lookup_filter_Some in Hh as [Hh Hc]. cbn in Hc.
    rewrite bool_decide_eq_true_2; eauto.
Qed.

Lemma error_pieces_spec (system : compiler) (seen : LinearExpression)
    (s : checkState) :
  check_inv (MHints (ConstraintSystem system))
    (length (Secret (ConstraintSystem system)))
    (length (Public (ConstraintSystem system))) seen s →
  error_pieces system s = Some (error_lines system seen).
Proof.
  intros Hinv. pose proof (marked_hints_size _ _ _ _ _ Hinv) as Hsize.
  assert (size (mHintsConstrained s) ≤ size (MHints (ConstraintSystem system))) as Hle.
  { rewrite Hsize. apply map_subseteq_size, map_filter_subseteq. }
  destruct Hinv as (HS & HP & HH & HcS & HcP & HcH).
  unfold error_pieces, error_lines, unconstrained_hints. rewrite <- Hsize.
  rewrite HcS, HcP, HcH, HS, HP.
  assert (∀ n : nat, (Z.of_nat n =? 0)%Z = bool_decide (n = 0)) as Hz.
  { intros n. destruct (decide (n = 0)) as [-> | Hn].
    - by rewrite bool_decide_eq_true_2.
    - rewrite bool_decide_eq_false_2 by done. apply Z.eqb_neq. lia. }
  rewrite !Hz.
  replace (Z.of_nat (size (MHints (ConstraintSystem system)))
           - Z.of_nat (size (mHintsConstrained s)))%Z
    with (Z.of_nat (size (MHints (ConstraintSystem system))
                    - size (mHintsConstrained s))) by lia.
  rewrite Hz.
  rewrite (unconstrained_names_spec (Secret (ConstraintSystem system)) (secret_flags _ seen) 0)
    by (unfold secret_flags; rewrite length_fmap, length_seq; lia).
  rewrite (unconstrained_names_spec (Public (ConstraintSystem system)) (public_flags _ seen) 0)
    by (unfold public_flags; rewrite length_fmap, length_seq; lia).
  cbn [drop].
  destruct (decide (count_false (secret_flags _ seen) = 0)) as [E1 | E1];
    [rewrite (bool_decide_eq_true_2 _ E1) | rewrite (bool_decide_eq_false_2 _ E1)];
    destruct (decide (count_false (public_flags _ seen) = 0)) as [E2 | E2];
    [rewrite (bool_decide_eq_true_2 _ E2) | rewrite (bool_decide_eq_false_2 _ E2)
    | rewrite (bool_decide_eq_true_2 _ E2) | rewrite (bool_decide_eq_false_2 _ E2)];
    destruct (decide (size (MHints (ConstraintSystem system))
                      - size (mHintsConstrained s) = 0)) as [E3 | E3];
    rewrite ?(bool_decide_eq_true_2 _ E3), ?(bool_decide_eq_false_2 _ E3);
    reflexivity.
Qed.

(** What [checkVariables] returns when there is a constraint: [nil] when
    every tracked wire is constrained, and otherwise the error whose
    message lists the inputs that are not. *)
Lemma checkVariables_cases (system : compiler) :
  Public (ConstraintSystem system) ≠ [] →
  constraints_in_range system →
  Constraints system ≠ [] →
  (inputs_constrained system ∧ checkVariables system = Some None)
  ∨ (¬ inputs_constrained system
     ∧ checkVariables system
       = Some (Some (String.concat ""
                       (error_lines system (all_terms (Constraints system)))))).
Proof.
  intros Hp Hr Hne. unfold checkVariables, inputs_constrained.
  destruct (check_init_inv system Hp) as (s0 & -> & I0). cbn [mbind option_bind].
  destruct (check_constraints_inv _ _ _ _ _ _ I0 Hr) as (r & -> & Hres).
  cbn [mbind option_bind app] in *. destruct r as [s' | []].
  - destruct Hres as [I' Hn]. right. split; [by apply Hn |].
    by rewrite (error_pieces_spec system _ s' I').
  - destruct Hres as [_ Hall]. left. done.
Qed.

(** With no constraint [checkVariables] returns an error in every case. *)
Lemma checkVariables_no_constraint (system : compiler) :
  Public (ConstraintSystem system) ≠ [] →
  Constraints system = [] →
  checkVariables system
  = Some (Some (String.concat "" (error_lines system []))).
Proof.
  intros Hp Hc. unfold checkVariables.
  destruct (check_init_inv system Hp) as (s0 & -> & I0). cbn [mbind option_bind].
  rewrite Hc. cbn [check_constraints mbind option_bind].
  by rewrite (error_pieces_spec system _ s0 I0).
Qed.

(** When there is a constraint, [Compile] returns an error exactly when an
    input or a hint wire is not constrained, and the message lists the
    inputs that are not. *)
Lemma Compile_error_iff (fuel : nat) (order : list (nat * Hint))
    (system : compiler) :
  frontend.IgnoreUnconstrainedInputs (config system) = false →
  Public (ConstraintSystem system) ≠ [] →
  constraints_in_range system →
  Constraints system ≠ [] →
  ((∃ msg, Compile fuel order system = Some (None, Some msg))
   ↔ ¬ inputs_constrained system)
  ∧ (¬ inputs_constrained system →
     Compile fuel order system
     = Some (None,
             Some (String.concat ""
                     (error_lines system (all_terms (Constraints system)))))).
Proof.
  intros Hcfg Hp Hr Hne. unfold Compile. rewrite Hcfg. cbn [negb].
  destruct (checkVariables_cases system Hp Hr Hne) as [[Hall ->] | [Hnot ->]];
    cbn [mbind option_bind].
  - split; [| done]. split; [| done]. intros [msg Hm]. exfalso.
    destruct (buildLevels fuel (offset_system order system)); [| done].
    cbn [mbind option_bind] in Hm.
    by destruct (CurveID (ConstraintSystem system)).
  - split; [| done]. split; [done | eauto].
Qed.

Example error_message_example :
  checkVariables
    (default demo_start
       (run_calls (newCompiler ecc.BN254 (frontend.mkCompileConfig 0 false))
          demo_calls))
  = Some (Some (String.concat ""
      ["3"; " unconstrained secret input(s):"; nl;
       "s0"; nl; "s1"; nl; "s3"; nl; nl;
       "1"; " unconstrained public input(s):"; nl;
       "b"; nl; nl;
       "3"; " unconstrained hints"; nl])).
Proof. vm_compute. reflexivity. Qed.

(** ** The GKR gates and the outputs of the GKR hints *)

Lemma loop_from_2_pow (op : Z → Z → Z) (x : list Z) (c : Z) :
  x !! 2 = Some c →
  ∀ n k r, foldl (λ acc _, r ← acc; x2 ← x !! 2; Some (op r x2)) (Some r) (seq k n)
           = Some (Nat.iter n (λ r, op r c) r).
Proof.
  intros Hc n. set (f := λ (acc : option Z) (_ : nat), _).
  induction n as [| n IH]; intros k r; [done |].
  cbn [seq foldl].
  replace (f (Some r) k) with (Some (op r c))
    by (unfold f; cbn [mbind option_bind]; by rewrite Hc).
  rewrite IH. by rewrite Nat.iter_succ_r.
Qed.

Lemma iter_Mul (c v : Z) (n : nat) :
  Nat.iter n (λ r, fr.Mul r c) (v mod fr.Modulus)%Z
  = ((v * c ^ Z.of_nat n) mod fr.Modulus)%Z.
Proof.
  induction n as [| n IH].
  - cbn. by rewrite Z.mul_1_r.
  - rewrite Nat.iter_succ, IH. unfold fr.Mul. rewrite Z.mul_mod_idemp_l by done.
    f_equal. rewrite Nat2Z.inj_succ, Z.pow_succ_r by lia. lia.
Qed.

(** X1: the multiplication gate of degree [g] panics unless it is given
    exactly [g] inputs; on no input it returns 1, on one input that input,
    and on two inputs or more the product of the first two with the third
    raised to the number of inputs beyond two, since the loop reads [x[2]]
    at every round: with four inputs or more this is not the product of the
    inputs. *)
Theorem mulGate_Evaluate_spec (g : Z) (x : list fr.Element) :
  (Z.of_nat (length x) ≠ g → gkr.Evaluate (gkr.mulGate g) x = None)
  ∧ (Z.of_nat (length x) = g →
     gkr.Evaluate (gkr.mulGate g) x
     = Some (match x with
             | [] => 1%Z
             | [a] => a
             | a :: b :: rest =>
                 ((a * b * default 0 (head rest) ^ Z.of_nat (length rest))
                    mod fr.Modulus)%Z
             end))
  ∧ gkr.Evaluate (gkr.mulGate 4) [1; 1; 2; 3]%Z = Some 4%Z.
Proof.
  cbn [gkr.Evaluate]. unfold gkr.mulGate_Evaluate. split; [| split].
  - intros Hne. by rewrite (proj2 (Z.eqb_neq _ _) Hne).
  - intros He. rewrite (proj2 (Z.eqb_eq _ _) He). cbn [negb].
    destruct x as [| a [| b rest]]; [done | done |].
    cbn [length lookup list_lookup mbind option_bind].
    unfold gkr.loop_from_2.
    replace (length (a :: b :: rest) - 2) with (length rest) by (cbn; lia).
    destruct rest as [| c rest]; [cbn; by rewrite Z.mul_1_r |].
    rewrite (loop_from_2_pow _ _ c) by done.
    unfold fr.Mul at 2. by rewrite iter_Mul.
  - vm_compute. reflexivity.
Qed.

Lemma mulGate_Evaluate_spec_witness :
  gkr.Evaluate (gkr.mulGate 2) [3; 5]%Z = Some 15%Z.
Proof.
  assert (Z.of_nat (length [3; 5]%Z) = 2%Z) as H by reflexivity.
  exact (proj1 (proj2 (mulGate_Evaluate_spec 2 [3; 5]%Z)) H).
Defined.

(** X2: the subtraction gate returns a value on exactly two inputs (with
    more it panics by its guard, with fewer by an index out of range), and
    that value is what the addition gate returns on the first input and
    the negation gate's result on the second; the negation gate returns
    a value on exactly one input, and negating twice gives back an element
    in canonical form. *)
Theorem subGate_Evaluate_spec (x : list fr.Element) :
  (length x ≠ 2 → gkr.Evaluate gkr.subGate x = None)
  ∧ (∀ a b, x = [a; b] →
       gkr.Evaluate gkr.subGate x = Some ((a - b) mod fr.Modulus)%Z
       ∧ gkr.Evaluate gkr.subGate x
         = (nb ← gkr.Evaluate gkr.negGate [b]; gkr.Evaluate gkr.addGate [a; nb]))
  ∧ (length x ≠ 1 → gkr.Evaluate gkr.negGate x = None)
  ∧ (∀ a, x = [a] → (0 ≤ a < fr.Modulus)%Z →
       (na ← gkr.Evaluate gkr.negGate x; gkr.Evaluate gkr.negGate [na]) = Some a).
Proof.
  split; [| split; [| split]].
  - destruct x as [| a [| b [| c rest]]]; cbn; try done.
  - intros a b ->. split; [done |]. cbn.
    unfold gkr.loop_from_2. cbn. f_equal. unfold fr.Sub, fr.Add, fr.Neg.
    rewrite Z.add_mod_idemp_r by done. f_equal; lia.
  - destruct x as [| a [| b rest]]; cbn; try done.
  - intros a -> Ha. cbn. f_equal. unfold fr.Neg.
    rewrite <- (Z.mod_small a fr.Modulus) at 2 by done.
    destruct (decide (a = 0%Z)) as [-> | Hne]; [done |].
    rewrite (Z.mod_opp_l_nz a) by (rewrite ?Z.mod_small by done; done).
    rewrite (Z.mod_small a) by done.
    rewrite Z.mod_opp_l_nz; [| done |].
    + rewrite (Z.mod_small (fr.Modulus - a)) by lia. lia.
    + rewrite Z.mod_small by lia. lia.
Qed.

Lemma subGate_Evaluate_spec_witness :
  gkr.Evaluate gkr.subGate [3; 5; 7]%Z = None
  ∧ gkr.Evaluate gkr.subGate [3; 5]%Z = Some ((3 - 5) mod fr.Modulus)%Z.
Proof.
  split.
  - apply (proj1 (subGate_Evaluate_spec [3; 5; 7]%Z)). cbn. lia.
  - apply (proj1 (proj2 (subGate_Evaluate_spec [3; 5]%Z)) 3%Z 5%Z). reflexivity.
Defined.

Lemma write_outs_written (row : list Z) :
  ∀ outs k, k ≤ length outs → write_outs row outs k = written row outs k.
Proof.
  unfold written.
  induction row as [| e row IH]; intros outs k Hk; cbn [write_outs length].
  - rewrite Nat.add_0_r. rewrite (proj2 (Nat.leb_le _ _)) by lia. cbn [app].
    by rewrite take_drop.
  - destruct (k <? length outs) eqn:Hlt.
    + apply Nat.ltb_lt in Hlt. rewrite IH by (rewrite length_insert; lia).
      rewrite length_insert.
      replace (k + S (length row)) with (S k + length row) by lia.
      destruct (S k + length row <=? length outs) eqn:Hle; [| done].
      apply Nat.leb_le in Hle. f_equal. f_equal.
      rewrite (take_S_r _ _ e) by (by rewrite list_lookup_insert_eq).
      rewrite take_insert_ge by lia. rewrite <- app_assoc. cbn [app].
      by rewrite drop_insert_lt by lia.
    + apply Nat.ltb_ge in Hlt. by rewrite (proj2 (Nat.leb_gt _ _)) by lia.
Qed.

(** X3: [frToBigInts(dst, src)] panics when [dst] is shorter than [src],
    and otherwise overwrites the first [len(src)] integers of [dst] with
    the elements of [src], in order, and leaves the others. *)
Theorem frToBigInts_spec (dst : list Z) (src : list fr.Element) :
  frToBigInts dst src
  = if length src <=? length dst
    then Some (src ++ drop (length src) dst)
    else None.
Proof.
  unfold frToBigInts. rewrite write_outs_written by lia.
  unfold written, fr.Element. cbn [Nat.add take app].
  by destruct (_ <=? _).
Qed.
Lemma write_at_written (outs : list Z) (offset : nat) (poly : list fr.Element) :
  offset ≤ length outs →
  write_at outs offset poly = written poly outs offset.
Proof.
  intros Hk. unfold write_at, frToBigInts.
  rewrite (proj2 (Nat.ltb_ge _ _)) by lia.
  rewrite write_outs_written by lia. unfold written.
  rewrite length_drop. unfold fr.Element in *. cbn [Nat.add take app].
  destruct (offset + length poly <=? length outs) eqn:Hle.
  - apply Nat.leb_le in Hle. rewrite (proj2 (Nat.leb_le _ _)) by lia.
    cbn [fmap option_fmap option_map fst mbind option_bind].
    by rewrite drop_drop.
  - apply Nat.leb_gt in Hle. by rewrite (proj2 (Nat.leb_gt _ _)) by lia.
Qed.

Lemma written_nil (outs : list Z) (k : nat) :
  k ≤ length outs → written [] outs k = Some (outs, k).
Proof.
  intros Hk. unfold written. cbn [length app]. rewrite !Nat.add_0_r.
  rewrite (proj2 (Nat.leb_le _ _)) by lia. by rewrite take_drop.
Qed.

Lemma written_Some (data outs outs' : list Z) (k k' : nat) :
  written data outs k = Some (outs', k') →
  length outs' = length outs ∧ k' = k + length data ∧ k' ≤ length outs'.
Proof.
  unfold written. destruct (_ <=? _) eqn:Hle; [| done]. apply Nat.leb_le in Hle.
  intros [= <- <-]. rewrite !length_app, length_take, length_drop. lia.
Qed.

Lemma written_app (d1 d2 outs : list Z) (k : nat) :
  k ≤ length outs →
  ('(outs', k') ← written d1 outs k; written d2 outs' k')
  = written (d1 ++ d2) outs k.
Proof.
  intros Hk. unfold written. rewrite length_app.
  destruct (k + length d1 <=? length outs) eqn:Hle.
  - apply Nat.leb_le in Hle. cbn [mbind option_bind].
    rewrite !length_app, length_take, length_drop.
    replace (k `min` length outs + (length d1 + (length outs - (k + length d1))))
      with (length outs) by lia.
    replace (k + (length d1 + length d2)) with (k + length d1 + length d2) by lia.
    destruct (k + length d1 + length d2 <=? length outs) eqn:Hle'; [| done].
    apply Nat.leb_le in Hle'. f_equal. f_equal.
    rewrite (app_assoc (take k outs) d1).
    rewrite take_app_length' by (rewrite length_app, length_take; lia).
    rewrite <- !app_assoc. f_equal. f_equal. f_equal.
    rewrite (app_assoc (take k outs) d1).
    rewrite drop_app_ge by (rewrite length_app, length_take; lia).
    rewrite length_app, length_take, drop_drop. f_equal. lia.
  - apply Nat.leb_gt in Hle. cbn [mbind option_bind].
    by rewrite (proj2 (Nat.leb_gt _ _)) by lia.
Qed.

Lemma setOuts_from_spec {GkrWire : Type} (IsOutput : GkrWire → bool)
    (a : list (list fr.Element)) (circuit : list GkrWire) :
  ∀ i outs k, k ≤ length outs →
  setOuts_from GkrWire IsOutput i circuit a outs k
  = rows ← output_rows GkrWire IsOutput i circuit a;
    fst <$> written (concat rows) outs k.
Proof.
  induction circuit as [| w circuit IH]; intros i outs k Hk;
    cbn [setOuts_from output_rows]; unfold fr.Element in *.
  - cbn [mbind option_bind concat]. by rewrite written_nil.
  - destruct (IsOutput w); [| by apply IH].
    destruct (a !! i) as [row |]; [| done]. cbn [mbind option_bind].
    rewrite write_outs_written by done.
    destruct (output_rows GkrWire IsOutput (S i) circuit a) as [rows |] eqn:Hrows.
    + cbn [mbind option_bind concat]. rewrite <- written_app by done.
      destruct (written row outs k) as [[o1 k1] |] eqn:H1; [| done].
      cbn [mbind option_bind]. apply written_Some in H1 as (L1 & E1 & B1).
      rewrite IH by done. by rewrite Hrows.
    + cbn [mbind option_bind].
      destruct (written row outs k) as [[o1 k1] |] eqn:H1; [| done].
      cbn [mbind option_bind]. apply written_Some in H1 as (L1 & E1 & B1).
      rewrite IH by done. by rewrite Hrows.
Qed.

(** X4: [setOuts] panics when the assignment has no row for an output wire
    of the circuit or when [outs] is shorter than the rows of the output
    wires taken together; otherwise it overwrites the head of [outs] with
    these rows, wire after wire and instance after instance, and leaves the
    rest: it does not check that [outs] is used up. *)
Theorem setOuts_spec {GkrWire : Type} (IsOutput : GkrWire → bool)
    (a : list (list fr.Element)) (circuit : list GkrWire) (outs : list Z) :
  setOuts GkrWire IsOutput a circuit outs
  = rows ← output_rows GkrWire IsOutput 0 circuit a;
    if length (concat rows) <=? length outs
    then Some (concat rows ++ drop (length (concat rows)) outs)
    else None.
Proof.
  unfold setOuts. rewrite setOuts_from_spec by lia.
  destruct (output_rows GkrWire IsOutput 0 circuit a) as [rows |]; [| done].
  cbn [mbind option_bind]. unfold written. cbn [Nat.add take app].
  by destruct (_ <=? _).
Qed.

Lemma serialize_polys_written (polys : list (list fr.Element)) :
  ∀ outs k, k ≤ length outs →
  serialize_polys polys outs k = written (concat polys) outs k.
Proof.
  induction polys as [| poly polys IH]; intros outs k Hk;
    cbn [serialize_polys concat]; unfold fr.Element in *.
  - by rewrite written_nil.
  - rewrite <- written_app by done. rewrite write_at_written by done.
    destruct (written poly outs k) as [[outs' k'] |] eqn:Hw; [| done].
    cbn [mbind option_bind]. apply written_Some in Hw as (? & ? & ?).
    apply IH. lia.
Qed.

Lemma serialize_proof_written (proof : list sumcheck_Proof) :
  ∀ outs k, k ≤ length outs →
  serialize_proof proof outs k = written (proof_elements proof) outs k.
Proof.
  unfold proof_elements.
  induction proof as [| p proof IH]; intros outs k Hk;
    cbn [serialize_proof fmap list_fmap concat]; unfold fr.Element in *.
  - by rewrite written_nil.
  - rewrite <- !written_app by done. rewrite serialize_polys_written by done.
    unfold fr.Element in *.
    destruct (written (concat _) outs k) as [[o1 k1] |] eqn:H1; [| done].
    cbn [mbind option_bind]. apply written_Some in H1 as (L1 & E1 & B1).
    destruct (FinalEvalProof p) as [f |]; cbn [default from_option id].
    + rewrite write_at_written by done. unfold fr.Element in *.
      destruct (written f o1 k1) as [[o2 k2] |] eqn:H2; [| done].
      cbn [mbind option_bind]. apply written_Some in H2 as (L2 & E2 & B2).
      by apply IH.
    + rewrite written_nil by done. cbn [mbind option_bind]. by apply IH.
Qed.

(** X5: the loop of [gkrProveHint] that serializes a proof panics when
    [outs] is shorter than the proof, and otherwise overwrites the head of
    [outs] with the elements of the proof, entry after entry, the partial
    sum polynomials of an entry before its final evaluation proof, and
    leaves the rest of [outs]. *)
Theorem serialize_proof_spec (proof : list sumcheck_Proof) (outs : list Z) :
  serialize_proof proof outs 0
  = if length (proof_elements proof) <=? length outs
    then Some (proof_elements proof
               ++ drop (length (proof_elements proof)) outs,
               length (proof_elements proof))
    else None.
Proof.
  rewrite serialize_proof_written by lia. reflexivity.
Qed.

(** ** Further properties of the final numbering and of the check of the
       inputs *)

(** X6: the final numbering of [Compile] keeps the wires apart: two
    allocated wires that differ, in identifier or in visibility, get
    different final identifiers; the public wires come first, then the
    secret wires, then the internal wires.  Nothing checks that a wire was
    allocated: the secret wire [nbSecret + i], which no call allocates, gets
    the identifier of the internal wire [i]. *)
Theorem shiftVID_injective (nbPublic nbSecret : nat) (w1 w2 : nat)
    (v1 v2 : Visibility) :
  wire_allocated nbPublic nbSecret w1 v1 →
  wire_allocated nbPublic nbSecret w2 v2 →
  (shiftVID nbPublic nbSecret w1 v1 = shiftVID nbPublic nbSecret w2 v2 →
   w1 = w2 ∧ v1 = v2)
  ∧ (v1 = schema.Public → shiftVID nbPublic nbSecret w1 v1 < nbPublic)
  ∧ (v1 = schema.Secret →
     nbPublic ≤ shiftVID nbPublic nbSecret w1 v1 < nbPublic + nbSecret)
  ∧ (v1 = Internal → nbPublic + nbSecret ≤ shiftVID nbPublic nbSecret w1 v1)
  ∧ (∀ i, shiftVID nbPublic nbSecret (nbSecret + i) schema.Secret
          = shiftVID nbPublic nbSecret i Internal).
Proof.
  intros H1 H2.
  split; [| split; [| split; [| split]]].
  - destruct v1, v2; cbn in *; try done; intros; (split; [lia | done]) || lia.
  - intros ->. cbn in *. lia.
  - intros ->. cbn in *. lia.
  - intros ->. cbn in *. lia.
  - intros i. cbn. lia.
Qed.

Lemma shiftVID_injective_witness :
  3 ≤ shiftVID 3 4 2 schema.Secret < 3 + 4.
Proof.
  refine (proj1 (proj2 (proj2
            (shiftVID_injective 3 4 2 5 schema.Secret Internal _ _))) _);
    cbn; done || lia.
Defined.

Lemma check_constraints_early_exit (hints : gmap nat Hint) (l l' : list R1C) :
  ∀ s, check_constraints hints l s = Some (inr tt) →
       check_constraints hints (l ++ l') s = Some (inr tt).
Proof.
  induction l as [| r1c l IH]; intros s; cbn [check_constraints app]; [done |].
  destruct (processLinearExpression hints (LinExp (R1C_L r1c)) s) as [s1 |];
    [| done]. cbn [mbind option_bind].
  destruct (processLinearExpression hints (LinExp (R1C_R r1c)) s1) as [s2 |];
    [| done]. cbn [mbind option_bind].
  destruct (processLinearExpression hints (LinExp (R1C_O r1c)) s2) as [s3 |];
    [| done]. cbn [mbind option_bind].
  destruct (Z.lor _ _ =? 0)%Z; [done | apply IH].
Qed.

(** X7: the scan of [checkVariables] stops at the constraint after which
    every tracked wire is constrained: when the check passes on the
    constraints of a compiler it passes with any constraints added after
    them, which are not read (terms on inputs that do not exist, which
    would make the scan panic, are not seen). *)
Theorem checkVariables_early_exit (system : compiler) (l : list R1C) :
  checkVariables system = Some None →
  checkVariables (with_more_constraints system l) = Some None.
Proof.
  unfold checkVariables, with_more_constraints.
  change (check_init (set_Constraints system (Constraints system ++ l)))
    with (check_init system).
  destruct (check_init system) as [s0 |]; [| done]. cbn [mbind option_bind].
  cbn [set_Constraints ConstraintSystem Constraints].
  destruct (check_constraints _ (Constraints system) s0) as [[s | []] |] eqn:Hc;
    cbn [mbind option_bind].
  - by destruct (error_pieces system s).
  - intros _. by rewrite (check_constraints_early_exit _ _ _ _ Hc).
  - done.
Qed.

Lemma checkVariables_early_exit_witness :
  checkVariables
    (with_more_constraints
       (addConstraint
          (newCompiler ecc.BN254 (frontend.mkCompileConfig 0 false))
          (mkR1C one one one) [])
       [mkR1C (mkVariable [Pack 7 1 schema.Secret]) one one])
  = Some None.
Proof.
  apply (checkVariables_early_exit
           (addConstraint
              (newCompiler ecc.BN254 (frontend.mkCompileConfig 0 false))
              (mkR1C one one one) [])).
  vm_compute. reflexivity.
Defined.

Example checkVariables_panics_out_of_range :
  checkVariables
    (addConstraint
       (newCompiler ecc.BN254 (frontend.mkCompileConfig 0 false))
       (mkR1C (mkVariable [Pack 7 1 schema.Secret]) one one) [])
  = None.
Proof. vm_compute. reflexivity. Qed.

(** X8: with the check of the inputs on and at least one constraint, whose
    public and secret terms are on inputs that exist, [Compile] returns an
    error and no constraint system exactly when a secret input, a public
    input other than the wire 0 or a wire of a hint has no term with a
    coefficient other than the zero coefficient in the constraints; the
    message gives, for the secret inputs and then for the public inputs,
    the number of those and their names in the order of their allocation,
    and then the number of such hint wires; when every tracked wire is
    constrained, [Compile] returns the constraint system whenever the
    levels are built and the curve is known. *)
Theorem Compile_reports_unconstrained (fuel : nat) (order : list (nat * Hint))
    (system : compiler) :
  frontend.IgnoreUnconstrainedInputs (config system) = false →
  Public (ConstraintSystem system) ≠ [] →
  constraints_in_range system →
  Constraints system ≠ [] →
  ((∃ msg, Compile fuel order system = Some (None, Some msg))
   ↔ ¬ inputs_constrained system)
  ∧ (¬ inputs_constrained system →
     Compile fuel order system
     = Some (None,
             Some (String.concat ""
                     (error_lines system (all_terms (Constraints system))))))
  ∧ (inputs_constrained system →
     is_Some (buildLevels fuel (offset_system order system)) →
     CurveID (ConstraintSystem system) ≠ ecc.UNKNOWN →
     ∃ ccs, Compile fuel order system = Some (Some ccs, None)).
Proof.
  intros Hcfg Hp Hr Hne.
  destruct (Compile_error_iff fuel order system Hcfg Hp Hr Hne) as [Hiff Hmsg].
  split; [done |]. split; [done |].
  intros Hall [levels Hl] Hcurve. unfold Compile. rewrite Hcfg. cbn [negb].
  destruct (checkVariables_cases system Hp Hr Hne) as [[_ ->] | [Hnot _]];
    [| done].
  cbn [mbind option_bind]. rewrite Hl. cbn [mbind option_bind].
  destruct (CurveID (ConstraintSystem system)); try done; eauto.
Qed.

(** X9: with the check of the inputs on and no constraint at all,
    [Compile] returns an error and no constraint system whatever the inputs
    and the hints are, also when there is nothing to constrain: the
    message lists every secret input, every public input but the wire 0,
    and the number of hint wires. *)
Theorem Compile_no_constraint (fuel : nat) (order : list (nat * Hint))
    (system : compiler) :
  frontend.IgnoreUnconstrainedInputs (config system) = false →
  Public (ConstraintSystem system) ≠ [] →
  Constraints system = [] →
  Compile fuel order system
  = Some (None, Some (String.concat "" (error_lines system [])))
  ∧ name_lines (secret_flags (length (Secret (ConstraintSystem system))) [])
      (Secret (ConstraintSystem system))
    = flat_map (λ n, [n; nl]) (Secret (ConstraintSystem system))
  ∧ name_lines (public_flags (length (Public (ConstraintSystem system))) [])
      (Public (ConstraintSystem system))
    = flat_map (λ n, [n; nl]) (tail (Public (ConstraintSystem system)))
  ∧ unconstrained_hints (MHints (ConstraintSystem system)) []
    = size (MHints (ConstraintSystem system)).
Proof.
  intros Hcfg Hp Hc. split; [| split; [| split]].
  - unfold Compile. rewrite Hcfg. cbn [negb].
    by rewrite (checkVariables_no_constraint system Hp Hc).
  - unfold name_lines. f_equal. unfold secret_flags.
    generalize 0. induction (Secret (ConstraintSystem system)) as [| n ns IH];
      intros k; [done |].
    cbn [length seq fmap list_fmap unmarked_names].
    rewrite bool_decide_eq_false_2 by apply constrained_nil.
    cbn [app]. f_equal. apply IH.
  - unfold name_lines. f_equal. unfold public_flags.
    destruct (Public (ConstraintSystem system)) as [| n0 ns]; [done |].
    cbn [length seq fmap list_fmap unmarked_names tail].
    rewrite bool_decide_eq_true_2 by (by left). cbn [app].
    assert (∀ k, 0 < k →
              unmarked_names
                ((λ i, bool_decide (i = 0 ∨ constrained [] schema.Public i))
                 <$> seq k (length ns)) ns = ns) as Hgen.
    { clear. induction ns as [| n ns IH]; intros k Hk; [done |].
      cbn [length seq fmap list_fmap unmarked_names].
      rewrite bool_decide_eq_false_2.
      - cbn [app]. f_equal. apply IH. lia.
      - intros [? | Hc']; [lia | by apply constrained_nil in Hc']. }
    apply Hgen. lia.
  - unfold unconstrained_hints.
    assert (filter (λ e : nat * Hint, constrained [] Internal e.1)
              (MHints (ConstraintSystem system)) = ∅) as ->.
    { apply map_empty. intros w. apply map_lookup_filter_None. right.
      intros h _ Hc'. by apply constrained_nil in Hc'. }
    by rewrite map_size_empty, Nat.sub_0_r.
Qed.

Lemma Compile_no_constraint_witness :
  Compile 0 [] (newCompiler ecc.BN254 (frontend.mkCompileConfig 0 false))
  = Some (None,
          Some (String.concat ""
                  (error_lines
                     (newCompiler ecc.BN254 (frontend.mkCompileConfig 0 false))
                     []))).
Proof.
  apply (Compile_no_constraint 0 []
           (newCompiler ecc.BN254 (frontend.mkCompileConfig 0 false)));
    [reflexivity | done | reflexivity].
Defined.

Lemma Compile_reports_unconstrained_witness :
  Compile 1 [] unchecked_system
  = Some (None,
          Some (String.concat ""
                  ["1"; " unconstrained secret input(s):"; nl; "y"; nl; nl])).
Proof.
  refine (proj1 (proj2 (Compile_reports_unconstrained 1 [] unchecked_system
                          _ _ _ _)) _).
  - reflexivity.
  - done.
  - unfold constraints_in_range. repeat constructor; cbn; lia.
  - done.
  - intros (HS & _). specialize (HS 1). cbn in HS.
    assert (1 < 2) as Hlt by lia. apply HS in Hlt.
    unfold constrained in Hlt. apply Exists_exists in Hlt as (t & Hin & Hc).
    vm_compute in Hin. unfold constrains in Hc.
    repeat (apply elem_of_cons in Hin as [-> | Hin]; [cbn in Hc; lia |]).
    by apply elem_of_nil in Hin.
Defined.

(** ** The value of a reduced expression *)

Lemma eval_terms_prefix (t t' : cs.CoeffTable) val (l : LinearExpression) :
  cs.Coeffs t `prefix_of` cs.Coeffs t' → coeffs_known t l →
  eval_terms t' val l = eval_terms t val l.
Proof.
  intros Hp Hk. induction Hk as [| x l Hx Hk IH]; [done |].
  cbn [eval_terms foldr]. fold (eval_terms t' val l). fold (eval_terms t val l).
  by rewrite IH, (coeff_value_prefix t t').
Qed.

Lemma eval_terms_Permutation (t : cs.CoeffTable) val (l l' : LinearExpression) :
  l ≡ₚ l' → eval_terms t val l = eval_terms t val l'.
Proof.
  induction 1 as [| x l l' _ IH | x y l | l l' l'' _ IH1 _ IH2];
    cbn [eval_terms foldr] in *; [done | | lia | congruence].
  fold (eval_terms t val l) in *. fold (eval_terms t val l') in *. lia.
Qed.

Lemma reduce_loop_value (p : Z) val (rest : LinearExpression) :
  (0 < p)%Z →
  ∀ (t : cs.CoeffTable) (prev : Term),
  coeffs_known t (prev :: rest) →
  ∃ t' out,
    reduce_loop p t prev rest = Some (t', out)
    ∧ cs.Coeffs t `prefix_of` cs.Coeffs t'
    ∧ coeffs_known t' out
    ∧ length out ≤ S (length rest)
    ∧ (eval_terms t' val out mod p = eval_terms t val (prev :: rest) mod p)%Z.
Proof.
  intros Hp. induction rest as [| cur rest IH]; intros t prev Hk.
  - exists t, [prev]. cbn [reduce_loop]. split; [done |]. split; [done |].
    split; [done |]. split; [cbn; lia | done].
  - cbn [reduce_loop Unpack].
    apply Forall_cons in Hk as [Hprev Hk]. pose proof Hk as Hk'.
    apply Forall_cons in Hk' as [Hcur Hrest].
    destruct (bool_decide (VariableVisibility prev = VariableVisibility cur)
              && (WireID prev =? WireID cur)) eqn:Hsame.
    + apply andb_true_iff in Hsame as [Hv Hw].
      apply bool_decide_eq_true in Hv. apply Nat.eqb_eq in Hw.
      destruct (lookup_lt_is_Some_2 _ _ Hprev) as [a Ha].
      destruct (lookup_lt_is_Some_2 _ _ Hcur) as [b Hb].
      rewrite Ha, Hb. cbn [mbind option_bind].
      destruct (cs.CoeffID p t ((a + b) mod p)) as [st' nid] eqn:Hid.
      apply CoeffID_spec in Hid as [Hlk Hpre].
      rewrite Z.mod_mod in Hlk by lia.
      destruct (IH st' (SetCoeffID prev nid))
        as (t' & out & Hrun & Hpre' & Hko & Hlen & Hval).
      { constructor.
        - cbn. by apply lookup_lt_Some in Hlk.
        - by apply (coeffs_known_prefix t). }
      exists t', out. split; [done |].
      split; [by etrans |]. split; [done |]. split; [cbn [length]; lia |].
      rewrite Hval. cbn [eval_terms foldr].
      fold (eval_terms st' val rest). fold (eval_terms t val rest).
      rewrite (eval_terms_prefix t st') by done.
      unfold coeff_value. cbn [CoeffID SetCoeffID VariableVisibility WireID].
      rewrite Hlk, Ha, Hb. cbn [default from_option id].
      rewrite Hv, Hw.
      rewrite <- Z.add_mod_idemp_l, Z.mul_mod_idemp_l, Z.add_mod_idemp_l by lia.
      f_equal. lia.
    + destruct (IH t cur Hk) as (t' & out & Hrun & Hpre & Hko & Hlen & Hval).
      rewrite Hrun. cbn [mbind option_bind].
      exists t', (prev :: out). split; [done |]. split; [done |].
      split; [constructor; [| done] |].
      { apply prefix_length in Hpre. lia. }
      split; [cbn [length]; lia |].
      change (eval_terms t' val (prev :: out))
        with (coeff_value t' prev * val (VariableVisibility prev) (WireID prev)
              + eval_terms t' val out)%Z.
      change (eval_terms t val (prev :: cur :: rest))
        with (coeff_value t prev * val (VariableVisibility prev) (WireID prev)
              + eval_terms t val (cur :: rest))%Z.
      rewrite (coeff_value_prefix t t') by done.
      rewrite <- Z.add_mod_idemp_r, Hval, Z.add_mod_idemp_r by lia. done.
Qed.

Section ReduceValue.
Context `{Env}.

(** X10: [reduce] returns on every expression whose coefficients the table
    has, and the expression returned has the value that the terms given had
    at the call, modulo the order of the field, for every assignment of the
    wires; it has no more terms; the table keeps the coefficients it had, at
    their identifiers, so that a list of terms has under the new table the
    value it had under the old one; and the constraint system, with its
    hints, the constraints and the configuration of the compiler are as they
    were.  Nothing is stated of the slice given nor of the marked
    expressions: the Go function sorts and merges in the array of its
    argument, and a slice that shares this array holds other terms after
    the call. *)
Theorem reduce_preserves_value (system : compiler) (e : CVariable)
    (val : Visibility → nat → Z) :
  coeffs_known (st system) (LinExp e) →
  ∃ system' e',
    reduce system e = Some (system', e')
    ∧ (eval_terms (st system') val (LinExp e') mod modulus system
       = eval_terms (st system) val (LinExp e) mod modulus system)%Z
    ∧ length (LinExp e') ≤ length (LinExp e)
    ∧ coeffs_known (st system') (LinExp e')
    ∧ cs.Coeffs (st system) `prefix_of` cs.Coeffs (st system')
    ∧ (∀ other, coeffs_known (st system) other →
         eval_terms (st system') val other = eval_terms (st system) val other)
    ∧ ConstraintSystem system' = ConstraintSystem system
    ∧ Constraints system' = Constraints system
    ∧ config system' = config system.
Proof.
  intros Hk. unfold reduce.
  destruct (reduce_input_sorted (LinExp e)) as [_ Hperm].
  assert (coeffs_known (st system)
            (if IsSorted (LinExp e) then LinExp e else sort_Sort (LinExp e))) as Hk'.
  { unfold coeffs_known. by rewrite Hperm. }
  rewrite <- (eval_terms_Permutation (st system) val _ _ Hperm).
  rewrite <- (Permutation_length Hperm).
  destruct (if IsSorted (LinExp e) then LinExp e else sort_Sort (LinExp e))
    as [| t rest].
  - exists system, (mkVariable []). split; [done |]. split; [done |].
    split; [done |]. split; [constructor |]. split; [done |].
    split; [done |]. done.
  - destruct (reduce_loop_value (modulus system) val rest (Fr_Modulus_pos _)
                (st system) t Hk') as (t' & out & Hrun & Hpre & Hko & Hlen & Hval).
    rewrite Hrun. cbn [mbind option_bind].
    exists (set_st system t'), (mkVariable out). cbn [st set_st LinExp].
    split; [done |]. split; [done |]. split; [done |]. split; [done |].
    split; [done |]. split; [| done].
    intros other Ho. by apply eval_terms_prefix.
Qed.

End ReduceValue.

Lemma reduce_preserves_value_witness :
  ∃ system' e',
    reduce pair_system pair_expression = Some (system', e')
    ∧ (eval_terms (st system') (λ _ w, Z.of_nat w + 2)%Z (LinExp e')
         mod modulus pair_system
       = eval_terms (st pair_system) (λ _ w, Z.of_nat w + 2)%Z
           (LinExp pair_expression) mod modulus pair_system)%Z.
Proof.
  destruct (reduce_preserves_value pair_system pair_expression
              (λ _ w, Z.of_nat w + 2)%Z)
    as (system' & e' & Hrun & Hval & _).
  - unfold coeffs_known. repeat constructor; cbn; lia.
  - exists system', e'. split; [exact Hrun | exact Hval].
Defined.

(** ** What calls of the builder keep *)

Lemma grows_refl (s : compiler) : grows s s.
Proof.
  unfold grows. repeat split; try done.
  intros key list Hl. exists []. by rewrite app_nil_r.
Qed.

Lemma grows_trans (s1 s2 s3 : compiler) : grows s1 s2 → grows s2 s3 → grows s1 s3.
Proof.
  intros (A1 & A2 & A3 & A4 & A5 & A6 & A7 & A8 & A9 & A10)
         (B1 & B2 & B3 & B4 & B5 & B6 & B7 & B8 & B9 & B10).
  unfold grows. split; [by etrans |]. split; [by etrans |].
  split; [lia |]. split; [by etrans |]. split; [by etrans |].
  split; [auto |]. split.
  { intros key list Hl. destruct (A7 key list Hl) as [m1 H1].
    destruct (B7 key _ H1) as [m2 H2]. exists (m1 ++ m2). by rewrite app_assoc. }
  split; [congruence |]. split; [congruence |].
  intros Hs. destruct (A10 Hs) as (C1 & C2 & C3).
  rewrite <- C1 in Hs. destruct (B10 Hs) as (D1 & D2 & D3).
  repeat split; congruence.
Qed.

Lemma reduce_loop_prefix (p : Z) (rest : LinearExpression) :
  ∀ (t t' : cs.CoeffTable) (prev : Term) (out : LinearExpression),
  reduce_loop p t prev rest = Some (t', out) →
  cs.Coeffs t `prefix_of` cs.Coeffs t'.
Proof.
  induction rest as [| cur rest IH]; intros t t' prev out; cbn [reduce_loop Unpack].
  - by intros [= <- _].
  - destruct (_ && _).
    + destruct (cs.Coeffs t !! CoeffID prev) as [a |]; [| done].
      destruct (cs.Coeffs t !! CoeffID cur) as [b |]; [| done].
      cbn [mbind option_bind].
      destruct (cs.CoeffID p t ((a + b) mod p)) as [st' nid] eqn:Hid.
      apply CoeffID_spec in Hid as [_ Hpre]. intros Hrun.
      apply IH in Hrun. by etrans.
    + destruct (reduce_loop p t cur rest) as [[t1 out1] |] eqn:Hrun; [| done].
      cbn [mbind option_bind]. intros [= <- _]. by apply IH in Hrun.
Qed.

Section Grows.
Context `{Env}.

Lemma reduce_set_st (system system' : compiler) (l v : CVariable) :
  reduce system l = Some (system', v) →
  ∃ t', system' = set_st system t' ∧ cs.Coeffs (st system) `prefix_of` cs.Coeffs t'.
Proof.
  unfold reduce.
  destruct (if IsSorted (LinExp l) then LinExp l else sort_Sort (LinExp l))
    as [| t rest].
  - intros [= <- _]. exists (st system). split; [by destruct system | done].
  - destruct (reduce_loop _ _ _ _) as [[t' out] |] eqn:Hrun; [| done].
    cbn [mbind option_bind]. intros [= <- _]. exists t'. split; [done |].
    by apply reduce_loop_prefix in Hrun.
Qed.

Lemma grows_run_call (system system' : compiler) (c : call) :
  hints_inv system → run_call system c = Some system' → grows system system'.
Proof.
  intros [Hwf Hlt]. destruct c; cbn [run_call].
  - unfold AddPublicVariable.
    destruct (Schema (ConstraintSystem system)) eqn:Hs; [done |]. intros [= <-].
    unfold grows. cbn. rewrite Hs.
    repeat split; try done; try (by apply prefix_app_r);
      try (by intros [? ?]).
    intros key list Hl. exists []. by rewrite app_nil_r.
  - unfold AddSecretVariable.
    destruct (Schema (ConstraintSystem system)) eqn:Hs; [done |]. intros [= <-].
    unfold grows. cbn. rewrite Hs.
    repeat split; try done; try (by apply prefix_app_r);
      try (by intros [? ?]).
    intros key list Hl. exists []. by rewrite app_nil_r.
  - intros [= <-]. unfold grows. cbn.
    repeat split; try done; try lia.
    intros key list Hl. exists []. by rewrite app_nil_r.
  - destruct (reduce system l) as [[s v] |] eqn:Hr; [| done]. intros [= <-].
    apply reduce_set_st in Hr as (t' & -> & Hpre).
    unfold grows. cbn. repeat split; try done.
    intros key list Hl. exists []. by rewrite app_nil_r.
  - destruct (newR1C l r o) as [r1c |]; [| done]. intros [= <-].
    unfold grows, addConstraint.
    destruct debugID; cbn; repeat split; try done; try (by apply prefix_app_r);
      intros key list Hl; exists []; by rewrite app_nil_r.
  - unfold MarkBoolean. destruct (ConstantValue system v) as [[b |] |]; [| | done].
    + cbn. destruct (negb _); [done |]. intros [= <-]. apply grows_refl.
    + cbn. destruct (assert_Variable v) as [_v |]; [| done]. intros [= <-].
      unfold grows. cbn. repeat split; try done.
      intros key list Hl.
      destruct (decide (key = HashCode (sorted_terms (LinExp _v)))) as [-> | Hne].
      * rewrite lookup_insert_eq. rewrite Hl. cbn. eauto.
      * rewrite lookup_insert_ne by done. exists []. by rewrite app_nil_r.
  - destruct (NewHint system f nbOutputs inputs) as [[[s res] err] |] eqn:Hr; [| done].
    intros [= <-]. unfold NewHint in Hr.
    destruct (nbOutputs <=? 0)%Z.
    { injection Hr as <- _ _. apply grows_refl. }
    destruct (mapM hint_input inputs) as [hintInputs |]; [| done].
    cbn [mbind option_bind] in Hr. rewrite newHint_wires_spec in Hr.
    cbn [mbind option_bind] in Hr. injection Hr as <- _ _.
    unfold grows, allocated. cbn. repeat split; try done; try lia.
    + intros w h Hw. rewrite register_hint_lookup.
      rewrite decide_False; [done |]. rewrite elem_of_seq.
      destruct (Hwf w h Hw) as [Hin _]. specialize (Hlt w h Hw w Hin). lia.
    + intros key list Hl. exists []. by rewrite app_nil_r.
  - unfold SetSchema.
    destruct (Schema (ConstraintSystem system)) eqn:Hs; [done |]. intros [= <-].
    unfold grows. cbn. rewrite Hs. repeat split; try done; try (by intros [? ?]).
    intros key list Hl. exists []. by rewrite app_nil_r.
Qed.

Lemma grows_run_calls (calls : list call) :
  ∀ system system',
  hints_inv system → run_calls system calls = Some system' →
  grows system system' ∧ hints_inv system'.
Proof.
  induction calls as [| c calls IH]; intros system system' Hinv; cbn [run_calls].
  - intros [= <-]. split; [apply grows_refl | done].
  - destruct (run_call system c) as [s1 |] eqn:Hc; [| done].
    cbn [mbind option_bind]. intros Hrun.
    pose proof (grows_run_call _ _ _ Hinv Hc) as G1.
    pose proof (hints_inv_run_call _ _ _ Hinv Hc) as I1.
    destruct (IH s1 system' I1 Hrun) as [G2 I2].
    split; [by apply (grows_trans _ s1) | done].
Qed.

End Grows.
Section GrowsTheorems.
Context `{Env}.

(** X11: calls of the builder only add to the compiler.  After any
    sequence of calls that returns, started in a compiler whose hints are on
    allocated wires (as in a new compiler), every input has the name and the
    index it had, every constraint is where it was, every coefficient keeps
    its identifier, every wire bound to a hint is bound to the same hint,
    the internal wires were not taken back, and the curve and the
    configuration are the same; and the hints are still on allocated
    wires.  So the variable that [AddPublicVariable] or [AddSecretVariable]
    returned is one term on the wire at which the list of names has its
    name, whatever was called since. *)
Theorem builder_calls_only_add (system system' : compiler) (calls : list call) :
  hints_inv system →
  run_calls system calls = Some system' →
  (∀ i n, Public (ConstraintSystem system) !! i = Some n →
          Public (ConstraintSystem system') !! i = Some n)
  ∧ (∀ i n, Secret (ConstraintSystem system) !! i = Some n →
            Secret (ConstraintSystem system') !! i = Some n)
  ∧ (∀ i c, Constraints system !! i = Some c → Constraints system' !! i = Some c)
  ∧ (∀ i v, cs.Coeffs (st system) !! i = Some v →
            cs.Coeffs (st system') !! i = Some v)
  ∧ (∀ w h, MHints (ConstraintSystem system) !! w = Some h →
            MHints (ConstraintSystem system') !! w = Some h)
  ∧ NbInternalVariables (ConstraintSystem system)
    ≤ NbInternalVariables (ConstraintSystem system')
  ∧ CurveID (ConstraintSystem system') = CurveID (ConstraintSystem system)
  ∧ config system' = config system
  ∧ hints_inv system'
  ∧ (∀ s0 name v,
       AddPublicVariable s0 name = Some (system, v) →
       ∃ t, LinExp v = [t] ∧ VariableVisibility t = schema.Public
            ∧ CoeffID t = CoeffIdOne
            ∧ Public (ConstraintSystem system') !! WireID t = Some name)
  ∧ (∀ s0 name v,
       AddSecretVariable s0 name = Some (system, v) →
       ∃ t, LinExp v = [t] ∧ VariableVisibility t = schema.Secret
            ∧ CoeffID t = CoeffIdOne
            ∧ Secret (ConstraintSystem system') !! WireID t = Some name).
Proof.
  intros Hinv Hrun.
  destruct (grows_run_calls calls system system' Hinv Hrun)
    as [(G1 & G2 & G3 & G4 & G5 & G6 & G7 & G8 & G9 & G10) Hinv'].
  split; [intros i n Hl; by apply (prefix_lookup_Some _ _ _ _ Hl) |].
  split; [intros i n Hl; by apply (prefix_lookup_Some _ _ _ _ Hl) |].
  split; [intros i c Hl; by apply (prefix_lookup_Some _ _ _ _ Hl) |].
  split; [intros i v Hl; by apply (prefix_lookup_Some _ _ _ _ Hl) |].
  split; [done |]. split; [done |]. split; [done |]. split; [done |].
  split; [done |]. split.
  - intros s0 name v. unfold AddPublicVariable.
    destruct (Schema (ConstraintSystem s0)); [done |]. intros [= <- <-].
    eexists. split; [reflexivity |]. cbn. split; [done |]. split; [done |].
    apply (prefix_lookup_Some (Public (ConstraintSystem s0) ++ [name]));
      [| exact G1].
    rewrite lookup_app_r by lia. by rewrite Nat.sub_diag.
  - intros s0 name v. unfold AddSecretVariable.
    destruct (Schema (ConstraintSystem s0)); [done |]. intros [= <- <-].
    eexists. split; [reflexivity |]. cbn. split; [done |]. split; [done |].
    apply (prefix_lookup_Some (Secret (ConstraintSystem s0) ++ [name]));
      [| exact G2].
    rewrite lookup_app_r by lia. by rewrite Nat.sub_diag.
Qed.

Lemma ConstantValue_grows (s s' : compiler) (v : iface) (r : option Z) :
  cs.Coeffs (st s) `prefix_of` cs.Coeffs (st s') →
  ConstantValue s v = Some r → ConstantValue s' v = Some r.
Proof.
  intros Hpre. destruct v as [_v | l | t | z]; cbn [ConstantValue]; try done.
  destruct (negb (IsSet _v)); [done |].
  destruct (negb (length (LinExp _v) =? 1)); [done |].
  destruct (LinExp _v !! 0) as [t |]; [| done]. cbn [mbind option_bind Unpack].
  destruct (negb _); [done |].
  destruct (cs.Coeffs (st s) !! CoeffID t) as [c |] eqn:Hc; [| done].
  cbn [mbind option_bind]. intros [= <-].
  by rewrite (prefix_lookup_Some _ _ _ _ Hc Hpre).
Qed.

(** X12: what is known of a variable is not lost by calls that write in no
    slice: after a sequence of calls that returns and that has no [reduce]
    and no [MarkBoolean] of an expression that is not sorted, a constant has
    the value that [ConstantValue] gave before, a variable that was not a
    constant is not one, and a variable for which [IsBoolean] returned true
    (marked, or a constant 0 or 1) still has [IsBoolean] return true; so a
    variable is boolean from its [MarkBoolean] on.  The two calls left out
    write in the array of their argument, which a marked expression may
    share: [MarkBoolean] stores the slice of the caller, not a copy. *)
Theorem boolean_facts_persist (system system' : compiler) (calls : list call)
    (v : iface) :
  hints_inv system →
  Forall (λ c, writes_argument c = false) calls →
  run_calls system calls = Some system' →
  (∀ r, ConstantValue system v = Some r → ConstantValue system' v = Some r)
  ∧ (IsBoolean system v = Some true → IsBoolean system' v = Some true)
  ∧ (∀ s0 x, ConstantValue s0 (VariableV x) = Some None →
       MarkBoolean s0 (VariableV x) = Some system →
       IsBoolean system' (VariableV x) = Some true).
Proof.
  intros Hinv _ Hrun.
  destruct (grows_run_calls calls system system' Hinv Hrun)
    as [(G1 & G2 & G3 & G4 & G5 & G6 & G7 & G8 & G9 & G10) Hinv'].
  assert (IsBoolean system v = Some true → IsBoolean system' v = Some true) as Hkeep.
  { unfold IsBoolean.
    destruct (ConstantValue system v) as [cv |] eqn:Hcv; [| done].
    rewrite (ConstantValue_grows _ _ _ _ G5 Hcv). cbn [mbind option_bind].
    destruct cv as [b |]; [done |].
    destruct (assert_Variable v) as [_v |]; [| done]. cbn [mbind option_bind].
    destruct (mtBooleans system !! _) as [list |] eqn:Hl; [| done].
    destruct (G7 _ _ Hl) as [more ->]. intros [= Hex]. f_equal.
    rewrite existsb_app, Hex. done. }
  split; [intros r; by apply ConstantValue_grows |]. split; [done |].
  intros s0 x Hc Hm.
  assert (IsBoolean system (VariableV x) = Some true) as Hb.
  { unfold MarkBoolean in Hm. rewrite Hc in Hm.
    cbn [mbind option_bind assert_Variable] in Hm. injection Hm as <-.
    unfold IsBoolean. rewrite ConstantValue_set_mtBooleans, Hc.
    cbn [mbind option_bind assert_Variable mtBooleans set_mtBooleans].
    rewrite lookup_insert_eq. f_equal. rewrite existsb_app. cbn [existsb].
    unfold Equal. rewrite bool_decide_eq_true_2 by done. by rewrite orb_true_r. }
  clear Hkeep. revert Hb. unfold IsBoolean.
  destruct (ConstantValue system (VariableV x)) as [cv |] eqn:Hcv; [| done].
  rewrite (ConstantValue_grows _ _ _ _ G5 Hcv). cbn [mbind option_bind].
  destruct cv as [b |]; [done |]. cbn [assert_Variable mbind option_bind].
  destruct (mtBooleans system !! _) as [list |] eqn:Hl; [| done].
  destruct (G7 _ _ Hl) as [more ->]. intros [= Hex]. f_equal.
  rewrite existsb_app, Hex. done.
Qed.

Lemma run_calls_counts (calls : list call) :
  ∀ system system',
  run_calls system calls = Some system' →
  NbInternalVariables (ConstraintSystem system')
  = NbInternalVariables (ConstraintSystem system)
    + sum_list (call_variables <$> calls)
  ∧ length (Constraints system')
    = length (Constraints system) + sum_list (call_constraints <$> calls).
Proof.
  induction calls as [| c calls IH]; intros system system'; cbn [run_calls].
  - intros [= <-]. cbn. lia.
  - destruct (run_call system c) as [s1 |] eqn:Hc; [| done].
    cbn [mbind option_bind]. intros Hrun. apply IH in Hrun as [E1 E2].
    rewrite E1, E2. rewrite !fmap_cons. change (sum_list (?x :: ?l)) with (x + sum_list l).
    assert (NbInternalVariables (ConstraintSystem s1)
            = NbInternalVariables (ConstraintSystem system) + call_variables c
            ∧ length (Constraints s1)
              = length (Constraints system) + call_constraints c) as [-> ->];
      [| lia].
    clear E1 E2 IH. destruct c; cbn [run_call call_variables call_constraints] in *.
    + unfold AddPublicVariable in Hc. destruct (Schema _); [done |].
      injection Hc as <-. cbn. lia.
    + unfold AddSecretVariable in Hc. destruct (Schema _); [done |].
      injection Hc as <-. cbn. lia.
    + injection Hc as <-. cbn. lia.
    + destruct (reduce system l) as [[s v] |] eqn:Hr; [| done].
      injection Hc as <-. apply reduce_set_st in Hr as (t' & -> & _). cbn. lia.
    + destruct (newR1C l r o) as [r1c |]; [| done]. injection Hc as <-.
      unfold addConstraint. destruct debugID; cbn; rewrite length_app; cbn; lia.
    + unfold MarkBoolean in Hc.
      destruct (ConstantValue system v) as [[b |] |]; [| | done]; cbn in Hc.
      * destruct (negb _); [done |]. injection Hc as <-. lia.
      * destruct (assert_Variable v); [| done]. injection Hc as <-. cbn. lia.
    + destruct (NewHint system f nbOutputs inputs) as [[[s res] err] |] eqn:Hr;
        [| done].
      injection Hc as <-. unfold NewHint in Hr.
      destruct (nbOutputs <=? 0)%Z eqn:Hle.
      { injection Hr as <- _ _. apply Z.leb_le in Hle. lia. }
      destruct (mapM hint_input inputs) as [hintInputs |]; [| done].
      cbn [mbind option_bind] in Hr. rewrite newHint_wires_spec in Hr.
      cbn [mbind option_bind] in Hr. injection Hr as <- _ _.
      unfold allocated. cbn. lia.
    + unfold SetSchema in Hc. destruct (Schema _); [done |].
      injection Hc as <-. cbn. lia.
Qed.

(** X13: a counter between two tags measures what was called between
    them: when [from] is the tag of a compiler and [to] the tag of the
    compiler after a sequence of calls that returns, [AddCounter(from, to)]
    appends one counter, which has the names of the two tags, as number of
    variables the number of internal wires that the calls allocated (one
    for [newInternalVariable], the number of outputs for [NewHint]) and as
    number of constraints the number of calls of [addConstraint]; neither
    is negative.  With the two tags exchanged the counter has the opposite
    numbers: nothing checks the order of the tags. *)
Theorem AddCounter_measures (system system' : compiler) (calls : list call)
    (counters : list Counter) (n1 f1 n2 f2 : string) (l1 l2 : nat) :
  run_calls system calls = Some system' →
  let from := Tag system n1 f1 l1 in
  let to := Tag system' n2 f2 l2 in
  let nv := Z.of_nat (sum_list (call_variables <$> calls)) in
  let nc := Z.of_nat (sum_list (call_constraints <$> calls)) in
  AddCounter system' counters from to
  = counters ++ [mkCounter (Name from) (Name to) nv nc
                   (CurveID (ConstraintSystem system')) (Backend system')]
  ∧ AddCounter system' counters to from
    = counters ++ [mkCounter (Name to) (Name from) (- nv) (- nc)
                     (CurveID (ConstraintSystem system')) (Backend system')]
  ∧ Name from = (n1 ++ "[" ++ f1 ++ ":" ++ Itoa (Z.of_nat l1) ++ "]")%string.
Proof.
  intros Hrun from to nv nc. apply run_calls_counts in Hrun as [E1 E2].
  unfold AddCounter, Backend. subst from to nv nc. cbn [VID CID Tag Name].
  rewrite E1, E2. split; [| split; [| done]]; do 3 f_equal; lia.
Qed.

(** X14: once the schema is set the inputs are fixed: a sequence of calls
    that returns, started in a compiler whose schema is set, has no call of
    [AddPublicVariable], of [AddSecretVariable] or of [SetSchema] (each of
    them panics), and leaves the names of the inputs and the schema as they
    were. *)
Theorem schema_fixes_inputs (system system' : compiler) (calls : list call) :
  is_Some (Schema (ConstraintSystem system)) →
  run_calls system calls = Some system' →
  Forall (λ c, declares_input c = false) calls
  ∧ Public (ConstraintSystem system') = Public (ConstraintSystem system)
  ∧ Secret (ConstraintSystem system') = Secret (ConstraintSystem system)
  ∧ Schema (ConstraintSystem system') = Schema (ConstraintSystem system).
Proof.
  revert system. induction calls as [| c calls IH]; intros system Hs;
    cbn [run_calls].
  - intros [= <-]. done.
  - destruct (run_call system c) as [s1 |] eqn:Hc; [| done].
    cbn [mbind option_bind]. intros Hrun.
    assert (declares_input c = false
            ∧ Public (ConstraintSystem s1) = Public (ConstraintSystem system)
            ∧ Secret (ConstraintSystem s1) = Secret (ConstraintSystem system)
            ∧ Schema (ConstraintSystem s1) = Schema (ConstraintSystem system))
      as (Hd & E1 & E2 & E3).
    { destruct Hs as [sch Hs].
      destruct c; cbn [run_call declares_input] in *.
      - unfold AddPublicVariable in Hc. by rewrite Hs in Hc.
      - unfold AddSecretVariable in Hc. by rewrite Hs in Hc.
      - by injection Hc as <-.
      - destruct (reduce system l) as [[s v] |] eqn:Hr; [| done].
        injection Hc as <-. by apply reduce_set_st in Hr as (t' & -> & _).
      - destruct (newR1C l r o) as [r1c |]; [| done]. injection Hc as <-.
        unfold addConstraint. by destruct debugID.
      - unfold MarkBoolean in Hc.
        destruct (ConstantValue system v) as [[b |] |]; [| | done]; cbn in Hc.
        + destruct (negb _); [done |]. by injection Hc as <-.
        + destruct (assert_Variable v); [| done]. by injection Hc as <-.
      - destruct (NewHint system f nbOutputs inputs) as [[[s res] err] |] eqn:Hr;
          [| done].
        injection Hc as <-. unfold NewHint in Hr.
        destruct (nbOutputs <=? 0)%Z.
        { by injection Hr as <- _ _. }
        destruct (mapM hint_input inputs) as [hintInputs |]; [| done].
        cbn [mbind option_bind] in Hr. rewrite newHint_wires_spec in Hr.
        cbn [mbind option_bind] in Hr. by injection Hr as <- _ _.
      - unfold SetSchema in Hc. by rewrite Hs in Hc. }
    rewrite <- E3 in Hs. destruct (IH s1 Hs Hrun) as (F & P1 & P2 & P3).
    split; [by constructor |]. repeat split; congruence.
Qed.

(** X15: in a compiler built by calls of the builder from a new compiler,
    a wire bound to a hint is one of the output wires of that hint, every
    output wire of the hint is bound to the same hint, and the output wires
    are internal wires that were allocated. *)
Theorem built_hints_well_formed (curveID : ecc.ID)
    (config : frontend.CompileConfig) (calls : list call) (system : compiler) :
  run_calls (newCompiler curveID config) calls = Some system →
  ∀ w h, MHints (ConstraintSystem system) !! w = Some h →
    w ∈ Wires h
    ∧ (∀ w', w' ∈ Wires h →
         MHints (ConstraintSystem system) !! w' = Some h
         ∧ w' < NbInternalVariables (ConstraintSystem system)).
Proof.
  intros Hrun w h Hw.
  destruct (hints_inv_run_calls calls _ _ (hints_inv_newCompiler curveID config) Hrun)
    as [Hwf Hlt].
  destruct (Hwf w h Hw) as [Hin Hall]. split; [done |].
  intros w' Hw'. split; [by apply Hall | by apply (Hlt w h)].
Qed.

End GrowsTheorems.

Lemma builder_calls_only_add_witness :
  Public (ConstraintSystem demo_system) !! 0 = Some "one"
  ∧ NbInternalVariables (ConstraintSystem demo_start)
    ≤ NbInternalVariables (ConstraintSystem demo_system).
Proof.
  destruct (builder_calls_only_add demo_start demo_system demo_calls
              (hints_inv_newCompiler _ _) demo_system_run)
    as (HP & _ & _ & _ & _ & Hn & _).
  split; [apply HP; reflexivity | exact Hn].
Defined.

Lemma marked_system_hints_inv : hints_inv marked_system.
Proof. split; intros w h Hw; vm_compute in Hw; done. Qed.

Lemma boolean_facts_persist_witness :
  ∃ system',
    run_calls marked_system
      [newInternalVariable_call;
       MarkBoolean_call (VariableV (mkVariable [Pack 6 1 Internal]))]
    = Some system'
    ∧ IsBoolean system' (VariableV (mkVariable [Pack 5 1 Internal])) = Some true.
Proof.
  eexists. split; [vm_compute; reflexivity |].
  refine (proj1 (proj2 (boolean_facts_persist marked_system _
            [newInternalVariable_call;
             MarkBoolean_call (VariableV (mkVariable [Pack 6 1 Internal]))]
            (VariableV (mkVariable [Pack 5 1 Internal]))
            marked_system_hints_inv _ _)) _);
    [repeat constructor | vm_compute; reflexivity | vm_compute; reflexivity].
Defined.

Lemma AddCounter_measures_witness :
  AddCounter demo_system [] (Tag demo_start "a" "circuit.go" 10)
    (Tag demo_system "b" "circuit.go" 20)
  = [mkCounter "a[circuit.go:10]" "b[circuit.go:20]" 6 1 ecc.BN254 GROTH16].
Proof.
  exact (proj1 (AddCounter_measures demo_start demo_system demo_calls []
                  "a" "circuit.go" "b" "circuit.go" 10 20 demo_system_run)).
Defined.

Lemma schema_fixes_inputs_witness :
  ∃ system system',
    SetSchema fresh_system tt = Some system
    ∧ run_calls system [newInternalVariable_call] = Some system'
    ∧ Public (ConstraintSystem system') = ["one"].
Proof.
  eexists _, _. split; [reflexivity |]. split; [reflexivity |].
  refine (proj1 (proj2 (schema_fixes_inputs
            (set_ConstraintSystem fresh_system
               (set_Schema (ConstraintSystem fresh_system) (Some tt)))
            _ [newInternalVariable_call] _ _)));
    [by eexists | reflexivity].
Defined.

Lemma built_hints_well_formed_witness :
  0 ∈ Wires (mkHint 7 [LinExpV [Pack 2 1 schema.Secret]; BigV 5] [0; 1]).
Proof.
  refine (proj1 (built_hints_well_formed ecc.BN254 (frontend.mkCompileConfig 0 true)
                   demo_calls demo_system demo_system_run 0 _ _)).
  vm_compute. reflexivity.
Defined.

(** ** The shape of the levels *)

Lemma level_members_sorted (nl : list nat) :
  ∀ n k, StronglySorted lt (level_members nl n k)
         ∧ Forall (λ c, n ≤ c) (level_members nl n k).
Proof.
  induction nl as [| l nl IH]; intros n k; cbn [level_members].
  - split; constructor.
  - destruct (IH (S n) k) as [Hs Hge].
    assert (Forall (λ c, n ≤ c) (level_members nl (S n) k)) as Hge'.
    { eapply Forall_impl; [exact Hge |]. cbn. intros c Hc. lia. }
    destruct (decide (l = k)); cbn [app].
    + split; [| by constructor]. constructor; [done |].
      eapply Forall_impl; [exact Hge |]. cbn. intros c Hc. lia.
    + done.
Qed.

Lemma level_members_head (nl : list nat) (n k : nat) :
  nl !! 0 = Some k →
  level_members nl n k = n :: level_members (tail nl) (S n) k.
Proof.
  destruct nl as [| l nl]; [done |]. cbn. intros [= ->].
  by rewrite decide_True.
Qed.

Lemma downward_closed_all (X : gset nat) :
  (∀ l, S l ∈ X → l ∈ X) → ∀ l, l < size X → l ∈ X.
Proof.
  intros Hdown l Hl.
  assert (X = set_seq 0 (size X)) as HX.
  { apply set_subseteq_size_eq.
    - intros j Hj. apply elem_of_set_seq.
      pose proof (downward_closed_below_size X Hdown j Hj). lia.
    - by rewrite size_set_seq. }
  rewrite HX. apply elem_of_set_seq. lia.
Qed.

(** X16: the levels that [buildLevels] returns have no gap: no level is
    empty; a level lists its constraints in increasing order; a constraint
    of a level above 0 comes after a constraint of the level just below;
    the level of a constraint is at most its index, so that the first
    constraint is in the level 0 and there are at most as many levels as
    constraints. *)
Theorem buildLevels_shape (fuel : nat) (ccs0 : R1CS) (levels : list (list nat)) :
  buildLevels fuel ccs0 = Some levels →
  Forall (λ lk, lk ≠ []) levels
  ∧ Forall (StronglySorted lt) levels
  ∧ (∀ k lk c, levels !! S k = Some lk → c ∈ lk →
       ∃ lk' c', levels !! k = Some lk' ∧ c' ∈ lk' ∧ c' < c)
  ∧ (∀ k lk c, levels !! k = Some lk → c ∈ lk → k ≤ c)
  ∧ length levels ≤ length (R1CS_Constraints ccs0)
  ∧ (R1CS_Constraints ccs0 ≠ [] → ∃ lk, levels !! 0 = Some (0 :: lk)).
Proof.
  intros Hrun. pose proof Hrun as Hfill. unfold buildLevels in Hfill.
  apply buildLevels_levels in Hrun as (b & Hloop & Hinv & Hi & Hn & Hlen & Hmem).
  rewrite Hloop in Hfill. cbn [mbind option_bind] in Hfill.
  apply fill_levels_spec in Hfill as [Hlook _].
  destruct Hinv as (_ & _ & G5 & G4).
  set (nl := nodeLevels b) in *.
  assert (∀ k lk, levels !! k = Some lk → lk = level_members nl 0 k) as Hlk.
  { intros k lk Hk. rewrite Hlook in Hk.
    destruct (replicate _ _ !! k) as [x |] eqn:Hx; [| done].
    apply lookup_replicate in Hx as [-> _]. cbn in Hk. by injection Hk as <-. }
  assert (∀ l, S l ∈ dom (mLevels b) → l ∈ dom (mLevels b)) as Hdown.
  { intros l. rewrite !elem_of_dom, !G4. intros (c0 & Hc0 & Hl0).
    destruct (G5 c0 l Hc0 Hl0) as (c' & Hc' & Hl'). exists c'. split; [lia | done]. }
  assert (∀ c lv, nl !! c = Some lv → lv ≤ c) as Hle.
  { intros c. induction c as [c IH] using lt_wf_ind. intros [| lv] Hc; [lia |].
    assert (c < length (R1CS_Constraints ccs0)) as Hc0.
    { rewrite <- Hn. by apply lookup_lt_Some in Hc. }
    destruct (G5 c lv Hc0 Hc) as (c' & Hc' & Hl').
    specialize (IH c' Hc' lv Hl'). lia. }
  assert (∀ k, k < length levels → ∃ c, nl !! c = Some k) as Hused.
  { intros k Hk. rewrite Hlen, <- size_dom in Hk.
    apply (downward_closed_all _ Hdown) in Hk.
    apply elem_of_dom, G4 in Hk as (c & _ & Hc). eauto. }
  split; [| split; [| split; [| split; [| split]]]].
  - apply Forall_lookup. intros k lk Hk.
    destruct (Hused k (lookup_lt_Some _ _ _ Hk)) as [c Hc].
    apply (Hmem k lk c Hk) in Hc. intros ->. by apply elem_of_nil in Hc.
  - apply Forall_lookup. intros k lk Hk. rewrite (Hlk k lk Hk).
    apply level_members_sorted.
  - intros k lk c Hk Hc. apply (Hmem _ _ c Hk) in Hc.
    assert (c < length (R1CS_Constraints ccs0)) as Hc0.
    { rewrite <- Hn. by apply lookup_lt_Some in Hc. }
    destruct (G5 c k Hc0 Hc) as (c' & Hc' & Hl').
    assert (k < length levels) as Hklt.
    { apply lookup_lt_Some in Hk. lia. }
    destruct (lookup_lt_is_Some_2 _ _ Hklt) as [lk' Hlk'].
    exists lk', c'. split; [done |]. split; [| done]. by apply (Hmem k lk' c').
  - intros k lk c Hk Hc. apply (Hmem _ _ c Hk) in Hc. by apply Hle.
  - destruct (decide (length levels = 0)) as [-> | Hne]; [lia |].
    destruct (Hused (length levels - 1)) as [c Hc]; [lia |].
    pose proof (Hle c _ Hc). apply lookup_lt_Some in Hc. fold nl in Hn. lia.
  - intros Hne.
    assert (0 < length nl) as Hpos.
    { rewrite Hn. destruct (R1CS_Constraints ccs0); [done | cbn; lia]. }
    destruct (lookup_lt_is_Some_2 _ _ Hpos) as [lv Hlv].
    pose proof (Hle 0 lv Hlv). assert (lv = 0) as -> by lia.
    assert (0 < length levels) as Hl0.
    { rewrite Hlen, <- size_dom.
      apply downward_closed_below_size; [done |].
      apply elem_of_dom, G4. exists 0. split; [| done]. fold nl in Hn. lia. }
    destruct (lookup_lt_is_Some_2 _ _ Hl0) as [lk Hlk0].
    rewrite Hlk0, (Hlk 0 lk Hlk0), (level_members_head _ _ _ Hlv). eauto.
Qed.

Lemma buildLevels_shape_witness :
  Forall (λ lk : list nat, lk ≠ []) [[0; 2]; [1]; [3]]
  ∧ Forall (StronglySorted lt) [[0; 2]; [1]; [3]].
Proof.
  destruct (buildLevels_shape 2 chain_ccs [[0; 2]; [1]; [3]])
    as (H1 & H2 & _).
  - vm_compute. reflexivity.
  - split; [exact H1 | exact H2].
Defined.

(** ** Constants as variables *)

Section ToVariable.
Context `{Env}.

Lemma IsUint64_one (z : Z) : IsUint64 z && (Uint64 z =? 1)%Z = bool_decide (z = 1%Z).
Proof.
  unfold IsUint64, Uint64.
  destruct (decide (z = 1%Z)) as [-> | Hne].
  - by rewrite bool_decide_eq_true_2.
  - rewrite bool_decide_eq_false_2 by done.
    destruct ((0 <=? z)%Z && (z <? 2 ^ 64)%Z) eqn:Hr; [| done].
    apply andb_true_iff in Hr as [H0 H1].
    apply Z.leb_le in H0. apply Z.ltb_lt in H1.
    rewrite Z.mod_small by lia. cbn. by apply Z.eqb_neq.
Qed.

(** X17: [toVariable] turns a constant [z] into one term on the public
    wire 0: for [z = 1] the variable [one], without touching the table of
    coefficients, and otherwise a term whose coefficient is [z] modulo the
    order of the field, interned in the table, which keeps what it had.
    [ConstantValue] gives that value back for the variable returned, when
    the table has 1 at the identifier of the coefficient one, as every
    table of the compiler has.  A term or a linear expression that is not
    wrapped in a variable makes [toVariable] panic. *)
Theorem toVariable_constant (system : compiler) (z : Z) :
  cs.Coeffs (st system) !! CoeffIdOne = Some 1%Z →
  let value := if decide (z = 1%Z) then 1%Z else (z mod modulus system)%Z in
  ∃ system' t,
    toVariable system (BigV z) = Some (system', mkVariable [t])
    ∧ term_key t = (schema.Public, 0)
    ∧ cs.Coeffs (st system') !! CoeffID t = Some value
    ∧ cs.Coeffs (st system) `prefix_of` cs.Coeffs (st system')
    ∧ system' = set_st system (st system')
    ∧ (z = 1%Z → system' = system ∧ mkVariable [t] = one)
    ∧ (IsSet (mkVariable [t]) = true →
       ConstantValue system' (VariableV (mkVariable [t])) = Some (Some value))
    ∧ (∀ x, toVariable system (TermV x) = None)
    ∧ (∀ l, toVariable system (LinExpV l) = None).
Proof.
  intros Hone value. unfold toVariable. cbn [utils.FromInterface mbind option_bind].
  rewrite IsUint64_one. subst value.
  destruct (decide (z = 1%Z)) as [-> | Hne].
  - rewrite bool_decide_eq_true_2 by done.
    exists system, (Pack 0 CoeffIdOne schema.Public).
    split; [done |]. split; [done |]. split; [done |]. split; [done |].
    split; [by destruct system |]. split; [done |]. split; [| done].
    intros Hset. cbn [ConstantValue LinExp]. rewrite Hset. cbn.
    change (cs.Coeffs (st system) !! 1) with (cs.Coeffs (st system) !! CoeffIdOne).
    by rewrite Hone.
  - rewrite bool_decide_eq_false_2 by done.
    cbn [one LinExp lookup list_lookup mbind option_bind].
    unfold setCoeff. cbn [Unpack Pack WireID VariableVisibility].
    destruct (cs.CoeffID (modulus system) (st system) z) as [st' nid] eqn:Hid.
    apply CoeffID_spec in Hid as [Hlk Hpre].
    exists (set_st system st'), (Pack 0 nid schema.Public).
    split; [done |]. split; [done |]. split; [done |]. split; [done |].
    split; [done |]. split; [done |]. split; [| done].
    intros Hset. cbn [ConstantValue LinExp]. rewrite Hset. cbn.
    change (cs.Coeffs st' !! nid = Some (z mod modulus system)%Z) in Hlk.
    by rewrite Hlk.
Qed.

Lemma toVariable_cases (system system' : compiler) (i : iface) (v : CVariable) :
  toVariable system i = Some (system', v) →
  convertible i ∧ converted i v
  ∧ cs.Coeffs (st system) `prefix_of` cs.Coeffs (st system')
  ∧ system' = set_st system (st system').
Proof.
  destruct i as [x | l | t | z]; cbn [toVariable utils.FromInterface mbind option_bind];
    try done.
  - destruct (IsSet x) eqn:Hset; [| done]. cbn [negb]. intros [= <- <-].
    split; [done |]. split; [done |]. split; [done |]. by destruct system.
  - destruct (IsUint64 z && (Uint64 z =? 1)%Z).
    + intros [= <- <-]. split; [done |]. split; [by eexists |].
      split; [done |]. by destruct system.
    + cbn [one LinExp lookup list_lookup mbind option_bind].
      unfold setCoeff. cbn [Unpack Pack WireID VariableVisibility].
      destruct (cs.CoeffID (modulus system) (st system) z) as [st' nid] eqn:Hid.
      apply CoeffID_spec in Hid as [_ Hpre]. intros [= <- <-].
      split; [done |]. split; [by eexists |]. done.
Qed.

Lemma toVariable_returns (system : compiler) (i : iface) :
  convertible i → is_Some (toVariable system i).
Proof.
  destruct i as [x | l | t | z]; cbn [convertible toVariable]; try done.
  - intros ->. eauto.
  - intros _. cbn [utils.FromInterface mbind option_bind].
    destruct (IsUint64 z && (Uint64 z =? 1)%Z); [eauto |].
    cbn [one LinExp lookup list_lookup mbind option_bind].
    by destruct (setCoeff system _ z).
Qed.

(** X18: [toVariables] returns exactly when every input is a variable that
    is set or a value that converts to a [big.Int]; it then returns one
    variable for each input, in the order of the inputs (a variable as it
    is, a constant as one term on the public wire 0), with the total number
    of their terms, and changes nothing of the compiler but the table of
    coefficients, which keeps what it had. *)
Theorem toVariables_spec (in_ : list iface) (system : compiler) :
  (is_Some (toVariables system in_) ↔ Forall convertible in_)
  ∧ ∀ system' r s,
      toVariables system in_ = Some (system', r, s) →
      Forall2 converted in_ r
      ∧ s = sum_list ((λ v, length (LinExp v)) <$> r)
      ∧ cs.Coeffs (st system) `prefix_of` cs.Coeffs (st system')
      ∧ system' = set_st system (st system').
Proof.
  revert system. induction in_ as [| i in_ IH]; intros system; cbn [toVariables].
  - split; [split; [constructor | eauto] |]. intros system' r s [= <- <- <-].
    split; [constructor |]. split; [done |]. split; [done |]. by destruct system.
  - split.
    + split.
      * intros [[[s' r] n] Hrun].
        destruct (toVariable system i) as [[s1 v] |] eqn:Hi; [| done].
        cbn [mbind option_bind] in Hrun.
        destruct (toVariables s1 in_) as [[[s2 r2] n2] |] eqn:Hrest; [| done].
        constructor; [by apply toVariable_cases in Hi as [? _] |].
        apply (IH s1). eauto.
      * intros Hall. apply Forall_cons in Hall as [Hi Hall].
        destruct (toVariable_returns system i Hi) as [[s1 v] ->].
        cbn [mbind option_bind].
        destruct (proj2 (proj1 (IH s1)) Hall) as [[[s2 r2] n2] ->].
        cbn [mbind option_bind]. eauto.
    + intros system' r s.
      destruct (toVariable system i) as [[s1 v] |] eqn:Hi; [| done].
      cbn [mbind option_bind].
      destruct (toVariables s1 in_) as [[[s2 r2] n2] |] eqn:Hrest; [| done].
      cbn [mbind option_bind]. intros [= <- <- <-].
      apply toVariable_cases in Hi as (_ & Hc & Hp1 & E1).
      destruct (proj2 (IH s1) _ _ _ Hrest) as (Hf & -> & Hp2 & E2).
      split; [by constructor |]. split; [done |]. split; [by etrans |].
      rewrite E2 at 1. rewrite E1. by destruct system.
Qed.

End ToVariable.

Lemma toVariable_constant_witness :
  ∃ system' t,
    toVariable fresh_system (BigV 20) = Some (system', mkVariable [t])
    ∧ cs.Coeffs (st system') !! CoeffID t = Some 7%Z.
Proof.
  destruct (toVariable_constant fresh_system 20) as (system' & t & Hrun & _ & Hv & _).
  - reflexivity.
  - exists system', t. split; [exact Hrun | exact Hv].
Defined.

(** ** Compile returns on circuits built on allocated wires *)

Lemma term_wf_grows (s s' : compiler) (t : Term) :
  grows s s' → term_wf s t → term_wf s' t.
Proof.
  intros (G1 & G2 & G3 & _). unfold term_wf.
  apply prefix_length in G1. apply prefix_length in G2.
  destruct (VariableVisibility t); try done; lia.
Qed.

Lemma input_terms_hint_input (x y : iface) :
  hint_input x = Some y → input_terms y = input_terms x.
Proof.
  destruct x as [v | l | t | z]; cbn; try done; intros [= <-]; cbn;
    by rewrite ?LinearExpression_Clone_eq.
Qed.

Section Built.
Context `{Env}.

Lemma built_inv_newCompiler (curveID : ecc.ID) (config : frontend.CompileConfig) :
  built_inv (newCompiler curveID config).
Proof.
  split; [apply hints_inv_newCompiler |]. split; [done |]. split; [constructor |].
  intros w h Hw. cbn in Hw. by rewrite lookup_empty in Hw.
Qed.

Lemma built_inv_run_call (s s' : compiler) (c : call) :
  built_inv s → call_wf s c → run_call s c = Some s' → built_inv s'.
Proof.
  intros (Hinv & Hpub & Hcs & Hh) Hwf Hrun.
  pose proof (grows_run_call s s' c Hinv Hrun) as Hg.
  pose proof (hints_inv_run_call s s' c Hinv Hrun) as Hinv'.
  assert (∀ t, term_wf s t → term_wf s' t) as Hmono
    by (intros t; by apply term_wf_grows).
  split; [done |]. split.
  { destruct Hg as ([k Hk] & _). rewrite Hk.
    destruct (Public (ConstraintSystem s)); done. }
  destruct c; cbn [run_call call_wf] in *.
  - unfold AddPublicVariable in Hrun. destruct (Schema _); [done |].
    injection Hrun as <-. cbn [Constraints set_ConstraintSystem MHints ConstraintSystem set_Public] in *.
    split.
    + eapply Forall_impl; [exact Hcs |]. cbn. intros c Hc.
      eapply Forall_impl; [exact Hc | exact Hmono].
    + intros w h Hw in_ t Hin Ht. destruct (Hh w h Hw in_ t Hin Ht). auto.
  - unfold AddSecretVariable in Hrun. destruct (Schema _); [done |].
    injection Hrun as <-. cbn [Constraints set_ConstraintSystem MHints ConstraintSystem set_Secret] in *.
    split.
    + eapply Forall_impl; [exact Hcs |]. cbn. intros c Hc.
      eapply Forall_impl; [exact Hc | exact Hmono].
    + intros w h Hw in_ t Hin Ht. destruct (Hh w h Hw in_ t Hin Ht). auto.
  - injection Hrun as <-. cbn [newInternalVariable fst Constraints set_ConstraintSystem MHints ConstraintSystem set_NbInternalVariables] in *.
    split.
    + eapply Forall_impl; [exact Hcs |]. cbn. intros c Hc.
      eapply Forall_impl; [exact Hc | exact Hmono].
    + intros w h Hw in_ t Hin Ht. destruct (Hh w h Hw in_ t Hin Ht). auto.
  - destruct (reduce s l) as [[s1 v] |] eqn:Hr; [| done]. injection Hrun as <-.
    apply reduce_set_st in Hr as (t' & -> & _). done.
  - destruct (newR1C l r o) as [r1c |] eqn:Hr; [| done]. injection Hrun as <-.
    assert (Forall (term_wf s) (terms_of r1c)) as Hnew.
    { destruct Hwf as (Hl & Hr' & Ho). unfold newR1C in Hr.
      destruct l as [lv | | |]; [| done ..].
      destruct r as [rv | | |]; [| done ..].
      destruct o as [ov | | |]; [| done ..].
      cbn [assert_Variable mbind option_bind] in Hr.
      unfold input_wf in *. cbn [input_terms] in *.
      destruct (length (LinExp rv) <? length (LinExp lv)); injection Hr as <-;
        unfold terms_of; cbn [R1C_L R1C_R R1C_O]; rewrite !Clone_eq;
        rewrite !Forall_app; auto. }
    split.
    + assert (Constraints (addConstraint s r1c debugID) = Constraints s ++ [r1c]) as ->
        by apply addConstraint_Constraints.
      apply Forall_app. split.
      * eapply Forall_impl; [exact Hcs |]. cbn. intros c Hc.
        eapply Forall_impl; [exact Hc | exact Hmono].
      * constructor; [| done]. eapply Forall_impl; [exact Hnew | exact Hmono].
    + intros w h Hw in_ t Hin Ht.
      assert (MHints (ConstraintSystem (addConstraint s r1c debugID))
              = MHints (ConstraintSystem s)) as Hm
        by (unfold addConstraint; by destruct debugID).
      rewrite Hm in Hw. destruct (Hh w h Hw in_ t Hin Ht). auto.
  - unfold MarkBoolean in Hrun.
    destruct (ConstantValue s v) as [[b |] |]; [| | done]; cbn in Hrun.
    + destruct (negb _); [done |]. by injection Hrun as <-.
    + destruct (assert_Variable v); [| done]. by injection Hrun as <-.
  - destruct (NewHint s f nbOutputs inputs) as [[[s1 res] err] |] eqn:Hr; [| done].
    injection Hrun as <-. unfold NewHint in Hr.
    destruct (nbOutputs <=? 0)%Z.
    { by injection Hr as <- _ _. }
    destruct (mapM hint_input inputs) as [hintInputs |] eqn:Hmap; [| done].
    cbn [mbind option_bind] in Hr. rewrite newHint_wires_spec in Hr.
    cbn [mbind option_bind] in Hr. injection Hr as <- _ _.
    set (s1 := set_ConstraintSystem _ _) in *.
    split.
    + change (Constraints s1) with (Constraints s).
      eapply Forall_impl; [exact Hcs |]. cbn. intros c Hc.
      eapply Forall_impl; [exact Hc | exact Hmono].
    + intros w h. unfold s1 at 1. cbn [MHints ConstraintSystem set_ConstraintSystem set_MHints].
      rewrite register_hint_lookup.
      destruct (decide (w ∈ seq (NbInternalVariables (ConstraintSystem s))
                          (Z.to_nat nbOutputs))) as [Hin | Hnin].
      * intros [= <-] in_ t Hin' Ht. cbn [Inputs] in Hin'.
        apply mapM_Some in Hmap.
        apply list_elem_of_lookup in Hin' as [i Hi].
        destruct (Forall2_lookup_r _ _ _ _ _ Hmap Hi) as (x & Hx & Hconv).
        rewrite (input_terms_hint_input _ _ Hconv) in Ht.
        rewrite Forall_forall in Hwf.
        pose proof (Hwf x (list_elem_of_lookup_2 _ _ _ Hx)) as Hxwf.
        unfold input_wf in Hxwf. rewrite Forall_forall in Hxwf.
        specialize (Hxwf t Ht). split; [auto |].
        intros Hvis. unfold term_wf in Hxwf. rewrite Hvis in Hxwf.
        apply elem_of_seq in Hin. lia.
      * intros Hw in_ t Hin' Ht. destruct (Hh w h Hw in_ t Hin' Ht). auto.
  - unfold SetSchema in Hrun. destruct (Schema _); [done |].
    injection Hrun as <-. cbn [Constraints set_ConstraintSystem MHints ConstraintSystem set_Schema] in *.
    split.
    + eapply Forall_impl; [exact Hcs |]. cbn. intros c Hc.
      eapply Forall_impl; [exact Hc | exact Hmono].
    + intros w h Hw in_ t Hin Ht. destruct (Hh w h Hw in_ t Hin Ht). auto.
Qed.

Lemma built_inv_run_calls (calls : list call) :
  ∀ s s', built_inv s → calls_wf s calls → run_calls s calls = Some s' →
          built_inv s'.
Proof.
  induction calls as [| c calls IH]; intros s s' Hinv Hwf; cbn [run_calls].
  - by intros [= <-].
  - destruct (run_call s c) as [s1 |] eqn:Hc; [| done]. cbn [mbind option_bind].
    destruct Hwf as [Hc1 Hrest]. intros Hrun.
    apply (IH s1); [by apply (built_inv_run_call s s1 c) | by apply Hrest | done].
Qed.

End Built.
Lemma offset_term_below (s : compiler) (t : Term) :
  term_wf s t →
  let P := length (Public (ConstraintSystem s)) in
  let S := length (Secret (ConstraintSystem s)) in
  WireID (offset_term P S t) < P + S + NbInternalVariables (ConstraintSystem s)
  ∧ (VariableVisibility t ≠ Internal → WireID (offset_term P S t) < P + S)
  ∧ (VariableVisibility t = Internal → WireID (offset_term P S t) = WireID t + P + S).
Proof.
  unfold term_wf, offset_term. cbn.
  destruct (VariableVisibility t); cbn; try done; intros; repeat split; try done; lia.
Qed.

Lemma built_inv_in_range (s : compiler) :
  built_inv s → constraints_in_range s.
Proof.
  intros (_ & _ & Hcs & _). unfold constraints_in_range.
  eapply Forall_impl; [exact Hcs |]. cbn. intros c Hc.
  eapply Forall_impl; [exact Hc |]. cbn. intros t. unfold term_wf, term_in_range.
  by destruct (VariableVisibility t).
Qed.

Lemma built_inv_wires_below (s : compiler) :
  built_inv s →
  wires_below
    (offset_R1C (length (Public (ConstraintSystem s)))
                (length (Secret (ConstraintSystem s))) <$> Constraints s)
    (length (Public (ConstraintSystem s)) + length (Secret (ConstraintSystem s))
     + NbInternalVariables (ConstraintSystem s)).
Proof.
  intros (_ & _ & Hcs & _) r w Hr Hw.
  apply list_elem_of_fmap in Hr as (c & -> & Hc).
  rewrite Forall_forall in Hcs. specialize (Hcs c Hc). rewrite Forall_forall in Hcs.
  unfold wires_of, offset_R1C, offsetIDs in Hw. cbn [R1C_L R1C_R R1C_O LinExp] in Hw.
  rewrite <- !fmap_app in Hw.
  apply list_elem_of_fmap in Hw as (t' & -> & Ht').
  apply list_elem_of_fmap in Ht' as (t & -> & Ht).
  by apply offset_term_below, Hcs.
Qed.

Lemma built_inv_hints_descend (s : compiler) (order : list (nat * Hint)) :
  built_inv s → visit_order s order →
  hints_descend
    (hint_loop (length (Public (ConstraintSystem s)))
               (length (Secret (ConstraintSystem s))) order)
    (length (Public (ConstraintSystem s)) + length (Secret (ConstraintSystem s))).
Proof.
  intros ([Hwf _] & _ & _ & Hh) Hord k h'.
  rewrite (hint_loop_lookup _ _ _ Hwf order Hord). unfold shifted_hints.
  destruct (decide _) as [Hle |]; [| done].
  destruct (MHints (ConstraintSystem s) !! _) as [h |] eqn:Hw; [| done].
  cbn. intros [= <-] in_' t' Hin' Ht'. cbn [Inputs offset_hint] in Hin'.
  apply list_elem_of_fmap in Hin' as (in_ & -> & Hin).
  assert (∃ t, t ∈ input_terms in_
               ∧ (t' = t ∨ t' = offset_term (length (Public (ConstraintSystem s)))
                                  (length (Secret (ConstraintSystem s))) t))
    as (t & Ht & Hcase).
  { destruct in_ as [v | l | x | z]; cbn [offset_input input_terms] in *.
    - rewrite LinearExpression_Clone_eq in Ht'. unfold offsetIDs in Ht'.
      apply list_elem_of_fmap in Ht' as (t & -> & Ht). eauto.
    - rewrite LinearExpression_Clone_eq in Ht'. unfold offsetIDs in Ht'.
      apply list_elem_of_fmap in Ht' as (t & -> & Ht). eauto.
    - eauto.
    - by apply elem_of_nil in Ht'. }
  destruct (Hh _ h Hw in_ t Hin Ht) as [Htwf Hint].
  destruct (offset_term_below s t Htwf) as (_ & Hni & Hi).
  unfold term_wf in Htwf.
  destruct Hcase as [-> | ->].
  - destruct (VariableVisibility t) eqn:Hv; try done.
    + specialize (Hint eq_refl). left. lia.
    + right. lia.
    + right. lia.
  - destruct (decide (VariableVisibility t = Internal)) as [Hv | Hv].
    + rewrite (Hi Hv). specialize (Hint Hv). left. lia.
    + right. by apply Hni.
Qed.

Section CompileReturns.
Context `{Env}.

(** X19: [Compile] returns, with a constraint system or with the error of
    the check of the inputs, on every circuit built by calls of the builder
    from a new compiler on a known curve, when the operands of the
    constraints and the inputs of the hints are on wires that were
    allocated before the call: it does not panic, and [processLE] calls
    itself to a depth of at most the number of wires.  When the check of the
    inputs is switched off it returns a constraint system. *)
Theorem Compile_returns (curveID : ecc.ID) (config0 : frontend.CompileConfig)
    (calls : list call) (system : compiler) (fuel : nat)
    (order : list (nat * Hint)) :
  curveID ≠ ecc.UNKNOWN →
  run_calls (newCompiler curveID config0) calls = Some system →
  calls_wf (newCompiler curveID config0) calls →
  visit_order system order →
  length (Public (ConstraintSystem system))
  + length (Secret (ConstraintSystem system))
  + NbInternalVariables (ConstraintSystem system) < fuel →
  (∃ res err, Compile fuel order system = Some (res, err))
  ∧ (frontend.IgnoreUnconstrainedInputs config0 = true →
     ∃ ccs, Compile fuel order system = Some (Some ccs, None))
  ∧ (∀ ccs, Compile fuel order system = Some (Some ccs, None) →
       compiled_curve ccs = curveID
       ∧ compiled_Coeffs ccs = cs.Coeffs (st system)
       ∧ length (R1CS_Constraints (compiled_R1CS ccs))
         = sum_list (call_constraints <$> calls)).
Proof.
  intros Hcurve Hrun Hwf Hord Hfuel.
  pose proof (built_inv_run_calls calls _ _ (built_inv_newCompiler curveID config0)
                Hwf Hrun) as Hinv.
  destruct (grows_run_calls calls _ _ (hints_inv_newCompiler curveID config0) Hrun)
    as [(_ & _ & _ & _ & _ & _ & _ & Hc & Hcfg & _) _].
  cbn in Hc, Hcfg.
  assert (is_Some (buildLevels fuel (offset_system order system))) as [levels Hl].
  { apply (buildLevels_returns _
             (length (Public (ConstraintSystem system))
              + length (Secret (ConstraintSystem system))
              + NbInternalVariables (ConstraintSystem system))); [| | done].
    - by apply built_inv_hints_descend.
    - by apply built_inv_wires_below. }
  assert (is_Some (checkVariables system)) as [err Herr].
  { destruct Hinv as (Hi & Hp & Hcs & Hh).
    destruct (decide (Constraints system = [])) as [He | Hne].
    - rewrite (checkVariables_no_constraint system Hp He). eauto.
    - destruct (checkVariables_cases system Hp
                  (built_inv_in_range system (conj Hi (conj Hp (conj Hcs Hh)))) Hne)
        as [[_ ->] | [_ ->]]; eauto. }
  split; [| split].
  - unfold Compile.
    destruct (negb (frontend.IgnoreUnconstrainedInputs (config system)));
      [rewrite Herr |]; cbn [mbind option_bind]; [destruct err as [msg |]; [eauto |] |];
      rewrite Hl; cbn [mbind option_bind]; rewrite Hc;
      destruct curveID; try done; eauto.
  - intros Hflag. unfold Compile. rewrite Hcfg, Hflag. cbn [negb mbind option_bind].
    rewrite Hl. cbn [mbind option_bind]. rewrite Hc.
    destruct curveID; try done; eauto.
  - intros ccs Hccs. unfold Compile in Hccs.
    destruct (if negb _ then _ else _) as [[msg |] |]; [done | | done].
    cbn [mbind option_bind] in Hccs. rewrite Hl in Hccs.
    cbn [mbind option_bind] in Hccs. rewrite Hc in Hccs.
    destruct (run_calls_counts calls _ _ Hrun) as [_ Hn]. cbn in Hn.
    destruct curveID; try done; injection Hccs as <-; cbn;
      rewrite length_fmap, Hn; done.
Qed.

End CompileReturns.

Lemma demo_calls_wf : calls_wf demo_start demo_calls.
Proof.
  unfold demo_calls, demo_start.
  repeat (cbn [calls_wf]; split; [| intros s1 Hs1; vm_compute in Hs1; injection Hs1 as <-]);
    cbn [call_wf]; unfold input_wf; cbn [input_terms]; repeat constructor;
    unfold term_wf; cbn; lia.
Qed.

Lemma Compile_returns_witness :
  ∃ ccs, Compile 14 demo_order demo_system = Some (Some ccs, None).
Proof.
  refine (proj1 (proj2 (Compile_returns ecc.BN254 (frontend.mkCompileConfig 0 true)
                          demo_calls demo_system 14 demo_order _ _ _ _ _)) _).
  - done.
  - apply demo_system_run.
  - apply demo_calls_wf.
  - unfold visit_order, demo_order. reflexivity.
  - vm_compute. lia.
  - reflexivity.
Defined.

(** ** Every wire of a constraint is solved by it or before it *)

Lemma binds_kept_trans (b1 b2 b3 : levelBuilder) :
  binds_kept b1 b2 → binds_kept b2 b3 → binds_kept b1 b3.
Proof. intros H1 H2 w n Hw. auto. Qed.

Section Binds.

Variables (self : levelBuilder → LinearExpression → option levelBuilder)
          (cID : nat).
Hypothesis self_extends : ∀ b l b', self b l = Some b' → extends cID b b'.
Hypothesis self_binds :
  ∀ b l b', self b l = Some b' →
  hints_wf (MHints (R1CS_ConstraintSystem (ccs b))) → solved_together b →
  solved_together b' ∧ binds_kept b b'.

Lemma process_inputs_binds (ins : list iface) :
  ∀ b b', process_inputs self ins b = Some b' →
  hints_wf (MHints (R1CS_ConstraintSystem (ccs b))) → solved_together b →
  solved_together b' ∧ binds_kept b b'.
Proof.
  induction ins as [| in_ ins IH]; intros b b'; cbn [process_inputs].
  - intros [= <-] _ Hj. split; [done |]. by intros w n.
  - destruct (match in_ with
              | VariableV t => self b (LinExp t)
              | LinExpV t => self b t
              | TermV t => self b [t]
              | BigV _ => Some b
              end) as [b1 |] eqn:H1; [| done].
    cbn [mbind option_bind]. intros H2 Hwf Hj.
    assert (extends cID b b1 ∧ solved_together b1 ∧ binds_kept b b1)
      as (Hext & Hj1 & Hk1).
    { destruct in_ as [v | l | t | z].
      - split; [by eapply self_extends | by eapply self_binds].
      - split; [by eapply self_extends | by eapply self_binds].
      - split; [by eapply self_extends | by eapply self_binds].
      - injection H1 as <-. split; [apply extends_refl |]. split; [done |].
        by intros w n. }
    assert (ccs b1 = ccs b) as Hccs by (by destruct Hext).
    destruct (IH b1 b' H2) as [Hj' Hk']; [by rewrite Hccs | done |].
    split; [done |]. by apply (binds_kept_trans b b1).
Qed.

Lemma process_terms_binds (l : LinearExpression) :
  ∀ b b', process_terms self cID l b = Some b' →
  hints_wf (MHints (R1CS_ConstraintSystem (ccs b))) → solved_together b →
  solved_together b' ∧ binds_kept b b' ∧ resolved l b'.
Proof.
  induction l as [| t l IH]; intros b b'; cbn [process_terms].
  - intros [= <-] _ Hj. split; [done |]. split; [by intros w n |].
    intros t Ht. by apply elem_of_nil in Ht.
  - intros Hrun Hwf Hj.
    pose proof (process_terms_ok self cID self_extends (t :: l) b b') as Hok.
    cbn [process_terms] in Hok. destruct (Hok Hrun) as [Hextall _]. clear Hok.
    assert (nbInputs b' = nbInputs b) as Hnb by (by destruct Hextall as (_ & ? & _)).
    destruct (WireID t <? nbInputs b) eqn:Hin.
    { apply Nat.ltb_lt in Hin.
      destruct (IH b b' Hrun Hwf Hj) as (Hj' & Hk' & Hr').
      split; [done |]. split; [done |].
      intros t' Ht'. apply elem_of_cons in Ht' as [-> | Ht']; [lia | by apply Hr']. }
    destruct (mWireToNode b !! WireID t) as [n |] eqn:Hw.
    { destruct (depend_on b n cID) as [b1 |] eqn:Hd; [| done].
      cbn [mbind option_bind] in Hrun.
      assert (mWireToNode b1 = mWireToNode b ∧ ccs b1 = ccs b) as [Hm Hc].
      { unfold depend_on in Hd. destruct (negb _); [| by injection Hd as <-].
        destruct (nodeLevels b !! n); [| done]. cbn in Hd.
        destruct (_ <=? _); by injection Hd as <-. }
      destruct (IH b1 b' Hrun) as (Hj' & Hk' & Hr').
      - by rewrite Hc.
      - intros w0 h0 Hw0 w' Hw'. rewrite Hm. rewrite Hc in Hw0. by apply (Hj w0 h0).
      - assert (binds_kept b b') as Hkk.
        { intros w n' Hwn. apply Hk'. by rewrite Hm. }
        split; [done |]. split; [done |].
        intros t' Ht'. apply elem_of_cons in Ht' as [-> | Ht']; [| by apply Hr'].
        intros _. rewrite (Hkk _ _ Hw). eauto. }
    destruct (MHints (R1CS_ConstraintSystem (ccs b)) !! WireID t) as [h |] eqn:Hh.
    + destruct (process_inputs self (Inputs h) b) as [b1 |] eqn:Hi; [| done].
      cbn [mbind option_bind] in Hrun.
      pose proof (process_inputs_extends self cID self_extends _ _ _ Hi) as Hext1.
      destruct (process_inputs_binds _ _ _ Hi Hwf Hj) as [Hj1 Hk1].
      assert (ccs b1 = ccs b) as Hc by (by destruct Hext1).
      set (b2 := set_mWireToNode b1 (mark_wires (Wires h) cID (mWireToNode b1))) in *.
      destruct (Hwf _ _ Hh) as [Hself Hall].
      assert (solved_together b2) as Hj2.
      { intros w0 h0 Hw0 w' Hw'. change (ccs b2) with (ccs b1) in Hw0.
        rewrite Hc in Hw0. destruct (Hwf _ _ Hw0) as [Hself0 Hall0].
        unfold b2; cbn [mWireToNode set_mWireToNode]. rewrite !mark_wires_lookup.
        destruct (decide (h0 = h)) as [-> | Hne].
        - by rewrite !decide_True.
        - rewrite !decide_False.
          + apply (Hj1 w0 h0); [by rewrite Hc | done].
          + intros Hin0. apply Hall in Hin0. congruence.
          + intros Hin'. apply Hall in Hin'. apply Hall0 in Hw'. congruence. }
      assert (binds_kept b1 b2) as Hk2.
      { intros w n Hwn. unfold b2; cbn [mWireToNode set_mWireToNode].
        rewrite mark_wires_lookup. destruct (decide (w ∈ Wires h)) as [Hinw |]; [| done].
        assert (mWireToNode b1 !! w = mWireToNode b1 !! WireID t) as He.
        { apply (Hj1 (WireID t) h); [by rewrite Hc | done]. }
        destruct Hext1 as (_ & _ & _ & _ & _ & Hbind & _).
        destruct (Hbind (WireID t)) as [Hold | Hnew]; congruence. }
      destruct (IH b2 b' Hrun) as (Hj' & Hk' & Hr');
        [change (ccs b2) with (ccs b1); by rewrite Hc | done |].
      split; [done |].
      split; [by apply (binds_kept_trans b b1), (binds_kept_trans b1 b2) |].
      intros t' Ht'. apply elem_of_cons in Ht' as [-> | Ht']; [| by apply Hr'].
      intros _. exists cID. apply Hk'. unfold b2; cbn [mWireToNode set_mWireToNode].
      rewrite mark_wires_lookup. by rewrite decide_True.
    + set (b2 := set_mWireToNode b (<[WireID t := cID]> (mWireToNode b))) in *.
      assert (solved_together b2) as Hj2.
      { intros w0 h0 Hw0 w' Hw'. change (ccs b2) with (ccs b) in Hw0.
        destruct (Hwf _ _ Hw0) as [Hself0 Hall0].
        unfold b2; cbn [mWireToNode set_mWireToNode]. rewrite !lookup_insert_ne.
        - by apply (Hj w0 h0).
        - intros <-. congruence.
        - intros <-. apply Hall0 in Hw'. congruence. }
      assert (binds_kept b b2) as Hk2.
      { intros w n Hwn. unfold b2; cbn [mWireToNode set_mWireToNode].
        rewrite lookup_insert_ne; [done |]. intros <-. congruence. }
      destruct (IH b2 b' Hrun) as (Hj' & Hk' & Hr'); [done | done |].
      split; [done |]. split; [by apply (binds_kept_trans b b2) |].
      intros t' Ht'. apply elem_of_cons in Ht' as [-> | Ht']; [| by apply Hr'].
      intros _. exists cID. apply Hk'. unfold b2; cbn [mWireToNode set_mWireToNode].
      by rewrite lookup_insert_eq.
Qed.

End Binds.

Lemma processLE_binds (fuel : nat) :
  ∀ b l cID b', processLE fuel b l cID = Some b' →
  hints_wf (MHints (R1CS_ConstraintSystem (ccs b))) → solved_together b →
  solved_together b' ∧ binds_kept b b' ∧ resolved l b'.
Proof.
  induction fuel as [| fuel IH]; intros b l cID b'; cbn [processLE]; [done |].
  apply process_terms_binds.
  - intros b0 l0 b0' H0. by apply processLE_ok in H0 as [? _].
  - intros b0 l0 b0' H0 Hwf Hj. by destruct (IH _ _ _ _ H0 Hwf Hj) as (? & ? & _).
Qed.
Lemma level_of_constraint_binds (fuel k : nat) (c : R1C) (b b' : levelBuilder) :
  level_of_constraint fuel b k c = Some b' →
  hints_wf (MHints (R1CS_ConstraintSystem (ccs b))) → solved_together b →
  solved_together b' ∧ binds_kept b b'
  ∧ (∀ w, w ∈ wires_of c → nbInputs b ≤ w → is_Some (mWireToNode b' !! w)).
Proof.
  unfold level_of_constraint. set (b0 := set_nodeLevel b 0).
  destruct (processLE fuel b0 (LinExp (R1C_L c)) k) as [b1 |] eqn:H1; [| done].
  cbn [mbind option_bind].
  destruct (processLE fuel b1 (LinExp (R1C_R c)) k) as [b2 |] eqn:H2; [| done].
  cbn [mbind option_bind].
  destruct (processLE fuel b2 (LinExp (R1C_O c)) k) as [b3 |] eqn:H3; [| done].
  cbn [mbind option_bind].
  destruct (k <? length (nodeLevels b3)); [| done]. intros [= <-] Hwf Hj.
  pose proof (processLE_ok _ _ _ _ _ H1) as [(E1 & N1 & _) _].
  pose proof (processLE_ok _ _ _ _ _ H2) as [(E2 & N2 & _) _].
  pose proof (processLE_ok _ _ _ _ _ H3) as [(E3 & N3 & _) _].
  change (ccs b0) with (ccs b) in E1. change (nbInputs b0) with (nbInputs b) in N1.
  destruct (processLE_binds _ _ _ _ _ H1) as (J1 & K1 & R1); [done | done |].
  destruct (processLE_binds _ _ _ _ _ H2) as (J2 & K2 & R2);
    [by rewrite E1 | done |].
  destruct (processLE_binds _ _ _ _ _ H3) as (J3 & K3 & R3);
    [by rewrite E2, E1 | done |].
  split; [exact J3 |]. split.
  { intros w n Hw. cbn [mWireToNode set_mLevels set_nodeLevels]. auto. }
  intros w Hw Hin. cbn [mWireToNode set_mLevels set_nodeLevels].
  unfold wires_of in Hw. apply list_elem_of_fmap in Hw as (t & -> & Ht).
  rewrite !elem_of_app in Ht. destruct Ht as [Ht | [Ht | Ht]].
  - destruct (R1 t Ht) as [n Hn]; [lia |]. exists n. auto.
  - destruct (R2 t Ht) as [n Hn]; [lia |]. exists n. auto.
  - apply (R3 t Ht). lia.
Qed.

Lemma level_loop_resolved (cs : list R1C) (fuel : nat) (l : list R1C) :
  ∀ (k : nat) (b b' : levelBuilder),
  level_inv cs k b → resolved_inv cs k b →
  hints_wf (MHints (R1CS_ConstraintSystem (ccs b))) →
  (∀ i r, l !! i = Some r → cs !! (k + i) = Some r) →
  level_loop fuel l k b = Some b' →
  resolved_inv cs (k + length l) b'.
Proof.
  induction l as [| c l IH]; intros k b b' Hinv Hres Hwf Hl; cbn [level_loop length].
  - intros [= <-]. by rewrite Nat.add_0_r.
  - destruct (level_of_constraint fuel b k c) as [b1 |] eqn:Hc; [| done].
    cbn [mbind option_bind]. intros Hrun.
    assert (cs !! k = Some c) as Hk.
    { specialize (Hl 0 c eq_refl). by rewrite Nat.add_0_r in Hl. }
    destruct (level_of_constraint_inv cs fuel k c b b1 Hinv Hk Hc)
      as (Hinv1 & Hccs & Hnb & _).
    destruct Hres as [Hj Hold].
    destruct (level_of_constraint_binds _ _ _ _ _ Hc Hwf Hj) as (Hj1 & Hk1 & Hr1).
    replace (k + S (length l)) with (S k + length l) by lia.
    apply (IH (S k) b1 b'); [done | | by rewrite Hccs | | done].
    + split; [done |]. intros c0 r w Hc0 Hr Hw Hin. rewrite Hnb in Hin.
      destruct (decide (c0 = k)) as [-> | Hne].
      * assert (r = c) as -> by congruence.
        destruct (Hr1 w Hw Hin) as [n Hn]. exists n. split; [done |].
        destruct Hinv1 as (G1 & _). specialize (G1 w n Hn). lia.
      * destruct (Hold c0 r w) as (n & Hn & Hle); try done; [lia |].
        exists n. split; [by apply Hk1 | done].
    + intros i r Hi. replace (S k + i) with (k + S i) by lia. by apply Hl.
Qed.

(** X20: when every output wire of a hint is bound to that hint in the
    hint map, [buildLevels] ends with every wire of a constraint that is
    not an input solved by the constraint itself or by an earlier
    constraint, which is then in a strictly lower level; and the output
    wires of a hint are solved by one and the same constraint, the first
    that uses one of them. *)
Theorem buildLevels_resolves (fuel : nat) (ccs0 : R1CS)
    (levels : list (list nat)) :
  hints_wf (MHints (R1CS_ConstraintSystem ccs0)) →
  buildLevels fuel ccs0 = Some levels →
  let nbIn := NbPublicVariables (R1CS_ConstraintSystem ccs0)
              + NbSecretVariables (R1CS_ConstraintSystem ccs0) in
  ∃ b,
    level_loop fuel (R1CS_Constraints ccs0) 0 (new_levelBuilder ccs0) = Some b
    ∧ (∀ c r w,
         R1CS_Constraints ccs0 !! c = Some r → w ∈ wires_of r → nbIn ≤ w →
         ∃ c', mWireToNode b !! w = Some c'
               ∧ (c' = c
                  ∨ (c' < c
                     ∧ ∃ k k' lk lk',
                         levels !! k = Some lk ∧ c ∈ lk
                         ∧ levels !! k' = Some lk' ∧ c' ∈ lk' ∧ k' < k)))
    ∧ (∀ w h, MHints (R1CS_ConstraintSystem ccs0) !! w = Some h →
         ∀ w', w' ∈ Wires h → mWireToNode b !! w' = mWireToNode b !! w).
Proof.
  intros Hwf Hrun nbIn. pose proof Hrun as Hfill. unfold buildLevels in Hfill.
  apply buildLevels_levels in Hrun as (b & Hloop & Hinv & Hi & Hn & Hlen & Hmem).
  rewrite Hloop in Hfill. cbn [mbind option_bind] in Hfill.
  apply fill_levels_spec in Hfill as [_ Hall].
  rewrite length_replicate, <- Hlen in Hall. rewrite Forall_forall in Hall.
  pose proof (level_loop_inv (R1CS_Constraints ccs0) fuel (R1CS_Constraints ccs0)
                0 (new_levelBuilder ccs0) b (level_inv_new ccs0)
                (λ i r Hr, Hr) Hloop) as (_ & Hccs & _).
  assert (resolved_inv (R1CS_Constraints ccs0) (length (R1CS_Constraints ccs0)) b)
    as [Hj Hres].
  { apply (level_loop_resolved (R1CS_Constraints ccs0) fuel (R1CS_Constraints ccs0)
             0 (new_levelBuilder ccs0) b); try done.
    - apply level_inv_new.
    - split; [| intros; lia]. intros w h _ w' _. cbn. by rewrite !lookup_empty. }
  exists b. split; [done |]. split.
  - intros c r w Hr Hw Hin.
    assert (c < length (R1CS_Constraints ccs0)) as Hc by (by apply lookup_lt_Some in Hr).
    destruct (Hres c r w Hc Hr Hw) as (c' & Hc' & Hle); [by rewrite Hi |].
    exists c'. split; [done |].
    destruct (decide (c' = c)) as [-> | Hne]; [by left |]. right.
    split; [lia |].
    destruct Hinv as (_ & G3 & _).
    destruct (G3 c r Hc Hr w Hw) with (n := c') as (lv & lc & Hlv & Hlc & Hlt);
      [by rewrite Hi | done | lia |].
    assert (lc < length levels) as Hlcl
      by (apply Hall; by apply list_elem_of_lookup_2 in Hlc).
    assert (lv < length levels) as Hlvl by lia.
    destruct (lookup_lt_is_Some_2 _ _ Hlcl) as [lk Hlk].
    destruct (lookup_lt_is_Some_2 _ _ Hlvl) as [lk' Hlk'].
    exists lc, lv, lk, lk'. split; [done |]. split; [by apply (Hmem lc lk c) |].
    split; [done |]. split; [by apply (Hmem lv lk' c') | done].
  - intros w h Hw w' Hw'. apply (Hj w h); [| done]. by rewrite Hccs.
Qed.

Lemma chain_ccs_hints_wf : hints_wf (MHints (R1CS_ConstraintSystem chain_ccs)).
Proof.
  intros w h Hw. cbn in Hw.
  destruct (decide (w = 5)) as [-> | Hne].
  - rewrite lookup_insert_eq in Hw. injection Hw as <-. cbn. split; [by left |].
    intros w' Hw'. apply list_elem_of_singleton in Hw' as ->.
    by rewrite lookup_insert_eq.
  - by rewrite lookup_insert_ne, lookup_empty in Hw.
Qed.

Lemma buildLevels_resolves_witness :
  ∃ b,
    level_loop 2 (R1CS_Constraints chain_ccs) 0 (new_levelBuilder chain_ccs)
    = Some b
    ∧ ∃ c', mWireToNode b !! 4 = Some c'
            ∧ (c' = 3
               ∨ (c' < 3
                  ∧ ∃ k k' lk lk',
                      [[0; 2]; [1]; [3]] !! k = Some lk ∧ 3 ∈ lk
                      ∧ [[0; 2]; [1]; [3]] !! k' = Some lk' ∧ c' ∈ lk' ∧ k' < k)).
Proof.
  destruct (buildLevels_resolves 2 chain_ccs [[0; 2]; [1]; [3]] chain_ccs_hints_wf)
    as (b & Hloop & Hres & _).
  - vm_compute. reflexivity.
  - exists b. split; [exact Hloop |].
    apply (Hres 3 (mkR1C (mkVariable [Pack 5 1 Internal])
                         (mkVariable [Pack 4 1 Internal])
                         (mkVariable [Pack 6 1 Internal])) 4).
    + reflexivity.
    + cbn. set_solver.
    + cbn. lia.
Defined.

(** ** Marking constants, and compiling without the check *)

Section MarkBooleanSpec.
Context `{Env}.

Lemma IsUint64_boolean (b : Z) :
  IsUint64 b && (Uint64 b <=? 1)%Z = bool_decide (b = 0 ∨ b = 1)%Z.
Proof.
  unfold IsUint64, Uint64.
  destruct (decide (b = 0 ∨ b = 1)%Z) as [[-> | ->] | Hne].
  - by rewrite bool_decide_eq_true_2 by auto.
  - by rewrite bool_decide_eq_true_2 by auto.
  - rewrite bool_decide_eq_false_2 by done.
    destruct ((0 <=? b)%Z && (b <? 2 ^ 64)%Z) eqn:Hr; [| done].
    apply andb_true_iff in Hr as [H0 H1].
    apply Z.leb_le in H0. apply Z.ltb_lt in H1.
    rewrite Z.mod_small by lia. cbn. apply Z.leb_gt. lia.
Qed.

(** X21: on a constant [MarkBoolean] records nothing: it returns, leaving
    the compiler as it is, when the constant is 0 or 1, and panics on any
    other constant.  On a variable that is not a constant it adds the
    sorted terms of the variable at the end of the bucket of their hash
    code, also when they are in the bucket already, so that marking twice
    leaves two copies; the other buckets and the rest of the compiler are
    unchanged. *)
Theorem MarkBoolean_spec (system : compiler) :
  (∀ v b, ConstantValue system v = Some (Some b) →
     MarkBoolean system v
     = if bool_decide (b = 0 ∨ b = 1)%Z then Some system else None)
  ∧ (∀ v, ConstantValue system v = None → MarkBoolean system v = None)
  ∧ (∀ x, ConstantValue system (VariableV x) = Some None →
       ∃ system',
         MarkBoolean system (VariableV x) = Some system'
         ∧ bucket system' x = bucket system x ++ [sorted_terms (LinExp x)]
         ∧ (∀ key, key ≠ HashCode (sorted_terms (LinExp x)) →
              mtBooleans system' !! key = mtBooleans system !! key)
         ∧ system' = set_mtBooleans system (mtBooleans system')
         ∧ ∃ system'',
             MarkBoolean system' (VariableV x) = Some system''
             ∧ bucket system'' x
               = bucket system x
                 ++ [sorted_terms (LinExp x); sorted_terms (LinExp x)]).
Proof.
  split; [| split].
  - intros v b Hc. unfold MarkBoolean. rewrite Hc. cbn [mbind option_bind].
    rewrite IsUint64_boolean. by destruct (bool_decide _).
  - intros v Hc. unfold MarkBoolean. by rewrite Hc.
  - intros x Hc. unfold MarkBoolean at 1. rewrite Hc.
    cbn [mbind option_bind assert_Variable].
    eexists. split; [reflexivity |].
    set (l := sorted_terms (LinExp x)).
    set (system' := set_mtBooleans system _).
    assert (bucket system' x = bucket system x ++ [l]) as Hb.
    { unfold bucket. fold l. unfold system'. cbn [mtBooleans set_mtBooleans].
      by rewrite lookup_insert_eq. }
    split; [done |]. split.
    { intros key Hne. unfold system'. cbn [mtBooleans set_mtBooleans].
      by rewrite lookup_insert_ne. }
    split; [done |].
    unfold MarkBoolean.
    change (ConstantValue system' (VariableV x))
      with (ConstantValue system (VariableV x)).
    rewrite Hc.
    cbn [mbind option_bind assert_Variable]. eexists. split; [reflexivity |].
    fold l. unfold bucket at 1. fold l. cbn [mtBooleans set_mtBooleans].
    rewrite lookup_insert_eq. cbn [default from_option id].
    change (default [] (mtBooleans system' !! HashCode l)) with (bucket system' x).
    rewrite Hb. by rewrite <- app_assoc.
Qed.

End MarkBooleanSpec.

Example MarkBoolean_panics_on_two : MarkBoolean fresh_system (BigV 2) = None.
Proof. vm_compute. reflexivity. Qed.

(** X22: switching the check of the inputs off changes nothing else:
    without the check [Compile] returns no error; when [checkVariables]
    passes, [Compile] returns the same with the check and without it; and
    with the check on, an error of [checkVariables] is what [Compile]
    returns, and a panic of [checkVariables] is a panic of [Compile]. *)
Theorem Compile_without_check (fuel : nat) (order : list (nat * Hint))
    (system : compiler) :
  (∀ msg, Compile fuel order (without_check system) ≠ Some (None, Some msg))
  ∧ (checkVariables system = Some None →
     Compile fuel order system = Compile fuel order (without_check system))
  ∧ (frontend.IgnoreUnconstrainedInputs (config system) = true →
     Compile fuel order system = Compile fuel order (without_check system))
  ∧ (frontend.IgnoreUnconstrainedInputs (config system) = false →
     (∀ msg, checkVariables system = Some (Some msg) →
        Compile fuel order system = Some (None, Some msg))
     ∧ (checkVariables system = None → Compile fuel order system = None)).
Proof.
  split; [| split; [| split]].
  - intros msg. unfold Compile. cbn [without_check config frontend.IgnoreUnconstrainedInputs negb mbind option_bind].
    destruct (buildLevels _ _); [| done]. cbn [mbind option_bind].
    by destruct (CurveID _).
  - intros Hc. unfold Compile.
    cbn [without_check config frontend.IgnoreUnconstrainedInputs negb].
    destruct (negb _); [rewrite Hc |]; reflexivity.
  - intros Hf. unfold Compile. rewrite Hf.
    cbn [without_check config frontend.IgnoreUnconstrainedInputs negb].
    reflexivity.
  - intros Hf. split.
    + intros msg Hc. unfold Compile. rewrite Hf, Hc. reflexivity.
    + intros Hc. unfold Compile. rewrite Hf, Hc. reflexivity.
Qed.

(** ** The hints of a GKR sub-circuit *)

Lemma map_fold_copy {V : Type} (m : gmap N V) :
  map_fold (λ k v res, <[k := v]> res) ∅ m = m.
Proof.
  induction m as [| k v m Hk Hfold IH] using map_first_key_ind; [done |].
  rewrite map_fold_insert_first_key by done. by rewrite IH.
Qed.

(** X23: [defineGkrHints] returns the hints given together with the two
    hints of the sub-circuit: a hint given under the identifier of the
    solving or of the proving hint is replaced without notice, and when the
    two identifiers are the same the proving hint is the one kept; every
    other hint is found as given. *)
Theorem defineGkrHints_lookup {Function : Type} (solveHint proveHint : Function)
    (SolveHintID ProveHintID : N) (hintFunctions : gmap N Function) (k : N) :
  defineGkrHints Function solveHint proveHint SolveHintID ProveHintID
    hintFunctions !! k
  = if decide (k = ProveHintID) then Some proveHint
    else if decide (k = SolveHintID) then Some solveHint
    else hintFunctions !! k.
Proof.
  unfold defineGkrHints. rewrite map_fold_copy.
  destruct (decide (k = ProveHintID)) as [-> | Hp].
  - by rewrite lookup_insert_eq.
  - rewrite lookup_insert_ne by done.
    destruct (decide (k = SolveHintID)) as [-> | Hs].
    + by rewrite lookup_insert_eq.
    + by rewrite lookup_insert_ne.
Qed.

(** ** The outputs of the GKR hints on small inputs *)

Example frToBigInts_example :
  frToBigInts [9; 9; 9]%Z [5; 6]%Z = Some [5; 6; 9]%Z
  ∧ frToBigInts [9]%Z [5; 6]%Z = None.
Proof. split; reflexivity. Qed.

(** Three wires of which the last two are outputs, with two, one and two
    instances. *)
Example setOuts_example :
  setOuts bool (λ w, w) [[1; 2]; [3]; [4; 5]]%Z [false; true; true]
    [0; 0; 0; 0]%Z
  = Some [3; 4; 5; 0]%Z
  ∧ setOuts bool (λ w, w) [[1; 2]; [3]; [4; 5]]%Z [false; true; true] [0; 0]%Z
    = None
  ∧ setOuts bool (λ w, w) [[1; 2]]%Z [false; true] [0; 0]%Z = None.
Proof. repeat split; reflexivity. Qed.

Example serialize_proof_example :
  serialize_proof
    [mkSumcheckProof [[1; 2]; [3]]%Z None;
     mkSumcheckProof [[4]]%Z (Some [5; 6]%Z)]
    [0; 0; 0; 0; 0; 0; 0]%Z 0
  = Some ([1; 2; 3; 4; 5; 6; 0]%Z, 6).
Proof. reflexivity. Qed.

Example toVariables_example :
  toVariables fresh_system
    [VariableV (mkVariable [Pack 3 1 Internal]); BigV 1; BigV 20]
  = Some (set_st fresh_system (cs.mkCoeffTable [0; 1; 7]%Z),
          [mkVariable [Pack 3 1 Internal]; one;
           mkVariable [Pack 0 2 schema.Public]],
          3).
Proof. vm_compute. reflexivity. Qed.

(** ** The levels are safe *)

Lemma offset_system_hints_wf (cs : compiler) (order : list (nat * Hint)) :
  hints_wf (MHints (ConstraintSystem cs)) →
  visit_order cs order →
  hints_wf (MHints (R1CS_ConstraintSystem (offset_system order cs))).
Proof.
  intros Hwf Hord k h'.
  change (MHints (R1CS_ConstraintSystem (offset_system order cs)))
    with (hint_loop (length (Public (ConstraintSystem cs)))
            (length (Secret (ConstraintSystem cs))) order).
  set (p := length (Public (ConstraintSystem cs))).
  set (s := length (Secret (ConstraintSystem cs))).
  rewrite (hint_loop_lookup p s _ Hwf order Hord). unfold shifted_hints.
  destruct (decide (p + s ≤ k)) as [Hle |]; [| done].
  destruct (MHints (ConstraintSystem cs) !! (k - (p + s))) as [h |] eqn:Hh; [| done].
  cbn [fmap option_fmap option_map]. intros [= <-].
  destruct (Hwf _ _ Hh) as [Hin Hall]. split.
  - by apply shifted_wire_elem.
  - intros k' Hk'. apply shifted_wire_elem in Hk' as [Hle' Hk'].
    rewrite (hint_loop_lookup p s _ Hwf order Hord). unfold shifted_hints.
    rewrite decide_True by done. by rewrite (Hall _ Hk').
Qed.

Lemma buildLevels_bound (fuel : nat) (ccs0 : R1CS) (levels : list (list nat))
    (b : levelBuilder) :
  hints_wf (MHints (R1CS_ConstraintSystem ccs0)) →
  buildLevels fuel ccs0 = Some levels →
  level_loop fuel (R1CS_Constraints ccs0) 0 (new_levelBuilder ccs0) = Some b →
  (∀ c k lk r w,
     levels !! k = Some lk → c ∈ lk →
     R1CS_Constraints ccs0 !! c = Some r → w ∈ wires_of r →
     NbPublicVariables (R1CS_ConstraintSystem ccs0)
     + NbSecretVariables (R1CS_ConstraintSystem ccs0) ≤ w →
     ∃ c', mWireToNode b !! w = Some c'
           ∧ (c' = c
              ∨ (c' < c
                 ∧ ∃ k' lk', levels !! k' = Some lk' ∧ c' ∈ lk' ∧ k' < k)))
  ∧ (∀ w h, MHints (R1CS_ConstraintSystem ccs0) !! w = Some h →
       ∀ w', w' ∈ Wires h → mWireToNode b !! w' = mWireToNode b !! w).
Proof.
  intros Hwf Hrun Hb. pose proof Hrun as Hfill. unfold buildLevels in Hfill.
  apply buildLevels_levels in Hrun as (b0 & Hloop & Hinv & Hi & Hn & Hlen & Hmem).
  assert (b0 = b) as -> by congruence. clear Hb.
  rewrite Hloop in Hfill. cbn [mbind option_bind] in Hfill.
  apply fill_levels_spec in Hfill as [_ Hall].
  rewrite length_replicate, <- Hlen in Hall. rewrite Forall_forall in Hall.
  pose proof (level_loop_inv (R1CS_Constraints ccs0) fuel (R1CS_Constraints ccs0)
                0 (new_levelBuilder ccs0) b (level_inv_new ccs0)
                (λ i r Hr, Hr) Hloop) as (_ & Hccs & _).
  assert (resolved_inv (R1CS_Constraints ccs0) (length (R1CS_Constraints ccs0)) b)
    as [Hj Hres].
  { apply (level_loop_resolved (R1CS_Constraints ccs0) fuel (R1CS_Constraints ccs0)
             0 (new_levelBuilder ccs0) b); try done.
    - apply level_inv_new.
    - split; [| intros; lia]. intros w h _ w' _. cbn. by rewrite !lookup_empty. }
  split.
  - intros c k lk r w Hk Hck Hr Hw Hin.
    assert (c < length (R1CS_Constraints ccs0)) as Hc by (by apply lookup_lt_Some in Hr).
    destruct (Hres c r w Hc Hr Hw) as (c' & Hc' & Hle); [by rewrite Hi |].
    exists c'. split; [done |].
    destruct (decide (c' = c)) as [-> | Hne]; [by left |]. right. split; [lia |].
    destruct Hinv as (_ & G3 & _).
    destruct (G3 c r Hc Hr w Hw) with (n := c') as (lv & lc & Hlv & Hlc & Hlt);
      [by rewrite Hi | done | lia |].
    apply (Hmem k lk c Hk) in Hck. assert (lc = k) as -> by congruence.
    assert (k < length levels) as Hkl by (by apply lookup_lt_Some in Hk).
    assert (lv < length levels) as Hlvl by lia.
    destruct (lookup_lt_is_Some_2 _ _ Hlvl) as [lk' Hlk'].
    exists lv, lk'. split; [done |]. split; [by apply (Hmem lv lk' c') | done].
  - intros w h Hw w' Hw'. apply (Hj w h); [| done]. by rewrite Hccs.
Qed.

(** C1: [buildLevels] returns, given fuel above the wires of the
    constraints, whenever the inputs of the hints refer to wires below their
    outputs; what it returns does not depend on the fuel; and what it
    returns is a partition of the constraints into levels that is safe:
    every constraint is in exactly one level, and when a wire of a
    constraint [c] in the level [k], at or above the number of inputs, is
    bound at the end to an earlier constraint [c'], the level of [c'] is
    strictly below [k].  With a well-formed hint map every such wire is
    bound: to [c] itself, or to an earlier constraint, which is then in a
    level strictly below [k]; and the output wires of a hint are bound to
    one constraint.  Wires below the number of inputs take no part:
    [processLE] on an expression is [processLE] on its terms at or above
    the number of inputs, and on an expression of input wires alone it
    leaves the builder, and so the level of the constraint, as it was.  The
    hint map that [Compile] hands to [buildLevels] is well formed when the
    one of the compiler is. *)
Theorem buildLevels_dependency_safe (ccs0 : R1CS) :
  let nbIn := NbPublicVariables (R1CS_ConstraintSystem ccs0)
              + NbSecretVariables (R1CS_ConstraintSystem ccs0) in
  (∀ bound fuel,
     hints_descend (MHints (R1CS_ConstraintSystem ccs0)) nbIn →
     wires_below (R1CS_Constraints ccs0) bound → bound < fuel →
     is_Some (buildLevels fuel ccs0))
  ∧ (∀ fuel fuel' levels levels',
       buildLevels fuel ccs0 = Some levels →
       buildLevels fuel' ccs0 = Some levels' → levels = levels')
  ∧ (∀ fuel levels,
       buildLevels fuel ccs0 = Some levels →
       ∃ b,
         level_loop fuel (R1CS_Constraints ccs0) 0 (new_levelBuilder ccs0) = Some b
         ∧ (∀ c, c < length (R1CS_Constraints ccs0) →
              ∃ k lk, levels !! k = Some lk ∧ c ∈ lk)
         ∧ (∀ c k k' lk lk',
              levels !! k = Some lk → c ∈ lk →
              levels !! k' = Some lk' → c ∈ lk' →
              k = k' ∧ c < length (R1CS_Constraints ccs0))
         ∧ (∀ c k lk r w c' k' lk',
              levels !! k = Some lk → c ∈ lk →
              R1CS_Constraints ccs0 !! c = Some r →
              w ∈ wires_of r → nbIn ≤ w →
              mWireToNode b !! w = Some c' → c' < c →
              levels !! k' = Some lk' → c' ∈ lk' →
              k' < k)
         ∧ (hints_wf (MHints (R1CS_ConstraintSystem ccs0)) →
            (∀ c k lk r w,
               levels !! k = Some lk → c ∈ lk →
               R1CS_Constraints ccs0 !! c = Some r →
               w ∈ wires_of r → nbIn ≤ w →
               ∃ c', mWireToNode b !! w = Some c'
                     ∧ (c' = c
                        ∨ (c' < c
                           ∧ ∃ k' lk',
                               levels !! k' = Some lk' ∧ c' ∈ lk' ∧ k' < k)))
            ∧ (∀ w h, MHints (R1CS_ConstraintSystem ccs0) !! w = Some h →
                 ∀ w', w' ∈ Wires h →
                 mWireToNode b !! w' = mWireToNode b !! w)))
  ∧ (∀ fuel b l cID,
       processLE fuel b l cID
       = processLE fuel b (filter (λ t, nbInputs b ≤ WireID t) l) cID)
  ∧ (∀ fuel b l cID,
       (∀ t, t ∈ l → WireID t < nbInputs b) →
       processLE (S fuel) b l cID = Some b)
  ∧ (∀ cs order,
       hints_wf (MHints (ConstraintSystem cs)) → visit_order cs order →
       ccs0 = offset_system order cs →
       hints_wf (MHints (R1CS_ConstraintSystem ccs0))).
Proof.
  intros nbIn. split; [| split; [| split; [| split; [| split]]]].
  - intros bound fuel Hd Hb Hf. by apply buildLevels_returns with bound.
  - intros fuel fuel' levels levels' H1 H2.
    destruct (Nat.le_ge_cases fuel fuel') as [Hle | Hle].
    + apply (buildLevels_fuel_le _ _ _ _ Hle) in H1. congruence.
    + apply (buildLevels_fuel_le _ _ _ _ Hle) in H2. congruence.
  - intros fuel levels Hrun.
    destruct (buildLevels_safe fuel ccs0 levels Hrun)
      as (b & Hloop & Hall & Hone & Hdep).
    exists b. split; [done |]. split; [done |]. split; [done |].
    split; [done |]. intros Hwf. by apply (buildLevels_bound fuel).
  - intros fuel b l cID. apply processLE_filter.
  - intros fuel b l cID Hl. cbn [processLE]. by apply process_terms_inputs.
  - intros cs order Hwf Hord ->. by apply offset_system_hints_wf.
Qed.

Lemma buildLevels_dependency_safe_witness :
  is_Some (buildLevels 8 chain_ccs)
  ∧ ∃ b,
      level_loop 2 (R1CS_Constraints chain_ccs) 0 (new_levelBuilder chain_ccs)
      = Some b
      ∧ mWireToNode b !! 2 = Some 0
      ∧ ∃ k' lk', [[0; 2]; [1]; [3]] !! k' = Some lk' ∧ 0 ∈ lk' ∧ k' < 1.
Proof.
  destruct (buildLevels_dependency_safe chain_ccs) as (Hret & _ & Hsafe & _).
  split.
  - apply (Hret 7 8); [| | lia].
    + intros w h Hw in_ t Hin Ht. cbn in Hw.
      destruct (decide (w = 5)) as [-> | Hne].
      * rewrite lookup_insert_eq in Hw. injection Hw as <-. cbn in Hin.
        apply list_elem_of_singleton in Hin as ->. cbn in Ht.
        apply list_elem_of_singleton in Ht as ->. cbn. lia.
      * rewrite lookup_insert_ne, lookup_empty in Hw by done. done.
    + intros r w Hr Hw. cbn in Hr.
      repeat (apply elem_of_cons in Hr as [-> | Hr]);
        [.. | by apply elem_of_nil in Hr]; cbn in Hw;
        repeat (apply elem_of_cons in Hw as [-> | Hw]);
        try lia; by apply elem_of_nil in Hw.
  - destruct (Hsafe 2 [[0; 2]; [1]; [3]]) as (b & Hloop & _ & _ & _ & Hbound).
    + vm_compute. reflexivity.
    + destruct (Hbound chain_ccs_hints_wf) as [Hres _].
      exists b. split; [exact Hloop |].
      destruct (Hres 0 0 [0; 2]
                  (mkR1C (mkVariable [Pack 1 1 schema.Secret])
                         (mkVariable [Pack 1 1 schema.Secret])
                         (mkVariable [Pack 2 1 Internal])) 2)
        as (c0 & Hc0 & Hcase0);
        [reflexivity | by left | reflexivity | cbn; repeat constructor | cbn; lia |].
      assert (c0 = 0) as -> by (destruct Hcase0 as [-> | [Hlt _]]; [done | lia]).
      split; [exact Hc0 |].
      destruct (Hres 1 1 [1]
                  (mkR1C (mkVariable [Pack 2 1 Internal])
                         (mkVariable [Pack 1 1 schema.Secret])
                         (mkVariable [Pack 3 1 Internal])) 2)
        as (c1 & Hc1 & Hcase1);
        [reflexivity | by left | reflexivity | cbn; repeat constructor | cbn; lia |].
      assert (c1 = 0) as -> by congruence.
      destruct Hcase1 as [? | [_ Hlow]]; [done | exact Hlow].
Defined.
